(** * RedisMemoryTool: a file/directory namespace over a flat key-value store

    Shallow embedding of [src/index.ts] (class [RedisMemoryTool]) and the
    properties of its six path-oriented commands.

    Conventions of the embedding.
    - A JavaScript string is a [string] (a sequence of code units); the
      built-in string methods the source calls ([startsWith], [slice],
      [split], [join], [replace], [padStart]) are defined below with the
      behaviour ECMAScript gives them on the arguments the source passes.
    - The Redis client is the external collaborator: the store is a finite
      map from keys to entries, an entry being a text value and the
      time-to-live most recently set on it; the passing of time is not
      modelled.  [KEYS] matches the keys against its argument as a Redis
      glob-style pattern, which is what the client the source calls does;
      the order in which it reports keys is left unspecified.
    - A number is an integer ([Z]); the TTL, a number of seconds, is a
      natural number ([N]).
    - An [async] method is a state-and-error computation on the store: a
      thrown [Error] keeps the writes made before it. *)

From Stdlib Require Import ZArith Ascii String DecimalString.
From stdpp Require Import base option list sorting gmap strings.

Local Open Scope Z_scope.

(** ** JavaScript string built-ins *)

Module Js.

(** [s.startsWith(pre)] *)
Fixpoint startsWith (s pre : string) {struct pre} : bool :=
  match pre with
  | EmptyString => true
  | String a pre' =>
      match s with
      | EmptyString => false
      | String b s' => Ascii.eqb a b && startsWith s' pre'
      end
  end.

(** [s.slice(n)] for a start index [0 <= n] *)
Fixpoint slice_from (n : nat) (s : string) : string :=
  match n, s with
  | O, _ => s
  | S n', String _ s' => slice_from n' s'
  | S _, EmptyString => EmptyString
  end.

(** [s.slice(0, n)] (also [s.substring(0, n)]) *)
Fixpoint slice_to (n : nat) (s : string) : string :=
  match n, s with
  | S n', String c s' => String c (slice_to n' s')
  | _, _ => EmptyString
  end.

(** [s.indexOf(pat)]: the least position at which [pat] occurs. *)
Fixpoint indexOf (s pat : string) : option nat :=
  if startsWith s pat then Some O
  else match s with
       | EmptyString => None
       | String _ s' => S <$> indexOf s' pat
       end.

(** The code units of a string, each as a one-character string. *)
Fixpoint code_units (s : string) : list string :=
  match s with
  | EmptyString => []
  | String c s' => String c EmptyString :: code_units s'
  end.

(** The loop of [String.prototype.split] for a non-empty separator: cut at
    each successive [indexOf], resuming after the separator.  Every round
    consumes at least one code unit, so [String.length s] rounds suffice. *)
Fixpoint split_loop (fuel : nat) (s sep : string) : list string :=
  match fuel with
  | O => [s]
  | S fuel' =>
      match indexOf s sep with
      | None => [s]
      | Some j =>
          slice_to j s :: split_loop fuel' (slice_from (j + String.length sep) s) sep
      end
  end.

(** [s.split(sep)] with a string separator and no limit. *)
Definition split (s sep : string) : list string :=
  match sep with
  | EmptyString => code_units s
  | _ => split_loop (String.length s) s sep
  end.

(** [l.join(sep)] *)
Definition join (l : list string) (sep : string) : string := String.concat sep l.

(** [GetSubstitution] for a string pattern (no captures): in the
    replacement text, [$$] stands for a dollar sign, [$&] for the matched
    text, [$`] for the text before the match and [$'] for the text after it;
    any other code unit stands for itself. *)
Fixpoint getSubstitution (matched before after tmpl : string) : string :=
  match tmpl with
  | EmptyString => EmptyString
  | String c r =>
      if Ascii.eqb c "$" then
        match r with
        | String d r' =>
            if Ascii.eqb d "$" then String "$" (getSubstitution matched before after r')
            else if Ascii.eqb d "&" then matched +:+ getSubstitution matched before after r'
            else if Ascii.eqb d "`" then before +:+ getSubstitution matched before after r'
            else if Ascii.eqb d "'" then after +:+ getSubstitution matched before after r'
            else String c (getSubstitution matched before after r)
        | EmptyString => String c EmptyString
        end
      else String c (getSubstitution matched before after r)
  end.

(** [s.replace(pat, repl)] with a string pattern: the first occurrence only. *)
Definition replace (s pat repl : string) : string :=
  match indexOf s pat with
  | None => s
  | Some j =>
      let before := slice_to j s in
      let after := slice_from (j + String.length pat) s in
      before +:+ getSubstitution pat before after repl +:+ after
  end.

(** [s.replace(/c$/, "")]: drop the last code unit when it is [c]. *)
Fixpoint strip_last (c : ascii) (s : string) : string :=
  match s with
  | EmptyString => EmptyString
  | String a EmptyString => if Ascii.eqb a c then EmptyString else s
  | String a s' => String a (strip_last c s')
  end.

(** [s.replace(/c+/g, c)]: the scanner is either outside a match of [c+]
    ([in_run = false]) or inside one, where further [c]s belong to the match
    already replaced. *)
Fixpoint squeeze_runs (c : ascii) (in_run : bool) (s : string) : string :=
  match s with
  | EmptyString => EmptyString
  | String a s' =>
      if Ascii.eqb a c
      then if in_run then squeeze_runs c true s' else String c (squeeze_runs c true s')
      else String a (squeeze_runs c false s')
  end.

(** [String(n)] for an integer. *)
Definition String_of (n : Z) : string := NilZero.string_of_int (Z.to_int n).

Fixpoint repeat_char (c : ascii) (n : nat) : string :=
  match n with
  | O => EmptyString
  | S n' => String c (repeat_char c n')
  end.

(** [s.padStart(n, c)] with a one-character filler. *)
Definition padStart (s : string) (n : nat) (c : ascii) : string :=
  repeat_char c (n - String.length s) +:+ s.

(** [s.padEnd(n, c)] with a one-character filler. *)
Definition padEnd (s : string) (n : nat) (c : ascii) : string :=
  s +:+ repeat_char c (n - String.length s).

(** [l.slice(a, b)] on an array: negative indices count from the end, and
    both ends are clamped to the array. *)
Definition clamp_index (len : nat) (i : Z) : nat :=
  if i <? 0 then Z.to_nat (Z.max (Z.of_nat len + i) 0)
  else Nat.min (Z.to_nat i) len.

Definition array_slice {A} (l : list A) (a b : Z) : list A :=
  let from := clamp_index (length l) a in
  let to := clamp_index (length l) b in
  take (to - from) (drop from l).

(** [l.splice(start, 0, x)] on an array: insert [x] before index [start]. *)
Definition array_splice_insert {A} (l : list A) (start : Z) (x : A) : list A :=
  let i := clamp_index (length l) start in
  take i l ++ x :: drop i l.

(** [l.map((x, i) => f(x, i))] *)
Fixpoint map_indexed {A B} (f : A → nat → B) (i : nat) (l : list A) : list B :=
  match l with
  | [] => []
  | x :: l' => f x i :: map_indexed f (S i) l'
  end.

End Js.

(** ** Configuration and errors *)

Definition LF : string := String "010" EmptyString.

(** [RedisMemoryToolConfig]: every field is optional; [ttl] is in seconds. *)
Record RedisMemoryToolConfig := {
  config_keyPrefix : option string;
  config_ttl : option N;
  config_agentContext : option string;
}.

(** The private fields of a [RedisMemoryTool] instance (the Redis client is
    the store the commands run on). *)
Record RedisMemoryTool := {
  keyPrefix : string;
  ttl : option N;
}.

(** The constructor: [base:agentContext] when an agent context is given
    (and is not the empty string), [base] otherwise. *)
Definition constructor (config : RedisMemoryToolConfig) : RedisMemoryTool :=
  let base := default "memory" (config_keyPrefix config) in
  {| ttl := config_ttl config;
     keyPrefix :=
       match config_agentContext config with
       | Some (String c ctx) => base +:+ ":" +:+ String c ctx
       | _ => base
       end |}.

(** The test [if (this.ttl)]: a TTL is in force when it is set and not 0. *)
Definition ttl_in_force (this : RedisMemoryTool) : option N :=
  match ttl this with
  | Some t => if (t =? 0)%N then None else Some t
  | None => None
  end.

(** The [Error]s the commands throw, one constructor per message. *)
Inductive error : Type :=
  | InvalidPath (memoryPath : string)
  | PathNotFound (memoryPath : string)
  | FileAlreadyExists (memoryPath : string)
  | FileNotFound (memoryPath : string)
  | TextNotFound (memoryPath : string)
  | TextNotUnique (count : Z) (memoryPath : string)
  | InvalidInsertLine (insert_line : Z) (line_count : nat)
  | CannotDeleteRoot
  | DestinationExists (path : string)
  | SourceNotFound (oldPath : string).

Definition error_message (e : error) : string :=
  match e with
  | InvalidPath p => "Path must start with /memories, got: " +:+ p
  | PathNotFound p => "Path not found: " +:+ p
  | FileAlreadyExists p => "File already exists: " +:+ p
  | FileNotFound p => "File not found: " +:+ p
  | TextNotFound p => "Text not found in " +:+ p
  | TextNotUnique n p =>
      "Text appears " +:+ Js.String_of n +:+ " times in " +:+ p +:+ ". Must be unique."
  | InvalidInsertLine i n =>
      "Invalid insert_line " +:+ Js.String_of i +:+ ". Must be 0-"
      +:+ Js.String_of (Z.of_nat n)
  | CannotDeleteRoot => "Cannot delete the /memories directory itself"
  | DestinationExists p => "Destination already exists: " +:+ p
  | SourceNotFound p => "Source path not found: " +:+ p
  end.

#[global] Instance error_eq_dec : EqDecision error.
Proof. solve_decision. Defined.

(** ** The key-value store *)

(** An entry: the text stored under a key and the time-to-live (seconds)
    most recently set on it, if any. *)
Record entry := Entry {
  value : string;
  expiry : option N;
}.

#[global] Instance entry_eq_dec : EqDecision entry.
Proof. solve_decision. Defined.

Abbreviation store := (gmap string entry).

(** A computation on the store that may throw. *)
Definition M (A : Type) : Type := store → (error + A) * store.

#[global] Instance M_ret : MRet M := λ A x s, (inr x, s).
#[global] Instance M_bind : MBind M := λ A B f m s,
  match m s with
  | (inl e, s') => (inl e, s')
  | (inr x, s') => f x s'
  end.

Definition throw {A} (e : error) : M A := λ s, (inl e, s).

(** A pure step that may throw. *)
Definition lift {A} (r : error + A) : M A := λ s, (r, s).

(** [for (const x of l) { body(x) }] *)
Fixpoint for_of {A} (l : list A) (body : A → M unit) : M unit :=
  match l with
  | [] => mret ()
  | x :: l' => body x;; for_of l' body
  end.

(** ** The Redis client

    [KEYS pattern] compares every key with the pattern the way Redis
    matches glob-style patterns, case-sensitively: [*] stands for any run
    of code units, [?] for any one, [[...]] for one code unit of a class (a
    leading [^] negates the class, [a-b] is a range), and a backslash takes
    the code unit after it literally.  The bound Redis puts on the nesting
    of wildcards is not modelled. *)

Module Redis.

(** The wildcards that may still follow once the key is exhausted. *)
Fixpoint skip_stars (pattern : string) : string :=
  match pattern with
  | EmptyString => EmptyString
  | String p rest => if Ascii.eqb p "*" then skip_stars rest else pattern
  end.

(** After one step of the matcher: with the key exhausted, only wildcards
    may remain in the pattern. *)
Definition resume (matches : string → bool) (rest s : string) : bool :=
  match s with
  | EmptyString => if skip_stars rest is EmptyString then true else false
  | _ => matches s
  end.

(** A wildcard followed by more pattern: the rest is tried at every
    position of what is left of the key. *)
Fixpoint star_loop (matches : string → bool) (s : string) : bool :=
  match s with
  | EmptyString => false
  | String _ s' => matches s || star_loop matches s'
  end.

(** [c] lies between the two ends of a range, given in either order. *)
Definition in_range (a b c : ascii) : bool :=
  let lo := Nat.min (nat_of_ascii a) (nat_of_ascii b) in
  let hi := Nat.max (nat_of_ascii a) (nat_of_ascii b) in
  Nat.leb lo (nat_of_ascii c) && Nat.leb (nat_of_ascii c) hi.

(** The matcher, and its loop over the members of a class: [c] is the code
    unit of the key the class is compared with, [s] the key after it, and
    [matched] whether a member met so far is [c].  A class left open by
    the end of the pattern is closed there. *)
Fixpoint stringmatch (pattern s : string) {struct pattern} : bool :=
  match pattern, s with
  | EmptyString, EmptyString => true
  | EmptyString, String _ _ => false
  | String _ _, EmptyString => false
  | String p rest, String c s' =>
      if Ascii.eqb p "*" then
        match rest with
        | EmptyString => true
        | String q _ =>
            if Ascii.eqb q "*" then stringmatch rest s
            else star_loop (stringmatch rest) s
        end
      else if Ascii.eqb p "?" then resume (stringmatch rest) rest s'
      else if Ascii.eqb p "[" then
        match rest with
        | EmptyString => class_loop rest c false false s'
        | String q rest' =>
            if Ascii.eqb q "^" then class_loop rest' c true false s'
            else class_loop rest c false false s'
        end
      else if Ascii.eqb p "\" then
        match rest with
        | EmptyString => if Ascii.eqb p c then resume (stringmatch rest) rest s' else false
        | String q rest' =>
            if Ascii.eqb q c then resume (stringmatch rest') rest' s' else false
        end
      else if Ascii.eqb p c then resume (stringmatch rest) rest s'
      else false
  end
with class_loop (pattern : string) (c : ascii) (negate matched : bool) (s : string)
    {struct pattern} : bool :=
  match pattern with
  | EmptyString =>
      if xorb negate matched then (if s is EmptyString then true else false)
      else false
  | String a rest =>
      match rest with
      | EmptyString =>
          if Ascii.eqb a "]" then
            if xorb negate matched then resume (stringmatch rest) rest s else false
          else class_loop rest c negate (matched || Ascii.eqb a c) s
      | String b rest' =>
          if Ascii.eqb a "\" then class_loop rest' c negate (matched || Ascii.eqb b c) s
          else if Ascii.eqb a "]" then
            if xorb negate matched then resume (stringmatch rest) rest s else false
          else
            match rest' with
            | EmptyString => class_loop rest c negate (matched || Ascii.eqb a c) s
            | String d rest'' =>
                if Ascii.eqb b "-"
                then class_loop rest'' c negate (matched || in_range a d c) s
                else class_loop rest c negate (matched || Ascii.eqb a c) s
            end
      end
  end.

(** The keys of the store that match a pattern. *)
Definition matching (pattern : string) (s : store) : list string :=
  filter (λ k, stringmatch pattern k = true) (map_to_list s).*1.

Section commands.
(** The order in which [KEYS] reports the matching keys. *)
Variable order : list string → list string.

Definition get (key : string) : M (option string) :=
  λ s, (inr (value <$> s !! key), s).

(** [SET] stores the value and discards any time-to-live of the key. *)
Definition set (key val : string) : M unit :=
  λ s, (inr (), <[key := Entry val None]> s).

Definition setex (key : string) (seconds : N) (val : string) : M unit :=
  λ s, (inr (), <[key := Entry val (Some seconds)]> s).

(** [EXPIRE] touches only an existing key. *)
Definition expire (key : string) (seconds : N) : M unit :=
  λ s, (inr (), alter (λ e, Entry (value e) (Some seconds)) key s).

Definition exists_ (key : string) : M Z :=
  λ s, (inr (if s !! key is Some _ then 1 else 0), s).

Definition del (keys : list string) : M Z :=
  λ s, (inr (Z.of_nat (length (filter (λ k, is_Some (s !! k)) keys))),
        foldr delete s keys).

Definition keys (pattern : string) : M (list string) :=
  λ s, (inr (order (matching pattern s)), s).
End commands.
End Redis.

(** Text that a pattern takes literally: none of the code units [*], [?],
    [[] and the backslash. *)
Definition glob_char (c : ascii) : bool :=
  Ascii.eqb c "*" || Ascii.eqb c "?" || Ascii.eqb c "[" || Ascii.eqb c "\".

Fixpoint glob_free (s : string) : bool :=
  match s with
  | EmptyString => true
  | String c s' => negb (glob_char c) && glob_free s'
  end.

(** ** The tool: [class RedisMemoryTool] *)

(** [children.add(x)] on a [Set]: insertion order, no duplicates. *)
Definition set_add (x : string) (children : list string) : list string :=
  if decide (x ∈ children) then children else children ++ [x].

(** [Array.from(children).sort()]: ascending by code units. *)
Definition sort_strings (l : list string) : list string := merge_sort String.le l.

(** [items.map((item) => `- ${item}`).join("\n")] *)
Definition bullet_list (items : list string) : string :=
  Js.join ((λ item, "- " +:+ item) <$> items) LF.

(** The numbered rendering of the retained lines of a file. *)
Definition number_lines (displayLines : list string) (startNum : Z) : list string :=
  Js.map_indexed
    (λ line i, Js.padStart (Js.String_of (Z.of_nat i + startNum)) 4 " " +:+ ": " +:+ line)
    O displayLines.

Module Tool.
Section methods.
Variable order : list string → list string.
Variable this : RedisMemoryTool.

(** Converts a memory path to a Redis key; the path must start with
    [/memories]. *)
Definition pathToKey (memoryPath : string) : error + string :=
  if negb (Js.startsWith memoryPath "/memories") then inl (InvalidPath memoryPath)
  else
    let normalized := Js.strip_last "/" (Js.squeeze_runs "/" false memoryPath) in
    inr (keyPrefix this +:+ ":" +:+ normalized).

(** Extracts the path from a Redis key. *)
Definition keyToPath (key : string) : string :=
  let prefixLen := (String.length (keyPrefix this) + 1)%nat in
  Js.slice_from prefixLen key.

(** Sets a key with optional TTL. *)
Definition setWithTtl (key val : string) : M unit :=
  match ttl_in_force this with
  | Some t => Redis.setex key t val
  | None => Redis.set key val
  end.

(** Refreshes TTL for a key if TTL is configured. *)
Definition refreshTtl (key : string) : M unit :=
  match ttl_in_force this with
  | Some t => Redis.expire key t
  | None => mret ()
  end.

(** Checks if a path is a file (as opposed to a directory). *)
Definition isFile (memoryPath : string) : M bool :=
  key ← lift (pathToKey memoryPath);
  n ← Redis.exists_ key;
  mret (n =? 1).

(** The loop of [view] that extracts the unique direct children; it is
    written twice in the source, for the root ([dirPrefix] is [rootPrefix],
    [parentPath] is [/memories]) and for any other directory. *)
Fixpoint collect_children (dirPrefix parentPath : string) (keys : list string)
    (children : list string) : M (list string) :=
  match keys with
  | [] => mret children
  | key :: keys' =>
      if Js.startsWith key dirPrefix then
        let relativePath := Js.slice_from (String.length dirPrefix) key in
        let firstSegment := hd EmptyString (Js.split relativePath "/") in
        match firstSegment with
        | EmptyString => collect_children dirPrefix parentPath keys' children
        | _ =>
            isFileCheck ← isFile (parentPath +:+ "/" +:+ firstSegment);
            collect_children dirPrefix parentPath keys'
              (set_add (if isFileCheck : bool then firstSegment else firstSegment +:+ "/")
                       children)
        end
      else collect_children dirPrefix parentPath keys' children
  end.

(** View a file or directory contents.  [view_range] is the optional array
    of the command; it is used when it has exactly two elements. *)
Definition view (memoryPath : string) (view_range : option (list Z)) : M string :=
  if String.eqb memoryPath "/memories" then
    let pattern := keyPrefix this +:+ ":/memories/*" in
    keys ← Redis.keys order pattern;
    match keys with
    | [] => mret ("Directory: /memories" +:+ LF +:+ "(empty)")
    | _ =>
        let rootPrefix := keyPrefix this +:+ ":/memories/" in
        children ← collect_children rootPrefix "/memories" keys [];
        let items := sort_strings children in
        mret ("Directory: /memories" +:+ LF +:+ bullet_list items)
    end
  else
    key ← lift (pathToKey memoryPath);
    content ← Redis.get key;
    match content with
    | Some content =>
        refreshTtl key;;
        let lines := Js.split content LF in
        let '(displayLines, startNum) :=
          match view_range with
          | Some [rangeStart; rangeEnd] =>
              let startLine := Z.max 1 rangeStart - 1 in
              let endLine := if rangeEnd =? -1 then Z.of_nat (length lines) else rangeEnd in
              (Js.array_slice lines startLine endLine, startLine + 1)
          | _ => (lines, 1)
          end in
        mret (Js.join (number_lines displayLines startNum) LF)
    | None =>
        let pattern := key +:+ "/*" in
        keys ← Redis.keys order pattern;
        match keys with
        | [] => throw (PathNotFound memoryPath)
        | _ =>
            let dirPrefix := key +:+ "/" in
            children ← collect_children dirPrefix memoryPath keys [];
            let items := sort_strings children in
            mret ("Directory: " +:+ memoryPath +:+ LF +:+ bullet_list items)
        end
    end.

(** Create a new file. *)
Definition create (memoryPath file_text : string) : M string :=
  key ← lift (pathToKey memoryPath);
  exists_ ← Redis.exists_ key;
  if negb (exists_ =? 0) then throw (FileAlreadyExists memoryPath)
  else
    setWithTtl key file_text;;
    mret ("File created successfully at " +:+ memoryPath).

(** Replace text in a file. *)
Definition str_replace (memoryPath old_str new_str : string) : M string :=
  key ← lift (pathToKey memoryPath);
  content ← Redis.get key;
  match content with
  | None => throw (FileNotFound memoryPath)
  | Some content =>
      let count := Z.of_nat (length (Js.split content old_str)) - 1 in
      if count =? 0 then throw (TextNotFound memoryPath)
      else if count >? 1 then throw (TextNotUnique count memoryPath)
      else
        let newContent := Js.replace content old_str new_str in
        setWithTtl key newContent;;
        mret ("File " +:+ memoryPath +:+ " has been edited")
  end.

(** Insert text at a specific line. *)
Definition insert (memoryPath : string) (insert_line : Z) (insert_text : string)
    : M string :=
  key ← lift (pathToKey memoryPath);
  content ← Redis.get key;
  match content with
  | None => throw (FileNotFound memoryPath)
  | Some content =>
      let lines := Js.split content LF in
      if (insert_line <? 0) || (insert_line >? Z.of_nat (length lines)) then
        throw (InvalidInsertLine insert_line (length lines))
      else
        let lines' :=
          Js.array_splice_insert lines insert_line (Js.strip_last "010" insert_text) in
        setWithTtl key (Js.join lines' LF);;
        mret ("Text inserted at line " +:+ Js.String_of insert_line +:+ " in "
              +:+ memoryPath)
  end.

(** Delete a file or directory. *)
Definition delete (memoryPath : string) : M string :=
  if String.eqb memoryPath "/memories" then throw CannotDeleteRoot
  else
    key ← lift (pathToKey memoryPath);
    isFile ← Redis.exists_ key;
    if negb (isFile =? 0) then
      Redis.del [key];;
      mret ("File deleted: " +:+ memoryPath)
    else
      let pattern := key +:+ "/*" in
      keys ← Redis.keys order pattern;
      match keys with
      | [] => throw (PathNotFound memoryPath)
      | _ =>
          Redis.del keys;;
          mret ("Directory deleted: " +:+ memoryPath)
      end.

(** Rename/move a file or directory. *)
Definition rename (oldPath newPath : string) : M string :=
  oldKey ← lift (pathToKey oldPath);
  newKey ← lift (pathToKey newPath);
  content ← Redis.get oldKey;
  match content with
  | Some content =>
      destExists ← Redis.exists_ newKey;
      if negb (destExists =? 0) then throw (DestinationExists newPath)
      else
        setWithTtl newKey content;;
        Redis.del [oldKey];;
        mret ("Renamed " +:+ oldPath +:+ " to " +:+ newPath)
  | None =>
      let pattern := oldKey +:+ "/*" in
      keys ← Redis.keys order pattern;
      match keys with
      | [] => throw (SourceNotFound oldPath)
      | _ =>
          for_of keys (λ key,
            let relativePath := Js.slice_from (String.length oldKey) key in
            let destKey := newKey +:+ relativePath in
            exists_ ← Redis.exists_ destKey;
            if negb (exists_ =? 0) then throw (DestinationExists (newPath +:+ relativePath))
            else mret ());;
          for_of keys (λ key,
            fileContent ← Redis.get key;
            match fileContent with
            | Some fileContent =>
                let relativePath := Js.slice_from (String.length oldKey) key in
                let destKey := newKey +:+ relativePath in
                setWithTtl destKey fileContent;;
                Redis.del [key];;
                mret ()
            | None => mret ()
            end);;
          mret ("Renamed " +:+ oldPath +:+ " to " +:+ newPath)
      end
  end.

(** Clear all memory for this agent context. *)
Definition clearAll : M unit :=
  let pattern := keyPrefix this +:+ ":/memories/*" in
  keys ← Redis.keys order pattern;
  match keys with
  | [] => mret ()
  | _ => Redis.del keys;; mret ()
  end.

(** Get all stored paths. *)
Definition getAllPaths : M (list string) :=
  let pattern := keyPrefix this +:+ ":/memories/*" in
  keys ← Redis.keys order pattern;
  mret (sort_strings (keyToPath <$> keys)).

End methods.
End Tool.

(** ** The classification of a path

    The source has no function of this name: [rename], [delete] and [view]
    each classify their target inline, by the same two probes (an entry at
    the exact key, else a scan of [key/*]).  [classify] names the decision
    as section 3 of the specification words it: a path is a directory when
    some key has it as a prefix followed by a separator.  The scan of the
    source finds these keys when the key holds no wildcard. *)

Inductive kind : Type := File | Directory | Absent.

#[global] Instance kind_eq_dec : EqDecision kind.
Proof. solve_decision. Defined.

(** The keys of the store that lie strictly below [key]: they begin with
    [key] and a separator. *)
Definition descendants (key : string) (s : store) : list string :=
  filter (λ k, Js.startsWith k (key +:+ "/") = true) (map_to_list s).*1.

Definition classify_key (key : string) (s : store) : kind :=
  match s !! key with
  | Some _ => File
  | None => match descendants key s with [] => Absent | _ => Directory end
  end.

Definition classify (this : RedisMemoryTool) (memoryPath : string) (s : store)
    : error + kind :=
  match Tool.pathToKey this memoryPath with
  | inl e => inl e
  | inr key => inr (classify_key key s)
  end.

(** ** What the specification says of the path normalization

    "Collapsing every run of repeated separators to one": a maximal run of
    one or more separators becomes a single separator, every other code unit
    is kept. *)

Inductive collapsed : string → string → Prop :=
  | collapsed_empty : collapsed "" ""
  | collapsed_other c r n :
      c ≠ "/"%char → collapsed r n → collapsed (String c r) (String c n)
  | collapsed_run k r n :
      Js.startsWith r "/" = false → collapsed r n →
      collapsed (Js.repeat_char "/" (S k) +:+ r) (String "/" n).

(** "Stripping one trailing [c]": [n] is [s] without its last code unit when
    that is [c], and [s] itself otherwise. *)
Definition stripped_last (c : ascii) (s n : string) : Prop :=
  s = n +:+ String c "" ∨ (n = s ∧ ∀ q, s ≠ q +:+ String c "").

(** "Stripping one trailing separator". *)
Definition stripped_one (c n : string) : Prop := stripped_last "/" c n.

Definition normalized_spec (path n : string) : Prop :=
  ∃ c, collapsed path c ∧ stripped_one c n.

(** ** Sample instances, used to evaluate the commands *)

(** [new RedisMemoryTool(redis)] *)
Definition default_tool : RedisMemoryTool :=
  constructor {| config_keyPrefix := None; config_ttl := None;
                 config_agentContext := None |}.

(** [new RedisMemoryTool(redis, { agentContext: "agent-1", ttl: 3600 })] *)
Definition ttl_tool : RedisMemoryTool :=
  constructor {| config_keyPrefix := None; config_ttl := Some 3600%N;
                 config_agentContext := Some "agent-1" |}.

(** A store that reports its keys in the order of its own enumeration. *)
Definition stored_order (l : list string) : list string := l.

(** The store after a command, and its outcome. *)
Definition store_after {A} (m : M A) (s : store) : store := (m s).2.
Definition outcome {A} (m : M A) (s : store) : error + A := (m s).1.

(** A namespace holding the single file [/memories/d/x]. *)
Definition one_file_store : store :=
  store_after (Tool.create default_tool "/memories/d/x" "1") ∅.

(** ** What the specification says of the rendering of a file *)

(** A string that holds no occurrence of [pat]. *)
Definition free_of (pat s : string) : Prop := ¬ ∃ a b, s = a +:+ pat +:+ b.

(** "The lines of [t]": the pieces between the newlines of [t]. *)
Definition lines_of (t : string) (lines : list string) : Prop :=
  lines ≠ [] ∧ Js.join lines LF = t ∧ Forall (free_of LF) lines.

(** "Its 1-based number right-padded to 4 columns, then [: ], then the line
    text", the filler written after the number. *)
Definition number_lines_right_padded (lines : list string) : list string :=
  Js.map_indexed
    (λ line i, Js.padEnd (Js.String_of (Z.of_nat i + 1)) 4 " " +:+ ": " +:+ line)
    O lines.

(** A namespace holding the single file [/memories/f] with the text
    [price: X]. *)
Definition price_store : store :=
  store_after (Tool.create default_tool "/memories/f" "price: X") ∅.

(** A namespace holding the single, empty file [/memories/e]. *)
Definition empty_file_store : store :=
  store_after (Tool.create default_tool "/memories/e" "") ∅.

(** ** What the specification says of a directory listing

    "Extracts the first path segment after the prefix for each match,
    classifies each child by an existence check at the exact child path,
    directories suffixed with the separator": [item] is listed for the
    directory of key [dir] when some entry lies at [dir/seg] or below it,
    [seg] being a non-empty segment, and [item] is [seg] if there is an
    entry at exactly [dir/seg] and [seg/] otherwise. *)

Definition is_segment (seg rest : string) : Prop :=
  seg ≠ "" ∧ free_of "/" seg ∧ (rest = "" ∨ ∃ r, rest = "/" +:+ r).

Definition child_item (dir : string) (s : store) (seg : string) : string :=
  if s !! (dir +:+ "/" +:+ seg) is Some _ then seg else seg +:+ "/".

Definition listed_child (dir : string) (s : store) (item : string) : Prop :=
  ∃ seg rest,
    is_segment seg rest ∧
    is_Some (s !! (dir +:+ "/" +:+ seg +:+ rest)) ∧
    item = child_item dir s seg.

(** The items a list of scanned keys contributes to the listing. *)
Definition contributes (dir : string) (s : store) (keys : list string)
    (item : string) : Prop :=
  ∃ seg rest,
    is_segment seg rest ∧ dir +:+ "/" +:+ seg +:+ rest ∈ keys ∧
    item = child_item dir s seg.

(** A namespace with a file, a directory, and a file that is a directory. *)
Definition sample_tree : store :=
  store_after (Tool.create default_tool "/memories/notes.txt" "n")
    (store_after (Tool.create default_tool "/memories/b/c" "c")
       (store_after (Tool.create default_tool "/memories/a" "a")
          (store_after (Tool.create default_tool "/memories/a/z" "z") ∅))).

(** A directory [/memories/src] with the children [a] and [b/c]. *)
Definition source_tree : store :=
  store_after (Tool.create default_tool "/memories/src/b/c" "2")
    (store_after (Tool.create default_tool "/memories/src/a" "1") ∅).

(** The same, with an entry at [/memories/dst/b/c]. *)
Definition conflict_tree : store :=
  store_after (Tool.create default_tool "/memories/dst/b/c" "3") source_tree.

(** ** Expirations *)

(** A step of the store that writes under the time-to-live [x] only: every
    entry found afterwards has the time-to-live [x], or was there before
    with the same text and the same time-to-live. *)
Definition writes_under (x : option N) (s s' : store) : Prop :=
  ∀ k e, s' !! k = Some e → expiry e = x ∨ s !! k = Some e.

(** A step of the store that sets no expiration. *)
Definition sets_no_expiry (s s' : store) : Prop := writes_under None s s'.

(** A directory stored without expiration, seen by a tool configured with a
    TTL. *)
Definition legacy_tree : store :=
  {[ "memory:agent-1:/memories/d/x" := Entry "1" None ]}.

(** [one_file_store] after [create] of [/memories/d]. *)
Definition file_and_directory : store :=
  store_after (Tool.create default_tool "/memories/d" "t") one_file_store.

(** The empty namespace after [create] of the root path itself. *)
Definition root_file : store :=
  store_after (Tool.create default_tool "/memories" "a") ∅.

(** A namespace holding the single file [/memories/f] with the text [a]. *)
Definition one_line_file : store :=
  store_after (Tool.create default_tool "/memories/f" "a") ∅.

(** ** Normalized paths *)

(** A string without two separators in a row ([in_run]: the code unit
    before it is a separator). *)
Fixpoint squeezed (in_run : bool) (s : string) : bool :=
  match s with
  | EmptyString => true
  | String a s' =>
      if Ascii.eqb a "/" then negb in_run && squeezed true s'
      else squeezed false s'
  end.

(** Whether a scan of [s] ends on a separator ([in_run]: it starts after
    one). *)
Fixpoint ends_in_run (in_run : bool) (s : string) : bool :=
  match s with
  | EmptyString => in_run
  | String a s' => ends_in_run (Ascii.eqb a "/") s'
  end.

(** A file stored without expiration, seen by a tool configured with a TTL. *)
Definition legacy_file : store :=
  {[ "memory:agent-1:/memories/f" := Entry "a" None ]}.

(** ** The namespace of a tool *)

(** The keys of a tool begin with its key prefix followed by [:/memories]. *)
Definition in_namespace (this : RedisMemoryTool) (key : string) : bool :=
  Js.startsWith key (keyPrefix this +:+ ":/memories").

(** A step of the store that leaves every key outside the namespace of a
    tool as it was. *)
Definition same_outside (this : RedisMemoryTool) (s s' : store) : Prop :=
  ∀ k, in_namespace this k = false → s' !! k = s !! k.

(** A store shared by two tenants: the default tool and a tool with the
    key prefix [other]. *)
Definition two_tenants : store :=
  <[ "other:/memories/x" := Entry "theirs" None ]>
    (store_after (Tool.create default_tool "/memories/a" "ours") ∅).

(** A namespace with a file under the root, a file at the key of the root
    itself, and a file at a path that begins with [/memories] without lying
    under the root; all three were accepted by [create]. *)
Definition hidden_files : store :=
  store_after (Tool.create default_tool "/memories-old/b" "old")
    (store_after (Tool.create default_tool "/memories" "root")
       (store_after (Tool.create default_tool "/memories/a" "a") ∅)).

(** A namespace holding the single file [/memories/f] of five lines. *)
Definition five_lines : store :=
  store_after
    (Tool.create default_tool "/memories/f"
       ("a" +:+ LF +:+ "b" +:+ LF +:+ "c" +:+ LF +:+ "d" +:+ LF +:+ "e")) ∅.

(** ** Keys and prefixes with wildcards *)

(** [new RedisMemoryTool(redis, { agentContext: "user[1]" })] *)
Definition bracket_tool : RedisMemoryTool :=
  constructor {| config_keyPrefix := None; config_ttl := None;
                 config_agentContext := Some "user[1]" |}.

(** Its namespace after [create] of [/memories/a]. *)
Definition bracket_file : store :=
  store_after (Tool.create bracket_tool "/memories/a" "1") ∅.

(** [new RedisMemoryTool(redis, { keyPrefix: "m*" })] *)
Definition star_tool : RedisMemoryTool :=
  constructor {| config_keyPrefix := Some "m*"; config_ttl := None;
                 config_agentContext := None |}.

(** The namespace of the default tool holding the single file
    [/memories/[ab]/x]. *)
Definition bracket_tree : store :=
  store_after (Tool.create default_tool "/memories/[ab]/x" "1") ∅.

(** The same, with the file [/memories/a/y]. *)
Definition bracket_siblings : store :=
  store_after (Tool.create default_tool "/memories/a/y" "2") bracket_tree.

(** ** What the specification says of a unique occurrence *)

(** [pat] occurs in [s] at position [j]. *)
Definition occurs_at (pat s : string) (j : nat) : Prop :=
  ∃ a b, s = a +:+ pat +:+ b ∧ String.length a = j.

(** The first occurrence of [pat] in [s] lies between [before] and
    [after]. *)
Definition first_occurrence (pat s before after : string) : Prop :=
  s = before +:+ pat +:+ after ∧
  ∀ j, (j < String.length before)%nat → ¬ occurs_at pat s j.

(** The occurrences of [pat] in [s] counted from left to right, each one
    sought after the end of the one before it. *)
Inductive occurrences (pat : string) : string → nat → Prop :=
  | occurrences_none s : free_of pat s → occurrences pat s 0
  | occurrences_next s before after n :
      first_occurrence pat s before after →
      occurrences pat after n →
      occurrences pat s (S n).

(** A namespace holding the single file [/memories/f] with the text
    [aaa], and one with the text [abababa]. *)
Definition aaa_file : store :=
  store_after (Tool.create default_tool "/memories/f" "aaa") ∅.

Definition abababa_file : store :=
  store_after (Tool.create default_tool "/memories/f" "abababa") ∅.

(** * Properties *)

(** ** The built-ins on small inputs *)

Example split_lines :
  Js.split ("a" +:+ LF +:+ "b" +:+ LF) LF = ["a"; "b"; ""].
Proof. reflexivity. Qed.

Example split_empty_text : Js.split "" LF = [""].
Proof. reflexivity. Qed.

Example split_by_empty : Js.split "abc" "" = ["a"; "b"; "c"].
Proof. reflexivity. Qed.

Example split_non_overlapping : Js.split "aaa" "aa" = [""; "a"].
Proof. reflexivity. Qed.

Example replace_first_only : Js.replace "a-b-a" "a" "X" = "X-b-a".
Proof. reflexivity. Qed.

Example replace_matched_text : Js.replace "hello" "ell" "[$&]" = "h[ell]o".
Proof. reflexivity. Qed.

Example squeeze_slashes :
  Js.squeeze_runs "/" false "/memories//a///b/" = "/memories/a/b/".
Proof. reflexivity. Qed.

Example padStart_number : Js.padStart (Js.String_of 12) 4 " " = "  12".
Proof. reflexivity. Qed.

Example padStart_wide : Js.padStart (Js.String_of 12345) 4 " " = "12345".
Proof. reflexivity. Qed.

Example array_slice_negative_end : Js.array_slice [1; 2; 3; 4] 1 (-1) = [2; 3].
Proof. reflexivity. Qed.

Example pathToKey_normalizes :
  Tool.pathToKey ttl_tool "/memories//projects/todo.md/" =
    inr "memory:agent-1:/memories/projects/todo.md".
Proof. reflexivity. Qed.

Example pathToKey_rejects :
  Tool.pathToKey default_tool "/tmp/x" = inl (InvalidPath "/tmp/x").
Proof. reflexivity. Qed.

(** ** Strings: basic facts *)

#[local] Arguments Ascii.eqb : simpl never.

Lemma app_cons a (s t : string) : String a s +:+ t = String a (s +:+ t).
Proof. reflexivity. Qed.

Lemma app_empty_l (s : string) : "" +:+ s = s.
Proof. reflexivity. Qed.

Lemma app_empty_r (s : string) : s +:+ "" = s.
Proof. induction s as [|a s IH]; [done|]. by rewrite app_cons, IH. Qed.

Lemma app_assoc_str (s t u : string) : (s +:+ t) +:+ u = s +:+ t +:+ u.
Proof. induction s as [|a s IH]; [done|]. by rewrite !app_cons, IH. Qed.

Lemma length_app_str (s t : string) :
  String.length (s +:+ t) = (String.length s + String.length t)%nat.
Proof. induction s as [|a s IH]; [done|]. rewrite app_cons. simpl. by rewrite IH. Qed.

Lemma startsWith_spec (s pre : string) :
  Js.startsWith s pre = true ↔ ∃ r, s = pre +:+ r.
Proof.
  revert s. induction pre as [|a pre IH]; intros s; simpl.
  - split; [by exists s|done].
  - destruct s as [|b s].
    + split; [done|]. intros [r Hr]. by rewrite app_cons in Hr.
    + rewrite andb_true_iff, Ascii.eqb_eq, IH. split.
      * intros [-> [r ->]]. by exists r.
      * intros [r Hr]. rewrite app_cons in Hr. injection Hr as -> ->. eauto.
Qed.

Lemma startsWith_app (pre r : string) : Js.startsWith (pre +:+ r) pre = true.
Proof. apply startsWith_spec. eauto. Qed.

Lemma slice_from_app (pre r : string) :
  Js.slice_from (String.length pre) (pre +:+ r) = r.
Proof.
  induction pre as [|a pre IH]; [rewrite app_empty_l; by destruct r|].
  by rewrite app_cons.
Qed.

Lemma slice_to_app (pre r : string) :
  Js.slice_to (String.length pre) (pre +:+ r) = pre.
Proof.
  induction pre as [|a pre IH]; [rewrite app_empty_l; by destruct r|].
  rewrite app_cons. simpl. by rewrite IH.
Qed.

(** ** [pathToKey] *)

Lemma repeat_S_app c k (r : string) :
  Js.repeat_char c (S k) +:+ r = String c (Js.repeat_char c k +:+ r).
Proof. reflexivity. Qed.

Lemma squeeze_in_run (r : string) :
  Js.startsWith r "/" = false →
  Js.squeeze_runs "/" true r = Js.squeeze_runs "/" false r.
Proof.
  destruct r as [|a r]; [done|]. simpl.
  destruct (Ascii.eqb_spec "/" a) as [<-|Hne]; [done|].
  intros _. destruct (Ascii.eqb_spec a "/") as [->|]; done.
Qed.

Lemma squeeze_run_true k (r : string) :
  Js.startsWith r "/" = false →
  Js.squeeze_runs "/" true (Js.repeat_char "/" k +:+ r) = Js.squeeze_runs "/" false r.
Proof.
  intros Hr. induction k as [|k IH]; simpl.
  - rewrite app_empty_l. by apply squeeze_in_run.
  - rewrite ?app_cons. simpl. apply IH.
Qed.

(** Every string is empty, starts with another code unit than the separator,
    or starts with a maximal run of separators. *)
Lemma run_decomposition (s : string) :
  s = "" ∨ (∃ c r, c ≠ "/"%char ∧ s = String c r)
  ∨ (∃ k r, Js.startsWith r "/" = false ∧ s = Js.repeat_char "/" (S k) +:+ r).
Proof.
  induction s as [|a s IH]; [by left|]. right.
  destruct (decide (a = "/"%char)) as [->|Hne]; [|left; eauto].
  right. destruct IH as [->|[(c & r & Hc & ->)|(k & r & Hr & ->)]].
  - exists O, "". done.
  - exists O, (String c r). split; [|done]. simpl.
    destruct (Ascii.eqb_spec "/" c) as [<-|]; done.
  - exists (S k), r. done.
Qed.

Lemma squeeze_collapsed (path : string) :
  collapsed path (Js.squeeze_runs "/" false path).
Proof.
  remember (String.length path) as n eqn:Hn.
  revert path Hn. induction (lt_wf n) as [n _ IH]. intros path ->.
  destruct (run_decomposition path) as [->|[(c & r & Hc & ->)|(k & r & Hr & ->)]].
  - constructor.
  - simpl. destruct (Ascii.eqb_spec c "/") as [->|_]; [done|].
    constructor; [done|]. eapply IH; [|done]. simpl. lia.
  - change (Js.repeat_char "/" (S k) +:+ r)
      with (String "/" (Js.repeat_char "/" k +:+ r)) at 2.
    simpl Js.squeeze_runs. rewrite squeeze_run_true by done.
    constructor; [done|]. eapply IH; [|done].
    rewrite length_app_str. simpl. lia.
Qed.

Lemma repeat_run_inj k1 k2 (r1 r2 : string) :
  Js.startsWith r1 "/" = false → Js.startsWith r2 "/" = false →
  Js.repeat_char "/" k1 +:+ r1 = Js.repeat_char "/" k2 +:+ r2 → r1 = r2.
Proof.
  revert k2. induction k1 as [|k1 IH]; intros [|k2] H1 H2; simpl;
    rewrite ?app_cons, ?app_empty_l; intros Heq.
  - done.
  - subst r1. simpl in H1. by rewrite ?Ascii.eqb_refl in H1.
  - subst r2. simpl in H2. by rewrite ?Ascii.eqb_refl in H2.
  - injection Heq as Heq. eauto.
Qed.

(** The specification's relation determines the collapsed path. *)
Lemma collapsed_functional (path n1 n2 : string) :
  collapsed path n1 → collapsed path n2 → n1 = n2.
Proof.
  intros H1. revert n2. induction H1 as [|c r n Hc _ IH|k r n Hr _ IH]; intros n2 H2.
  - remember "" as p eqn:Hp.
    destruct H2 as [|c' r' n' Hc' H'|k' r' n' Hr' H']; [done|done|].
    by rewrite repeat_S_app in Hp.
  - remember (String c r) as p eqn:Hp.
    destruct H2 as [|c' r' n' Hc' H'|k' r' n' Hr' H']; [done| |].
    + injection Hp as -> ->. f_equal. by apply IH.
    + rewrite repeat_S_app in Hp. congruence.
  - remember (Js.repeat_char "/" (S k) +:+ r) as p eqn:Hp.
    destruct H2 as [|c' r' n' Hc' H'|k' r' n' Hr' H'].
    + by rewrite repeat_S_app in Hp.
    + rewrite repeat_S_app in Hp. congruence.
    + f_equal. apply IH.
      by rewrite (repeat_run_inj (S k) (S k') r r' Hr Hr' (eq_sym Hp)).
Qed.

Lemma strip_last_snoc c (q : string) :
  Js.strip_last c (q +:+ String c "") = q.
Proof.
  induction q as [|a q IH]; simpl.
  - rewrite ?app_empty_l. simpl. by rewrite ?Ascii.eqb_refl.
  - rewrite ?app_cons. simpl. rewrite IH.
    destruct (q +:+ String c "") eqn:Hq; [|done].
    destruct q; discriminate.
Qed.

Lemma strip_last_other c (s : string) :
  (∀ q, s ≠ q +:+ String c "") → Js.strip_last c s = s.
Proof.
  induction s as [|a s IH]; [done|]. intros Hs. simpl.
  destruct s as [|b s].
  - destruct (Ascii.eqb_spec a c) as [->|]; [|done]. by destruct (Hs "").
  - f_equal. apply IH. intros q Hq. apply (Hs (String a q)).
    by rewrite app_cons, Hq.
Qed.

Lemma ends_with_dec c (s : string) :
  (∃ q, s = q +:+ String c "") ∨ (∀ q, s ≠ q +:+ String c "").
Proof.
  induction s as [|a s IH].
  - right. intros [|??]; discriminate.
  - destruct IH as [[q ->]|Hno].
    + left. by exists (String a q).
    + destruct s as [|b s].
      * destruct (decide (a = c)) as [->|Hne]; [left; by exists ""|].
        right. intros [|a' q]; rewrite ?app_cons, ?app_empty_l; [congruence|].
        destruct q; discriminate.
      * right. intros [|a' q]; rewrite ?app_cons, ?app_empty_l; [discriminate|].
        intros [= -> Hq]. by apply (Hno q).
Qed.

Lemma strip_last_stripped c (s : string) : stripped_last c s (Js.strip_last c s).
Proof.
  destruct (ends_with_dec c s) as [[q ->]|Hno].
  - left. by rewrite strip_last_snoc.
  - right. split; [by apply strip_last_other|done].
Qed.

Lemma stripped_last_functional c (s n1 n2 : string) :
  stripped_last c s n1 → stripped_last c s n2 → n1 = n2.
Proof.
  intros [->|[-> H1]] [H2|[-> H2']]; try done.
  - revert n2 H2. induction n1 as [|a n1 IH]; intros [|b n2];
      rewrite ?app_cons, ?app_empty_l; intros [=]; subst; try done.
    + by destruct n2.
    + by destruct n1.
    + f_equal. by apply IH.
  - by destruct (H2' n1).
  - by destruct (H1 n2).
Qed.

Lemma normalized_spec_functional (path n1 n2 : string) :
  normalized_spec path n1 → normalized_spec path n2 → n1 = n2.
Proof.
  intros (c1 & Hc1 & Hs1) (c2 & Hc2 & Hs2).
  rewrite (collapsed_functional _ _ _ Hc1 Hc2) in Hs1.
  by eapply stripped_last_functional.
Qed.

(** C4. [pathToKey] fails, with the invalid-path error, exactly on the paths
    that do not begin with [/memories]; on every other path its key is the
    key prefix, a colon, and the path with every run of separators collapsed
    to one and one trailing separator stripped. *)
Theorem pathToKey_spec (this : RedisMemoryTool) (path : string) :
  match Tool.pathToKey this path with
  | inl e => e = InvalidPath path ∧ ¬ ∃ r, path = "/memories" +:+ r
  | inr key =>
      (∃ r, path = "/memories" +:+ r) ∧
      ∃ n, normalized_spec path n ∧ key = keyPrefix this +:+ ":" +:+ n
  end.
Proof.
  unfold Tool.pathToKey.
  destruct (Js.startsWith path "/memories") eqn:Hstart; simpl.
  - split; [by apply startsWith_spec|].
    eexists. split; [|done].
    eexists. split; [apply squeeze_collapsed|apply strip_last_stripped].
  - split; [done|]. rewrite <-startsWith_spec. congruence.
Qed.

(** ** The store: scans and single steps *)

Lemma stored_order_perm (l : list string) : stored_order l ≡ₚ l.
Proof. reflexivity. Qed.

(** ** Patterns *)

Example stringmatch_wildcards :
  Redis.stringmatch "h*llo" "heeello" = true ∧
  Redis.stringmatch "h?llo" "hallo" = true ∧
  Redis.stringmatch "h?llo" "hllo" = false ∧
  Redis.stringmatch "a*b*c" "aXbYc" = true ∧
  Redis.stringmatch "a*b*c" "aXbY" = false.
Proof. repeat split; reflexivity. Qed.

Example stringmatch_classes :
  Redis.stringmatch "h[ae]llo" "hallo" = true ∧
  Redis.stringmatch "h[ae]llo" "hillo" = false ∧
  Redis.stringmatch "h[^e]llo" "hallo" = true ∧
  Redis.stringmatch "h[^e]llo" "hello" = false ∧
  Redis.stringmatch "h[a-c]llo" "hbllo" = true ∧
  Redis.stringmatch "h[a-c]llo" "hdllo" = false.
Proof. repeat split; reflexivity. Qed.

Example stringmatch_escape :
  Redis.stringmatch "a\*b" "a*b" = true ∧ Redis.stringmatch "a\*b" "axb" = false.
Proof. split; reflexivity. Qed.

(** The scans of the tool: a key below [/memories/[ab]] does not match the
    pattern made of its own directory, a key below [/memories/a] does; a
    key equal to the text before the final wildcard matches. *)
Example stringmatch_scans :
  Redis.stringmatch "memory:/memories/[ab]/*" "memory:/memories/[ab]/x" = false ∧
  Redis.stringmatch "memory:/memories/[ab]/*" "memory:/memories/a/y" = true ∧
  Redis.stringmatch "memory:/memories/s*/*" "memory:/memories/src/a" = true ∧
  Redis.stringmatch "m*:/memories/*" "memory:/memories/a" = true ∧
  Redis.stringmatch "memory:/memories/*" "memory:/memories/" = true ∧
  Redis.stringmatch "memory:/memories/*" "memory:/memories" = false.
Proof. repeat split; reflexivity. Qed.

(** ** Patterns without wildcards *)

Lemma glob_free_app (a b : string) :
  glob_free (a +:+ b) = glob_free a && glob_free b.
Proof.
  induction a as [|c a IH]; [by rewrite app_empty_l|].
  rewrite app_cons. simpl. rewrite IH. by rewrite andb_assoc.
Qed.

Lemma glob_free_cons c (s : string) :
  glob_free (String c s) = true → glob_char c = false ∧ glob_free s = true.
Proof. simpl. rewrite andb_true_iff, negb_true_iff. done. Qed.

(** One step of the matcher on a code unit that is not a wildcard. *)
Lemma stringmatch_cons_literal a (rest : string) c (s : string) :
  glob_char a = false →
  Redis.stringmatch (String a rest) (String c s) =
    if Ascii.eqb a c then Redis.resume (Redis.stringmatch rest) rest s else false.
Proof.
  unfold glob_char. rewrite !orb_false_iff. intros [[[H1 H2] H3] H4].
  simpl. by rewrite H1, H2, H3, H4.
Qed.

Lemma skip_stars_literal (lit rest : string) :
  glob_free lit = true → lit ≠ "" →
  Redis.skip_stars (lit +:+ rest) = lit +:+ rest.
Proof.
  destruct lit as [|a lit]; [done|]. intros [Ha _]%glob_free_cons _.
  rewrite app_cons. simpl. unfold glob_char in Ha.
  rewrite !orb_false_iff in Ha. destruct Ha as [[[-> _] _] _]. done.
Qed.

(** A pattern that begins with literal text matches only keys that begin
    with that text. *)
Lemma stringmatch_head (lit rest k : string) :
  glob_free lit = true →
  Redis.stringmatch (lit +:+ rest) k = true → Js.startsWith k lit = true.
Proof.
  revert k. induction lit as [|a lit IH]; intros k Hfree; [done|].
  apply glob_free_cons in Hfree as [Ha Hfree]. rewrite app_cons.
  destruct k as [|c k]; [done|]. rewrite stringmatch_cons_literal by done.
  change (Js.startsWith (String c k) (String a lit))
    with (Ascii.eqb a c && Js.startsWith k lit).
  destruct (Ascii.eqb a c); [|done]. rewrite andb_true_l.
  unfold Redis.resume. destruct k as [|d k]; [|by apply IH].
  destruct lit as [|b lit]; [done|].
  rewrite skip_stars_literal by done. by rewrite app_cons.
Qed.

(** Literal text closed by the wildcard is a prefix scan. *)
Lemma stringmatch_prefix (lit k : string) :
  glob_free lit = true → lit ≠ "" →
  Redis.stringmatch (lit +:+ "*") k = Js.startsWith k lit.
Proof.
  revert k. induction lit as [|a lit IH]; intros k Hfree Hne; [done|].
  apply glob_free_cons in Hfree as [Ha Hfree]. rewrite app_cons.
  destruct k as [|c k]; [done|]. rewrite stringmatch_cons_literal by done.
  change (Js.startsWith (String c k) (String a lit))
    with (Ascii.eqb a c && Js.startsWith k lit).
  destruct (Ascii.eqb a c); [|done]. rewrite andb_true_l.
  unfold Redis.resume. destruct lit as [|b lit].
  - rewrite app_empty_l. destruct k; reflexivity.
  - destruct k as [|d k]; [|by apply IH].
    rewrite skip_stars_literal by done. by rewrite app_cons.
Qed.

Lemma scan_prefix (key k : string) :
  Js.startsWith k (key +:+ "/") = true ↔ ∃ r, k = key +:+ "/" +:+ r.
Proof. rewrite startsWith_spec. by setoid_rewrite app_assoc_str. Qed.

Lemma elem_of_matching (pattern : string) (s : store) (k : string) :
  k ∈ Redis.matching pattern s ↔
  is_Some (s !! k) ∧ Redis.stringmatch pattern k = true.
Proof.
  unfold Redis.matching. rewrite list_elem_of_filter, list_elem_of_fmap. split.
  - intros [Hm ([k' e] & -> & Hin)]. apply elem_of_map_to_list in Hin. eauto.
  - intros [[e He] Hm]. split; [done|]. exists (k, e). split; [done|].
    by apply elem_of_map_to_list.
Qed.

Lemma NoDup_matching (pattern : string) (s : store) :
  NoDup (Redis.matching pattern s).
Proof. apply NoDup_filter, NoDup_fst_map_to_list. Qed.

(** On a key without wildcards, the scan of [key/*] finds the keys below
    [key]. *)
Lemma matching_descendants (key : string) (s : store) :
  glob_free key = true → Redis.matching (key +:+ "/*") s = descendants key s.
Proof.
  intros Hfree. unfold Redis.matching, descendants.
  apply list_filter_iff. intros k.
  replace (key +:+ "/*") with ((key +:+ "/") +:+ "*")
    by (by rewrite app_assoc_str).
  rewrite stringmatch_prefix; [done| |by destruct key].
  by rewrite glob_free_app, Hfree.
Qed.

(** Every key a scan reports begins with the literal text the pattern
    begins with. *)
Lemma matching_head (lit rest : string) (s : store) (k : string) :
  glob_free lit = true →
  k ∈ Redis.matching (lit +:+ rest) s → Js.startsWith k lit = true.
Proof. intros Hfree [_ Hm]%elem_of_matching. by eapply stringmatch_head. Qed.

Lemma elem_of_descendants (key : string) (s : store) (k : string) :
  k ∈ descendants key s ↔ is_Some (s !! k) ∧ ∃ r, k = key +:+ "/" +:+ r.
Proof.
  unfold descendants. rewrite list_elem_of_filter, scan_prefix.
  rewrite list_elem_of_fmap. split.
  - intros [Hr ([k' e] & -> & Hin)]. apply elem_of_map_to_list in Hin. eauto.
  - intros [[e He] Hr]. split; [done|]. exists (k, e). split; [done|].
    by apply elem_of_map_to_list.
Qed.

Lemma NoDup_descendants (key : string) (s : store) : NoDup (descendants key s).
Proof. apply NoDup_filter, NoDup_fst_map_to_list. Qed.

Lemma descendants_nil (key : string) (s : store) :
  descendants key s = [] ↔ ∀ r, s !! (key +:+ "/" +:+ r) = None.
Proof.
  split.
  - intros Hnil r. destruct (s !! _) eqn:Hk; [|done].
    assert (key +:+ "/" +:+ r ∈ descendants key s) as Hin
      by (apply elem_of_descendants; eauto).
    rewrite Hnil in Hin. by apply not_elem_of_nil in Hin.
  - intros Hnone. destruct (descendants key s) as [|k l] eqn:Hd; [done|].
    assert (k ∈ descendants key s) as Hin by (rewrite Hd; left).
    apply elem_of_descendants in Hin as [[e He] [r ->]]. by rewrite Hnone in He.
Qed.

Lemma classify_key_File (key : string) (s : store) :
  classify_key key s = File ↔ is_Some (s !! key).
Proof.
  unfold classify_key. destruct (s !! key); [by split; eauto|].
  split; [by destruct (descendants key s)|by intros [? ?]].
Qed.

Lemma setWithTtl_run this (key val : string) (s : store) :
  Tool.setWithTtl this key val s = (inr (), <[key := Entry val (ttl_in_force this)]> s).
Proof. unfold Tool.setWithTtl. by destruct (ttl_in_force this). Qed.

Lemma refreshTtl_run this (key : string) (s : store) :
  Tool.refreshTtl this key s =
    (inr (), match ttl_in_force this with
             | Some t => alter (λ e, Entry (value e) (Some t)) key s
             | None => s
             end).
Proof. unfold Tool.refreshTtl. by destruct (ttl_in_force this). Qed.

(** ** [create] *)

Lemma create_run this (memoryPath file_text key : string) (s : store) :
  Tool.pathToKey this memoryPath = inr key →
  Tool.create this memoryPath file_text s =
    match s !! key with
    | Some _ => (inl (FileAlreadyExists memoryPath), s)
    | None =>
        (inr ("File created successfully at " +:+ memoryPath),
         <[key := Entry file_text (ttl_in_force this)]> s)
    end.
Proof.
  intros Hkey. unfold Tool.create, mbind, M_bind, lift, Redis.exists_. rewrite Hkey.
  destruct (s !! key); simpl; [done|]. by rewrite setWithTtl_run.
Qed.

Lemma create_invalid_path this (memoryPath file_text : string) e (s : store) :
  Tool.pathToKey this memoryPath = inl e →
  Tool.create this memoryPath file_text s = (inl e, s).
Proof. intros Hkey. unfold Tool.create, mbind, M_bind, lift. by rewrite Hkey. Qed.

(** ** [delete] *)

Lemma delete_root order this (s : store) :
  Tool.delete order this "/memories" s = (inl CannotDeleteRoot, s).
Proof. reflexivity. Qed.

Lemma delete_run order this (memoryPath key : string) (s : store) :
  memoryPath ≠ "/memories" →
  Tool.pathToKey this memoryPath = inr key →
  Tool.delete order this memoryPath s =
    match s !! key with
    | Some _ => (inr ("File deleted: " +:+ memoryPath), delete key s)
    | None =>
        match order (Redis.matching (key +:+ "/*") s) with
        | [] => (inl (PathNotFound memoryPath), s)
        | keys => (inr ("Directory deleted: " +:+ memoryPath), foldr delete s keys)
        end
    end.
Proof.
  intros Hroot Hkey. unfold Tool.delete.
  destruct (String.eqb_spec memoryPath "/memories") as [|_]; [done|].
  unfold mbind, M_bind, lift, Redis.exists_, Redis.keys, Redis.del. rewrite Hkey.
  destruct (s !! key); simpl; [done|].
  by destruct (order (Redis.matching (key +:+ "/*") s)).
Qed.

Lemma key_not_descendant (key r : string) : key ≠ key +:+ "/" +:+ r.
Proof.
  intros Heq. apply (f_equal String.length) in Heq.
  rewrite !length_app_str in Heq. simpl in Heq. lia.
Qed.

Lemma descendants_insert_self (key : string) e (s : store) (k : string) :
  k ∈ descendants key (<[key := e]> s) ↔ k ∈ descendants key s.
Proof.
  rewrite !elem_of_descendants. split; intros [Hk [r ->]]; (split; [|eauto]).
  - by rewrite lookup_insert_ne in Hk by apply key_not_descendant.
  - by rewrite lookup_insert_ne by apply key_not_descendant.
Qed.

Lemma classify_Directory this (memoryPath key : string) (s : store) :
  Tool.pathToKey this memoryPath = inr key →
  classify this memoryPath s = inr Directory ↔
  s !! key = None ∧ descendants key s ≠ [].
Proof.
  intros Hkey. unfold classify, classify_key. rewrite Hkey.
  destruct (s !! key); [by split; [|intros [? ?]]|].
  destruct (descendants key s); split; try done; by intros [_ ?].
Qed.

(** C10. [create] on a path that is a directory (descendant entries, no
    entry at its own key) succeeds and stores the text at the path's exact
    key; the descendants stay, so the path is then a file and still has
    entries below it. *)
Theorem create_on_directory this (memoryPath file_text key : string) (s : store) :
  Tool.pathToKey this memoryPath = inr key →
  classify this memoryPath s = inr Directory →
  ∃ s',
    Tool.create this memoryPath file_text s =
      (inr ("File created successfully at " +:+ memoryPath), s') ∧
    value <$> s' !! key = Some file_text ∧
    (∀ k, k ≠ key → s' !! k = s !! k) ∧
    classify this memoryPath s' = inr File ∧
    descendants key s' ≠ [] ∧
    (∀ k, k ∈ descendants key s' ↔ k ∈ descendants key s).
Proof.
  intros Hkey Hdir.
  apply (classify_Directory _ _ _ _ Hkey) in Hdir as [Hnone Hdesc].
  eexists. rewrite (create_run _ _ _ _ _ Hkey), Hnone.
  split; [done|]. split; [by rewrite lookup_insert_eq|].
  split; [by intros k Hk; rewrite lookup_insert_ne|].
  split; [unfold classify, classify_key; by rewrite Hkey, lookup_insert_eq|].
  split; [|apply descendants_insert_self].
  destruct (descendants key s) as [|k l] eqn:Hd; [done|].
  intros Hnil. assert (k ∈ descendants key s) as Hin by (rewrite Hd; left).
  apply (descendants_insert_self key (Entry file_text (ttl_in_force this))) in Hin.
  rewrite Hnil in Hin. by apply not_elem_of_nil in Hin.
Qed.

(** The state of C10 is reached from the empty namespace by two [create]s. *)
Lemma create_on_directory_witness :
  Tool.pathToKey default_tool "/memories/d" = inr "memory:/memories/d" ∧
  classify default_tool "/memories/d" one_file_store = inr Directory ∧
  ∃ s',
    Tool.create default_tool "/memories/d" "t" one_file_store =
      (inr "File created successfully at /memories/d", s') ∧
    value <$> s' !! "memory:/memories/d" = Some "t" ∧
    (∀ k, k ≠ "memory:/memories/d" → s' !! k = one_file_store !! k) ∧
    classify default_tool "/memories/d" s' = inr File ∧
    descendants "memory:/memories/d" s' ≠ [] ∧
    (∀ k, k ∈ descendants "memory:/memories/d" s' ↔
          k ∈ descendants "memory:/memories/d" one_file_store).
Proof.
  split; [reflexivity|]. split; [vm_compute; reflexivity|].
  apply (create_on_directory default_tool "/memories/d" "t" "memory:/memories/d"
           one_file_store); vm_compute; reflexivity.
Defined.

(** C5, as the code has it.  [create] fails, with the already-exists error
    and without touching the store, exactly when an entry exists at the
    encoded key of the path, whatever lies below it.  After a successful
    [create] the path classifies as [File]; a following [delete] of the
    path succeeds unless the path is the literal [/memories], and gives back
    the store from before the [create]: the path then classifies as it did
    before, [Absent] when it had no descendant entries and [Directory] when
    it had some. *)
Theorem create_then_delete order this (memoryPath file_text key : string) (s : store) :
  Tool.pathToKey this memoryPath = inr key →
  (is_Some (s !! key) ↔
     outcome (Tool.create this memoryPath file_text) s
       = inl (FileAlreadyExists memoryPath)) ∧
  (is_Some (s !! key) → store_after (Tool.create this memoryPath file_text) s = s) ∧
  (s !! key = None →
     ∃ s1,
       Tool.create this memoryPath file_text s =
         (inr ("File created successfully at " +:+ memoryPath), s1) ∧
       value <$> s1 !! key = Some file_text ∧
       classify this memoryPath s1 = inr File ∧
       (memoryPath ≠ "/memories" →
          Tool.delete order this memoryPath s1 =
            (inr ("File deleted: " +:+ memoryPath), s) ∧
          classify this memoryPath s =
            inr (match descendants key s with [] => Absent | _ => Directory end))).
Proof.
  intros Hkey. unfold outcome, store_after.
  rewrite (create_run _ _ _ _ _ Hkey).
  split; [|split].
  - destruct (s !! key); simpl; [by split; eauto|].
    split; [by intros [? ?]|done].
  - by intros [e ->].
  - intros Hnone. rewrite Hnone. eexists. split; [done|].
    split; [by rewrite lookup_insert_eq|].
    split; [unfold classify, classify_key; by rewrite Hkey, lookup_insert_eq|].
    intros Hroot. rewrite (delete_run _ _ _ _ _ Hroot Hkey), lookup_insert_eq.
    rewrite delete_insert_id by done.
    split; [done|]. unfold classify, classify_key. by rewrite Hkey, Hnone.
Qed.

Lemma create_then_delete_witness :
  let s1 := store_after (Tool.create default_tool "/memories/notes.txt" "a") ∅ in
  Tool.create default_tool "/memories/notes.txt" "a" ∅ =
    (inr "File created successfully at /memories/notes.txt", s1) ∧
  classify default_tool "/memories/notes.txt" s1 = inr File ∧
  Tool.delete stored_order default_tool "/memories/notes.txt" s1 =
    (inr "File deleted: /memories/notes.txt", ∅) ∧
  classify default_tool "/memories/notes.txt" ∅ = inr Absent.
Proof.
  destruct (create_then_delete stored_order default_tool "/memories/notes.txt" "a"
              "memory:/memories/notes.txt" ∅ eq_refl) as (_ & _ & H).
  destruct (H eq_refl) as (s1 & Hc & _ & Hf & Hd).
  destruct Hd as [Hd Ha]; [discriminate|].
  cbv zeta. unfold store_after. rewrite Hc. simpl. repeat split; assumption.
Defined.

(** C5 as stated fails on a path with descendant entries: after [create]
    and [delete] of [/memories/d] the path is a directory, not absent. *)
Lemma create_then_delete_not_absent :
  Tool.create default_tool "/memories/d" "t" one_file_store =
    (inr "File created successfully at /memories/d", file_and_directory) ∧
  Tool.delete stored_order default_tool "/memories/d" file_and_directory =
    (inr "File deleted: /memories/d", one_file_store) ∧
  classify default_tool "/memories/d" one_file_store = inr Directory ∧
  classify default_tool "/memories/d" one_file_store ≠ inr Absent.
Proof.
  split; [vm_compute; reflexivity|]. split; [vm_compute; reflexivity|].
  split; [vm_compute; reflexivity|]. vm_compute. discriminate.
Qed.

(** C3. The guard of [delete] compares the path with the literal
    [/memories] before the path is normalized.  The root written with a
    trailing separator has the key of the root and passes the guard: on a
    non-empty namespace [delete] then removes every entry and reports a
    deleted directory, and on an empty one it reports a path not found;
    in neither case the protected-path error. *)
Theorem delete_root_trailing_separator :
  Tool.pathToKey default_tool "/memories/" = Tool.pathToKey default_tool "/memories" ∧
  one_file_store !! "memory:/memories/d/x" = Some (Entry "1" None) ∧
  Tool.delete stored_order default_tool "/memories/" one_file_store =
    (inr "Directory deleted: /memories/", ∅) ∧
  Tool.delete stored_order default_tool "/memories/" ∅ =
    (inl (PathNotFound "/memories/"), ∅) ∧
  Tool.delete stored_order default_tool "/memories" one_file_store =
    (inl CannotDeleteRoot, one_file_store).
Proof. repeat split; vm_compute; reflexivity. Qed.

(** ** [insert] *)

Lemma insert_run this (memoryPath key content : string) insert_line
    (insert_text : string) (s : store) :
  Tool.pathToKey this memoryPath = inr key →
  value <$> s !! key = Some content →
  Tool.insert this memoryPath insert_line insert_text s =
    let lines := Js.split content LF in
    if (insert_line <? 0) || (insert_line >? Z.of_nat (length lines)) then
      (inl (InvalidInsertLine insert_line (length lines)), s)
    else
      (inr ("Text inserted at line " +:+ Js.String_of insert_line +:+ " in "
            +:+ memoryPath),
       <[key := Entry (Js.join (Js.array_splice_insert lines insert_line
                                  (Js.strip_last "010" insert_text)) LF)
                      (ttl_in_force this)]> s).
Proof.
  intros Hkey Hget. unfold Tool.insert, mbind, M_bind, lift, Redis.get.
  rewrite Hkey, Hget. cbv zeta.
  destruct ((insert_line <? 0) || _); [done|]. by rewrite setWithTtl_run.
Qed.

Lemma clamp_index_in_range (len : nat) (i : Z) :
  0 ≤ i ≤ Z.of_nat len → Js.clamp_index len i = Z.to_nat i.
Proof.
  intros Hi. unfold Js.clamp_index.
  destruct (Z.ltb_spec i 0); [lia|]. lia.
Qed.

Lemma splice_insert_lookup {A} (l : list A) (i : nat) (x : A) :
  (i ≤ length l)%nat →
  (take i l ++ x :: drop i l) !! i = Some x ∧
  (∀ j, (j < i)%nat → (take i l ++ x :: drop i l) !! j = l !! j) ∧
  (∀ j, (i ≤ j)%nat → (take i l ++ x :: drop i l) !! S j = l !! j).
Proof.
  intros Hi. assert (length (take i l) = i) as Hlen by (rewrite length_take; lia).
  split; [|split].
  - rewrite lookup_app_r by lia. by rewrite Hlen, Nat.sub_diag.
  - intros j Hj. rewrite lookup_app_l by lia. by apply lookup_take_lt.
  - intros j Hj. rewrite lookup_app_r by lia. rewrite Hlen.
    replace (S j - i)%nat with (S (j - i)) by lia. simpl.
    rewrite lookup_drop. f_equal. lia.
Qed.

(** ** [split] and [join] *)

Lemma startsWith_slice (s pat : string) :
  Js.startsWith s pat = true → s = pat +:+ Js.slice_from (String.length pat) s.
Proof. intros [r ->]%startsWith_spec. by rewrite slice_from_app. Qed.

Lemma indexOf_Some (s pat : string) j :
  Js.indexOf s pat = Some j →
  s = Js.slice_to j s +:+ pat +:+ Js.slice_from (j + String.length pat) s.
Proof.
  revert j. induction s as [|c s IH]; intros j; simpl.
  - destruct (Js.startsWith "" pat) eqn:Hst; [|done]. intros [= <-].
    by apply startsWith_slice.
  - destruct (Js.startsWith (String c s) pat) eqn:Hst.
    + intros [= <-]. by apply startsWith_slice.
    + destruct (Js.indexOf s pat) as [j'|] eqn:Hidx; [|done]. intros [= <-].
      simpl. rewrite app_cons. f_equal. by apply IH.
Qed.

Lemma startsWith_slice_to n (s pre : string) :
  Js.startsWith (Js.slice_to n s) pre = true → Js.startsWith s pre = true.
Proof.
  revert n s. induction pre as [|a pre IH]; intros n s; [done|].
  destruct n as [|n], s as [|b s]; simpl; try done.
  rewrite !andb_true_iff. intros [? ?]. eauto.
Qed.

Lemma indexOf_slice_to (s pat : string) j :
  pat ≠ "" → Js.indexOf s pat = Some j → Js.indexOf (Js.slice_to j s) pat = None.
Proof.
  intros Hpat. revert j. induction s as [|c s IH]; intros j; simpl.
  - destruct pat; [done|]. simpl. done.
  - destruct (Js.startsWith (String c s) pat) eqn:Hst.
    + intros [= <-]. simpl. by destruct pat.
    + destruct (Js.indexOf s pat) as [j'|] eqn:Hidx; [|done]. intros [= <-].
      simpl. rewrite (IH j') by done.
      destruct (Js.startsWith (String c (Js.slice_to j' s)) pat) eqn:Hst'; [|done].
      apply (startsWith_slice_to (S j') (String c s)) in Hst'. congruence.
Qed.

Lemma indexOf_None_free (s pat : string) :
  Js.indexOf s pat = None → free_of pat s.
Proof.
  intros Hidx (a & b & ->). revert Hidx. induction a as [|c a IH].
  - rewrite app_empty_l. destruct (pat +:+ b) eqn:Heq; simpl;
      rewrite <-?Heq, startsWith_app; done.
  - rewrite app_cons. simpl.
    destruct (Js.startsWith _ pat); [done|].
    destruct (Js.indexOf (a +:+ pat +:+ b) pat); [done|]. auto.
Qed.

Lemma free_of_cons pat c (s : string) : free_of pat (String c s) → free_of pat s.
Proof. intros Hfree (a & b & ->). apply Hfree. by exists (String c a), b. Qed.

Lemma split_cons_step c (s : string) a (sep : string) :
  Js.split (String c s) (String a sep) =
    match Js.indexOf (String c s) (String a sep) with
    | None => [String c s]
    | Some j =>
        Js.slice_to j (String c s)
        :: Js.split_loop (String.length s)
             (Js.slice_from (j + String.length (String a sep)) (String c s))
             (String a sep)
    end.
Proof. reflexivity. Qed.

Lemma join_cons (x : string) (l : list string) (sep : string) :
  l ≠ [] → Js.join (x :: l) sep = x +:+ sep +:+ Js.join l sep.
Proof. by destruct l. Qed.

Lemma split_loop_nonempty fuel (s sep : string) : Js.split_loop fuel s sep ≠ [].
Proof. destruct fuel; simpl; [done|]. by destruct (Js.indexOf s sep). Qed.

Lemma join_split_loop fuel (s sep : string) :
  Js.join (Js.split_loop fuel s sep) sep = s.
Proof.
  revert s. induction fuel as [|fuel IH]; intros s; simpl; [done|].
  destruct (Js.indexOf s sep) as [j|] eqn:Hidx; [|done].
  rewrite join_cons by apply split_loop_nonempty.
  rewrite IH. symmetry. by apply indexOf_Some.
Qed.

Lemma split_loop_free fuel (s sep : string) :
  sep ≠ "" → (String.length s ≤ fuel)%nat →
  Forall (free_of sep) (Js.split_loop fuel s sep).
Proof.
  intros Hsep. revert s. induction fuel as [|fuel IH]; intros s Hlen; simpl.
  - destruct s; [|simpl in Hlen; lia].
    constructor; [|done]. apply indexOf_None_free. by destruct sep.
  - destruct (Js.indexOf s sep) as [j|] eqn:Hidx.
    + constructor; [by apply indexOf_None_free, indexOf_slice_to|].
      apply IH. apply indexOf_Some in Hidx.
      apply (f_equal String.length) in Hidx. rewrite !length_app_str in Hidx.
      destruct sep; [done|]. simpl in *. lia.
    + constructor; [by apply indexOf_None_free|done].
Qed.

(** The pieces [split] cuts a text into at the newlines are its lines. *)
Lemma split_lines_of (t : string) : lines_of t (Js.split t LF).
Proof.
  unfold lines_of, Js.split. simpl.
  split; [apply split_loop_nonempty|].
  split; [apply join_split_loop|]. by apply split_loop_free.
Qed.

Lemma free_indexOf_None (s pat : string) :
  free_of pat s → Js.indexOf s pat = None.
Proof.
  intros Hfree. destruct (Js.indexOf s pat) as [j|] eqn:Hidx; [|done].
  destruct Hfree. eexists _, _. by apply indexOf_Some.
Qed.

Lemma split_no_separator (s : string) a (sep : string) :
  Js.indexOf s (String a sep) = None → Js.split s (String a sep) = [s].
Proof.
  destruct s as [|c s]; [done|]. rewrite split_cons_step. by intros ->.
Qed.

Lemma split_loop_one_more fuel (s : string) a (sep : string) :
  (String.length s ≤ fuel)%nat →
  Js.split_loop (S fuel) s (String a sep) = Js.split_loop fuel s (String a sep).
Proof.
  revert s. induction fuel as [|fuel IH]; intros s Hlen.
  - destruct s; [done|simpl in Hlen; lia].
  - change (Js.split_loop (S (S fuel)) s (String a sep))
      with (match Js.indexOf s (String a sep) with
            | None => [s]
            | Some j =>
                Js.slice_to j s
                :: Js.split_loop (S fuel)
                     (Js.slice_from (j + String.length (String a sep)) s)
                     (String a sep)
            end).
    change (Js.split_loop (S fuel) s (String a sep))
      with (match Js.indexOf s (String a sep) with
            | None => [s]
            | Some j =>
                Js.slice_to j s
                :: Js.split_loop fuel
                     (Js.slice_from (j + String.length (String a sep)) s)
                     (String a sep)
            end).
    destruct (Js.indexOf s (String a sep)) as [j|] eqn:Hidx; [|done].
    f_equal. apply IH. apply indexOf_Some in Hidx.
    apply (f_equal String.length) in Hidx. rewrite !length_app_str in Hidx.
    simpl in *. lia.
Qed.

Lemma split_loop_enough fuel (s : string) a (sep : string) :
  (String.length s ≤ fuel)%nat →
  Js.split_loop fuel s (String a sep) = Js.split s (String a sep).
Proof.
  unfold Js.split. intros Hlen.
  induction Hlen as [|fuel Hlen IH]; [done|].
  by rewrite split_loop_one_more.
Qed.

Lemma indexOf_first c (x rest : string) :
  free_of (String c "") x →
  Js.indexOf (x +:+ String c rest) (String c "") = Some (String.length x).
Proof.
  intros Hfree. induction x as [|a x IH].
  - rewrite app_empty_l. simpl. by rewrite Ascii.eqb_refl.
  - rewrite app_cons. simpl.
    destruct (Ascii.eqb_spec c a) as [->|Hne].
    { destruct Hfree. by exists "", x. }
    simpl. rewrite IH; [done|]. by eapply free_of_cons.
Qed.

Lemma split_cons_line (x rest : string) :
  free_of LF x →
  Js.split (x +:+ LF +:+ rest) LF = x :: Js.split rest LF.
Proof.
  intros Hfree.
  change (x +:+ LF +:+ rest) with (x +:+ String "010" rest).
  pose proof (indexOf_first "010" x rest Hfree) as Hidx.
  destruct (x +:+ String "010" rest) as [|c s] eqn:Hs; [by destruct x|].
  unfold LF at 1. rewrite split_cons_step. unfold LF in Hidx. rewrite Hidx.
  rewrite <-Hs. change (String "010" rest) with (LF +:+ rest).
  rewrite slice_to_app.
  replace (String.length x + String.length (String "010" ""))%nat
    with (String.length (x +:+ LF)) by (by rewrite length_app_str).
  rewrite <-app_assoc_str, slice_from_app. f_equal.
  apply split_loop_enough.
  apply (f_equal String.length) in Hs. rewrite !length_app_str in Hs.
  simpl in Hs. lia.
Qed.

(** The lines of a text are determined by it: a non-empty list of strings
    without newline is what [split] gives back from its [join]. *)
Lemma split_join (lines : list string) :
  lines ≠ [] → Forall (free_of LF) lines →
  Js.split (Js.join lines LF) LF = lines.
Proof.
  intros Hne Hfree. induction Hfree as [|x l Hx Hl IH]; [done|].
  destruct l as [|y l].
  - simpl. apply split_no_separator. by apply free_indexOf_None.
  - rewrite join_cons by done. rewrite split_cons_line by done.
    f_equal. by apply IH.
Qed.

(** The lines of a text are what [split] cuts it into. *)
Lemma lines_of_split (t : string) (lines : list string) :
  lines_of t lines → Js.split t LF = lines.
Proof. intros (Hne & <- & Hfree). by apply split_join. Qed.

(** C7. On an existing file whose lines are [lines], [n] of them, [insert]
    fails with the range error, leaving the store as it is, exactly when
    the line index is negative or greater than [n]; otherwise it stores
    the lines with the text, one trailing newline stripped, placed at the
    0-based position [insert_line], the lines before it and after it in
    their order.  When the stripped text holds no newline, these are the
    lines of the file afterwards. *)
Theorem insert_spec this (memoryPath key content : string) (lines : list string)
    (insert_line : Z) (insert_text : string) (s : store) :
  Tool.pathToKey this memoryPath = inr key →
  value <$> s !! key = Some content →
  lines_of content lines →
  let n := length lines in
  let i := Z.to_nat insert_line in
  (insert_line < 0 ∨ Z.of_nat n < insert_line ↔
     outcome (Tool.insert this memoryPath insert_line insert_text) s
       = inl (InvalidInsertLine insert_line n)) ∧
  (insert_line < 0 ∨ Z.of_nat n < insert_line →
     store_after (Tool.insert this memoryPath insert_line insert_text) s = s) ∧
  (0 ≤ insert_line ≤ Z.of_nat n →
     ∃ new_line lines',
       stripped_last "010" insert_text new_line ∧
       lines' = take i lines ++ new_line :: drop i lines ∧
       Tool.insert this memoryPath insert_line insert_text s =
         (inr ("Text inserted at line " +:+ Js.String_of insert_line +:+ " in "
               +:+ memoryPath),
          <[key := Entry (Js.join lines' LF) (ttl_in_force this)]> s) ∧
       length lines' = S n ∧
       lines' !! i = Some new_line ∧
       (∀ j, (j < i)%nat → lines' !! j = lines !! j) ∧
       (∀ j, (i ≤ j)%nat → lines' !! S j = lines !! j) ∧
       (free_of LF new_line → lines_of (Js.join lines' LF) lines')).
Proof.
  intros Hkey Hget Hlines n i. unfold outcome, store_after.
  rewrite (insert_run _ _ _ _ _ _ _ Hkey Hget). cbv zeta.
  rewrite (lines_of_split _ _ Hlines). fold n.
  destruct (Z.ltb_spec insert_line 0) as [Hneg|Hnonneg]; simpl.
  { split; [by split; [|left]|]. split; [done|lia]. }
  destruct (Z.gtb_spec insert_line (Z.of_nat n)) as [Hbig|Hsmall]; simpl.
  { split; [split; [done|right; lia]|]. split; [done|lia]. }
  split; [split; [lia|done]|]. split; [lia|]. intros _.
  assert (i ≤ length lines)%nat as Hi by (unfold i; fold n; lia).
  exists (Js.strip_last "010" insert_text), (take i lines ++
    Js.strip_last "010" insert_text :: drop i lines).
  split; [apply strip_last_stripped|]. split; [done|].
  split.
  { unfold Js.array_splice_insert. rewrite clamp_index_in_range by (fold n; lia).
    done. }
  split.
  { rewrite length_app, length_take. simpl. rewrite length_drop. fold n. lia. }
  destruct (splice_insert_lookup lines i (Js.strip_last "010" insert_text) Hi)
    as (Hat & Hbefore & Hafter).
  split; [done|]. split; [done|]. split; [done|].
  intros Hfree. split; [by destruct (take i lines)|]. split; [done|].
  destruct Hlines as (_ & _ & Hall).
  apply Forall_app. split; [by apply Forall_take|].
  constructor; [done|by apply Forall_drop].
Qed.

(** [insert] of [X] and a newline at line 2 of a three-line file places
    [X] before the third line; [insert] at line 4 is refused. *)
Lemma insert_spec_witness :
  let s := store_after (Tool.create default_tool "/memories/f"
                          ("a" +:+ LF +:+ "b" +:+ LF +:+ "c")) ∅ in
  Tool.insert default_tool "/memories/f" 2 ("X" +:+ LF) s =
    (inr "Text inserted at line 2 in /memories/f",
     <["memory:/memories/f" :=
         Entry ("a" +:+ LF +:+ "b" +:+ LF +:+ "X" +:+ LF +:+ "c") None]> s) ∧
  outcome (Tool.insert default_tool "/memories/f" 4 "X") s
    = inl (InvalidInsertLine 4 3).
Proof.
  intros s.
  assert (lines_of ("a" +:+ LF +:+ "b" +:+ LF +:+ "c") ["a"; "b"; "c"]) as Hlines.
  { split; [done|]. split; [reflexivity|].
    repeat constructor; by apply indexOf_None_free. }
  split.
  - destruct (insert_spec default_tool "/memories/f" "memory:/memories/f"
                ("a" +:+ LF +:+ "b" +:+ LF +:+ "c") ["a"; "b"; "c"] 2 ("X" +:+ LF) s
                eq_refl eq_refl Hlines) as (_ & _ & H).
    destruct H as (new_line & lines' & Hstrip & -> & Hrun & _); [simpl; lia|].
    rewrite Hrun. do 3 f_equal.
    assert (new_line = "X") as ->; [|reflexivity].
    eapply stripped_last_functional; [exact Hstrip|]. by left.
  - destruct (insert_spec default_tool "/memories/f" "memory:/memories/f"
                ("a" +:+ LF +:+ "b" +:+ LF +:+ "c") ["a"; "b"; "c"] 4 "X" s
                eq_refl eq_refl Hlines) as (Hfail & _).
    apply Hfail. right. simpl. lia.
Defined.

(** ** [view] of a file *)

Lemma map_indexed_lookup {A B} (f : A → nat → B) (i0 : nat) (l : list A) (j : nat) :
  Js.map_indexed f i0 l !! j = (λ x, f x (i0 + j)%nat) <$> l !! j.
Proof.
  revert i0 j. induction l as [|x l IH]; intros i0 [|j]; simpl; try done.
  - by rewrite Nat.add_0_r.
  - rewrite IH. by replace (S i0 + j)%nat with (i0 + S j)%nat by lia.
Qed.

Lemma map_indexed_length {A B} (f : A → nat → B) (i0 : nat) (l : list A) :
  length (Js.map_indexed f i0 l) = length l.
Proof. revert i0. induction l as [|x l IH]; intros i0; simpl; [done|]. by rewrite IH. Qed.

Lemma view_file_run order this (memoryPath key content : string) (s : store) :
  memoryPath ≠ "/memories" →
  Tool.pathToKey this memoryPath = inr key →
  value <$> s !! key = Some content →
  Tool.view order this memoryPath None s =
    (inr (Js.join (number_lines (Js.split content LF) 1) LF),
     match ttl_in_force this with
     | Some t => alter (λ e, Entry (value e) (Some t)) key s
     | None => s
     end).
Proof.
  intros Hroot Hkey Hget. unfold Tool.view.
  destruct (String.eqb_spec memoryPath "/memories") as [|_]; [done|].
  unfold mbind, M_bind, lift, Redis.get. rewrite Hkey, Hget.
  by rewrite refreshTtl_run.
Qed.

(** C6, as the code has it.  For a path other than the literal [/memories],
    a successful [create] followed by [view] without a range returns the
    lines of the text, in order, joined by newlines, the line at 0-based
    position [i] rendered as the number [i + 1], padded on the left with
    spaces to 4 columns, then [: ], then the line. *)
Theorem create_then_view order this (memoryPath file_text key : string) (s : store) :
  Tool.pathToKey this memoryPath = inr key →
  memoryPath ≠ "/memories" →
  s !! key = None →
  ∃ s1 lines rendered,
    Tool.create this memoryPath file_text s =
      (inr ("File created successfully at " +:+ memoryPath), s1) ∧
    lines_of file_text lines ∧
    Tool.view order this memoryPath None s1 = (inr (Js.join rendered LF), s1) ∧
    length rendered = length lines ∧
    ∀ i line, lines !! i = Some line →
      rendered !! i =
        Some (Js.padStart (Js.String_of (Z.of_nat i + 1)) 4 " " +:+ ": " +:+ line).
Proof.
  intros Hkey Hroot Hnone.
  exists (<[key := Entry file_text (ttl_in_force this)]> s),
    (Js.split file_text LF), (number_lines (Js.split file_text LF) 1).
  split; [by rewrite (create_run _ _ _ _ _ Hkey), Hnone|].
  split; [apply split_lines_of|]. split.
  - rewrite (view_file_run _ _ _ key file_text) by (by rewrite ?lookup_insert_eq).
    f_equal. destruct (ttl_in_force this); [|done].
    by rewrite alter_insert_eq.
  - split; [apply map_indexed_length|]. intros i line Hline.
    unfold number_lines. by rewrite map_indexed_lookup, Hline.
Qed.

Lemma create_then_view_witness :
  ∃ s1 lines rendered,
    Tool.create ttl_tool "/memories/notes.txt" ("a" +:+ LF +:+ "b") ∅ =
      (inr ("File created successfully at " +:+ "/memories/notes.txt"), s1) ∧
    lines_of ("a" +:+ LF +:+ "b") lines ∧
    Tool.view stored_order ttl_tool "/memories/notes.txt" None s1 =
      (inr (Js.join rendered LF), s1) ∧
    length rendered = length lines ∧
    ∀ i line, lines !! i = Some line →
      rendered !! i =
        Some (Js.padStart (Js.String_of (Z.of_nat i + 1)) 4 " " +:+ ": " +:+ line).
Proof.
  apply (create_then_view stored_order ttl_tool "/memories/notes.txt"
           ("a" +:+ LF +:+ "b") "memory:agent-1:/memories/notes.txt" ∅);
    [reflexivity|discriminate|reflexivity].
Defined.

Example view_two_lines :
  outcome (Tool.view stored_order ttl_tool "/memories/notes.txt" None)
    (store_after (Tool.create ttl_tool "/memories/notes.txt" ("a" +:+ LF +:+ "b")) ∅)
  = inr ("   1: a" +:+ LF +:+ "   2: b").
Proof. vm_compute. reflexivity. Qed.

(** C6 as stated fails twice.  At the literal [/memories] a created file is
    not what [view] shows: it lists the namespace.  At any other path the
    number is preceded by its filler, not followed by it. *)
Lemma create_then_view_counterexample :
  (Tool.create default_tool "/memories" "a" ∅ =
     (inr "File created successfully at /memories", root_file) ∧
   Tool.view stored_order default_tool "/memories" None root_file =
     (inr ("Directory: /memories" +:+ LF +:+ "(empty)"), root_file) ∧
   "Directory: /memories" +:+ LF +:+ "(empty)"
     ≠ Js.join (number_lines (Js.split "a" LF) 1) LF ∧
   "Directory: /memories" +:+ LF +:+ "(empty)"
     ≠ Js.join (number_lines_right_padded (Js.split "a" LF)) LF) ∧
  (Tool.create default_tool "/memories/f" "a" ∅ =
     (inr "File created successfully at /memories/f", one_line_file) ∧
   Tool.view stored_order default_tool "/memories/f" None one_line_file =
     (inr "   1: a", one_line_file) ∧
   Js.join (number_lines_right_padded (Js.split "a" LF)) LF = "1   : a" ∧
   "   1: a" ≠ Js.join (number_lines_right_padded (Js.split "a" LF)) LF).
Proof.
  split.
  - split; [vm_compute; reflexivity|]. split; [vm_compute; reflexivity|].
    split; vm_compute; discriminate.
  - split; [vm_compute; reflexivity|]. split; [vm_compute; reflexivity|].
    split; [vm_compute; reflexivity|]. vm_compute. discriminate.
Qed.

(** ** [str_replace] *)

Lemma str_replace_run this (memoryPath key content old_str new_str : string)
    (s : store) :
  Tool.pathToKey this memoryPath = inr key →
  value <$> s !! key = Some content →
  Tool.str_replace this memoryPath old_str new_str s =
    let count := Z.of_nat (length (Js.split content old_str)) - 1 in
    if count =? 0 then (inl (TextNotFound memoryPath), s)
    else if count >? 1 then (inl (TextNotUnique count memoryPath), s)
    else (inr ("File " +:+ memoryPath +:+ " has been edited"),
          <[key := Entry (Js.replace content old_str new_str) (ttl_in_force this)]> s).
Proof.
  intros Hkey Hget. unfold Tool.str_replace, mbind, M_bind, lift, Redis.get.
  rewrite Hkey, Hget. cbv zeta.
  destruct (_ =? 0); [done|]. destruct (_ >? 1); [done|].
  by rewrite setWithTtl_run.
Qed.

(** The two failures of [str_replace] on an existing file leave the store
    as it is. *)
Lemma str_replace_failure this (memoryPath key content old_str new_str : string)
    (s : store) e :
  Tool.pathToKey this memoryPath = inr key →
  value <$> s !! key = Some content →
  outcome (Tool.str_replace this memoryPath old_str new_str) s = inl e →
  store_after (Tool.str_replace this memoryPath old_str new_str) s = s.
Proof.
  intros Hkey Hget. unfold outcome, store_after.
  rewrite (str_replace_run _ _ _ _ _ _ _ Hkey Hget). cbv zeta.
  destruct (_ =? 0); [done|]. by destruct (_ >? 1).
Qed.

(** A replacement text without a dollar sign is inserted as it is. *)
Lemma getSubstitution_plain (matched before after tmpl : string) :
  free_of "$" tmpl → Js.getSubstitution matched before after tmpl = tmpl.
Proof.
  induction tmpl as [|c r IH]; intros Hfree; [done|]. simpl.
  destruct (Ascii.eqb_spec c "$") as [->|_].
  - destruct Hfree. by exists "", r.
  - f_equal. apply IH. intros (a & b & ->). apply Hfree.
    by exists (String c a), b.
Qed.

Lemma split_twice_indexOf (content old_str : string) :
  (2 ≤ length (Js.split content old_str))%nat →
  ∃ j, Js.indexOf content old_str = Some j.
Proof.
  destruct old_str as [|a old_str]; [by exists O; destruct content|].
  destruct content as [|c content]; [simpl; lia|].
  rewrite split_cons_step. destruct (Js.indexOf _ _) as [j|]; [eauto|simpl; lia].
Qed.

(** What [str_replace] does when the old text occurs once and the new text
    holds no dollar sign: the text before and after the occurrence stays,
    the new text stands in its place. *)
Lemma str_replace_single this (memoryPath key content old_str new_str : string)
    (s : store) :
  Tool.pathToKey this memoryPath = inr key →
  value <$> s !! key = Some content →
  length (Js.split content old_str) = 2%nat →
  free_of "$" new_str →
  ∃ before after,
    content = before +:+ old_str +:+ after ∧
    Tool.str_replace this memoryPath old_str new_str s =
      (inr ("File " +:+ memoryPath +:+ " has been edited"),
       <[key := Entry (before +:+ new_str +:+ after) (ttl_in_force this)]> s).
Proof.
  intros Hkey Hget Hcount Hplain.
  destruct (split_twice_indexOf content old_str) as [j Hidx]; [lia|].
  exists (Js.slice_to j content),
    (Js.slice_from (j + String.length old_str) content).
  split; [by apply indexOf_Some|].
  rewrite (str_replace_run _ _ _ _ _ _ _ Hkey Hget), Hcount. simpl.
  unfold Js.replace. rewrite Hidx. by rewrite getSubstitution_plain.
Qed.

(** C2. The single occurrence is replaced through [String.prototype.replace],
    which reads [$$], [$&], [$`] and [$'] in the replacement text as
    patterns: with [old_str] occurring once, the new text [$$5] is stored as
    [$5].  And on an empty file an empty [old_str] gives the count [-1],
    which passes both tests, and the file is rewritten. *)
Theorem str_replace_dollar_pattern :
  price_store !! "memory:/memories/f" = Some (Entry "price: X" None) ∧
  Z.of_nat (length (Js.split "price: X" "X")) - 1 = 1 ∧
  Tool.str_replace default_tool "/memories/f" "X" "$$5" price_store =
    (inr "File /memories/f has been edited",
     <["memory:/memories/f" := Entry "price: $5" None]> price_store) ∧
  "price: $5" ≠ "price: $$5" ∧
  Z.of_nat (length (Js.split "" "")) - 1 = -1 ∧
  Tool.str_replace default_tool "/memories/e" "" "Q" empty_file_store =
    (inr "File /memories/e has been edited",
     <["memory:/memories/e" := Entry "Q" None]> empty_file_store).
Proof.
  split; [vm_compute; reflexivity|]. split; [reflexivity|].
  split; [vm_compute; reflexivity|]. split; [discriminate|].
  split; [reflexivity|]. vm_compute. reflexivity.
Qed.

(** ** Path segments *)

Lemma free_of_slash_head c (s : string) : free_of "/" (String c s) → c ≠ "/"%char.
Proof. intros Hfree ->. apply Hfree. by exists "", s. Qed.

Lemma first_segment_spec (rel : string) :
  ∃ rest,
    rel = hd "" (Js.split rel "/") +:+ rest ∧
    free_of "/" (hd "" (Js.split rel "/")) ∧
    (rest = "" ∨ ∃ r, rest = "/" +:+ r).
Proof.
  destruct rel as [|c rel].
  { exists "". split; [done|]. split; [|by left]. by apply indexOf_None_free. }
  rewrite split_cons_step.
  destruct (Js.indexOf (String c rel) "/") as [j|] eqn:Hidx; simpl hd.
  - exists ("/" +:+ Js.slice_from (j + 1) (String c rel)).
    split; [by apply (indexOf_Some _ "/")|].
    split; [by apply indexOf_None_free, indexOf_slice_to|]. right. eauto.
  - exists "". rewrite app_empty_r. split; [done|].
    split; [by apply indexOf_None_free|by left].
Qed.

Lemma segment_unique (seg1 rest1 seg2 rest2 : string) :
  free_of "/" seg1 → (rest1 = "" ∨ ∃ r, rest1 = "/" +:+ r) →
  free_of "/" seg2 → (rest2 = "" ∨ ∃ r, rest2 = "/" +:+ r) →
  seg1 +:+ rest1 = seg2 +:+ rest2 → seg1 = seg2.
Proof.
  revert seg2. induction seg1 as [|c seg1 IH]; intros [|d seg2] H1 Hr1 H2 Hr2;
    rewrite ?app_cons, ?app_empty_l; intros Heq; [done| | |].
  - apply free_of_slash_head in H2.
    destruct Hr1 as [->|[r ->]]; [done|]. rewrite app_cons in Heq. congruence.
  - apply free_of_slash_head in H1.
    destruct Hr2 as [->|[r ->]]; [done|]. rewrite app_cons in Heq. congruence.
  - injection Heq as -> Heq. f_equal.
    apply IH; eauto using free_of_cons.
Qed.

Lemma first_segment_unique (seg rest : string) :
  free_of "/" seg → (rest = "" ∨ ∃ r, rest = "/" +:+ r) →
  hd "" (Js.split (seg +:+ rest) "/") = seg.
Proof.
  intros Hfree Hrest.
  destruct (first_segment_spec (seg +:+ rest)) as (rest' & Heq & Hfree' & Hrest').
  symmetry. exact (segment_unique _ _ _ _ Hfree Hrest Hfree' Hrest' Heq).
Qed.

Lemma squeeze_free b (seg : string) :
  free_of "/" seg → Js.squeeze_runs "/" b seg = seg.
Proof.
  revert b. induction seg as [|c seg IH]; intros b Hfree; [done|]. simpl.
  destruct (Ascii.eqb_spec c "/") as [->|_].
  - by apply free_of_slash_head in Hfree.
  - f_equal. eauto using free_of_cons.
Qed.

Lemma strip_last_segment (pre seg : string) :
  seg ≠ "" → free_of "/" seg → Js.strip_last "/" (pre +:+ seg) = pre +:+ seg.
Proof.
  intros Hne Hfree. apply strip_last_other. intros q.
  revert q. induction pre as [|c pre IH]; intros q; rewrite ?app_empty_l, ?app_cons.
  - intros ->. apply Hfree. by exists q, "".
  - destruct q as [|d q]; rewrite ?app_empty_l, ?app_cons.
    + intros [= _ Heq]. destruct pre, seg; done.
    + intros [= _ Heq]. by apply (IH q).
Qed.

(** The key of a direct child of the root. *)
Lemma pathToKey_root_child this (seg : string) :
  seg ≠ "" → free_of "/" seg →
  Tool.pathToKey this ("/memories" +:+ "/" +:+ seg) =
    inr ((keyPrefix this +:+ ":/memories") +:+ "/" +:+ seg).
Proof.
  intros Hne Hfree. unfold Tool.pathToKey.
  rewrite (startsWith_app "/memories"). simpl negb. cbv iota.
  replace (Js.squeeze_runs "/" false ("/memories" +:+ "/" +:+ seg))
    with ("/memories/" +:+ seg).
  - rewrite strip_last_segment by done. by rewrite !app_assoc_str.
  - change ("/memories" +:+ "/" +:+ seg) with ("/memories/" +:+ seg).
    unfold String.append at 2. simpl Js.squeeze_runs. fold String.append.
    by rewrite squeeze_free.
Qed.

(** ** Directory listings *)

Lemma isFile_run this (memoryPath key : string) (s : store) :
  Tool.pathToKey this memoryPath = inr key →
  Tool.isFile this memoryPath s = (inr (if s !! key is Some _ then true else false), s).
Proof.
  intros Hkey. unfold Tool.isFile, mbind, M_bind, lift, Redis.exists_, mret, M_ret.
  rewrite Hkey. by destruct (s !! key).
Qed.

Lemma elem_of_set_add (x : string) (l : list string) (y : string) :
  y ∈ set_add x l ↔ y = x ∨ y ∈ l.
Proof.
  unfold set_add. destruct (decide (x ∈ l)) as [Hin|Hout].
  - split; [by right|]. by intros [->|?].
  - rewrite elem_of_app, list_elem_of_singleton. tauto.
Qed.

Lemma NoDup_set_add (x : string) (l : list string) : NoDup l → NoDup (set_add x l).
Proof.
  intros Hl. unfold set_add. destruct (decide (x ∈ l)) as [Hin|Hout]; [done|].
  apply NoDup_app. split; [done|]. split; [|apply NoDup_singleton].
  intros y Hy ->%list_elem_of_singleton. done.
Qed.

Lemma collect_children_cons this (dirPrefix parentPath key : string)
    (keys children : list string) :
  Tool.collect_children this dirPrefix parentPath (key :: keys) children =
    if Js.startsWith key dirPrefix then
      let firstSegment :=
        hd "" (Js.split (Js.slice_from (String.length dirPrefix) key) "/") in
      match firstSegment with
      | EmptyString => Tool.collect_children this dirPrefix parentPath keys children
      | _ =>
          isFileCheck ← Tool.isFile this (parentPath +:+ "/" +:+ firstSegment);
          Tool.collect_children this dirPrefix parentPath keys
            (set_add (if isFileCheck : bool then firstSegment else firstSegment +:+ "/")
                     children)
      end
    else Tool.collect_children this dirPrefix parentPath keys children.
Proof. reflexivity. Qed.

Section listing.
Variable this : RedisMemoryTool.
Variables dir parentPath : string.
Variable s : store.
Hypothesis child_key : ∀ seg,
  seg ≠ "" → free_of "/" seg →
  Tool.pathToKey this (parentPath +:+ "/" +:+ seg) = inr (dir +:+ "/" +:+ seg).

Lemma contributes_cons_skip key keys item :
  (∀ seg rest, is_segment seg rest → key ≠ dir +:+ "/" +:+ seg +:+ rest) →
  contributes dir s (key :: keys) item ↔ contributes dir s keys item.
Proof.
  intros Hskip. split; intros (seg & rest & Hseg & Hin & ->); exists seg, rest.
  - apply elem_of_cons in Hin as [Heq|Hin]; [|done].
    by destruct (Hskip seg rest Hseg).
  - split; [done|]. split; [by right|done].
Qed.

Lemma collect_children_spec (keys children : list string) :
  ∃ children',
    Tool.collect_children this (dir +:+ "/") parentPath keys children s
      = (inr children', s) ∧
    (NoDup children → NoDup children') ∧
    ∀ item, item ∈ children' ↔ item ∈ children ∨ contributes dir s keys item.
Proof.
  revert children. induction keys as [|key keys IH]; intros children.
  { exists children. split; [done|]. split; [done|]. intros item.
    split; [by left|]. intros [?|(seg & rest & _ & Hin & _)]; [done|].
    by apply not_elem_of_nil in Hin. }
  rewrite collect_children_cons. cbv zeta.
  destruct (Js.startsWith key (dir +:+ "/")) eqn:Hstart.
  - apply startsWith_spec in Hstart as [rel ->]. rewrite slice_from_app.
    destruct (first_segment_spec rel) as (rest & Hrel & Hfree & Hrest).
    destruct (hd "" (Js.split rel "/")) as [|c seg0] eqn:Hseg.
    + destruct (IH children) as (children' & Hrun & Hnd & Hin).
      exists children'. split; [done|]. split; [done|]. intros item.
      rewrite Hin, contributes_cons_skip; [done|].
      intros seg' rest' (Hne & Hfree' & Hrest') Heq.
      rewrite <-app_assoc_str in Heq. apply (inj (String.app _)) in Heq.
      rewrite Heq, first_segment_unique in Hseg by done. done.
    + set (seg := String c seg0) in *.
      unfold mbind, M_bind.
      rewrite (isFile_run _ _ (dir +:+ "/" +:+ seg)) by (by apply child_key).
      destruct (IH (set_add (child_item dir s seg) children))
        as (children' & Hrun & Hnd & Hin).
      exists children'. split.
      { rewrite <-Hrun. unfold child_item. by destruct (s !! _). }
      split; [by intros ?; apply Hnd, NoDup_set_add|].
      intros item. rewrite Hin, elem_of_set_add. split.
      * intros [[->|?]|(seg' & rest' & Hseg' & Hk & ->)].
        -- right. exists seg, rest. split; [done|]. split; [|done].
           rewrite <-Hrel, app_assoc_str. left.
        -- by left.
        -- right. exists seg', rest'. split; [done|]. split; [by right|done].
      * intros [?|(seg' & rest' & Hseg' & Hk & ->)]; [by left; right|].
        apply elem_of_cons in Hk as [Heq|Hk].
        -- left; left. rewrite <-app_assoc_str in Heq.
           apply (inj (String.app _)) in Heq.
           destruct Hseg' as (_ & Hfree' & Hrest').
           rewrite Hrel in Heq.
           by rewrite (segment_unique _ _ _ _ Hfree' Hrest' Hfree Hrest Heq).
        -- right. exists seg', rest'. done.
  - destruct (IH children) as (children' & Hrun & Hnd & Hin).
    exists children'. split; [done|]. split; [done|]. intros item.
    rewrite Hin, contributes_cons_skip; [done|].
    intros seg' rest' _ ->.
    rewrite <-app_assoc_str, startsWith_app in Hstart. done.
Qed.

End listing.

Lemma keys_run order (key : string) (s : store) :
  glob_free key = true →
  Redis.keys order (key +:+ "/*") s = (inr (order (descendants key s)), s).
Proof. intros Hfree. unfold Redis.keys. by rewrite matching_descendants. Qed.

Lemma contributes_listed order (dir : string) (s : store) (item : string) :
  (∀ l, order l ≡ₚ l) →
  contributes dir s (order (descendants dir s)) item ↔ listed_child dir s item.
Proof.
  intros Horder. unfold contributes, listed_child.
  split; intros (seg & rest & Hseg & Hin & ->); exists seg, rest;
    (split; [done|]); (split; [|done]).
  - rewrite Horder in Hin. by apply elem_of_descendants in Hin as [? _].
  - rewrite Horder. apply elem_of_descendants. eauto.
Qed.

(** X17. [view] of the root never fails and leaves the store as it is.
    For a tool whose key prefix holds no wildcard: on a namespace without
    entries it returns the line [(empty)] under the header; otherwise it
    returns, under the header, one line per child of the root, a dash, a
    space and the item, the items sorted and without duplicates, a child
    with an entry of its own listed by its name and any other followed by
    the separator. *)
Theorem view_root order this (s : store) :
  let root := keyPrefix this +:+ ":/memories" in
  ∃ out,
    Tool.view order this "/memories" None s = (inr out, s) ∧
    (glob_free (keyPrefix this) = true → (∀ l, order l ≡ₚ l) →
       (descendants root s = [] →
          out = "Directory: /memories" +:+ LF +:+ "(empty)") ∧
       (descendants root s ≠ [] →
          ∃ items rendered,
            out = "Directory: /memories" +:+ LF +:+ Js.join rendered LF ∧
            length rendered = length items ∧
            (∀ i item, items !! i = Some item →
                       rendered !! i = Some ("- " +:+ item)) ∧
            Sorted String.le items ∧ NoDup items ∧
            ∀ item, item ∈ items ↔ listed_child root s item)).
Proof.
  intros root.
  assert (∃ out, Tool.view order this "/memories" None s = (inr out, s))
    as [out Hout].
  { unfold Tool.view.
    change ("/memories" =? "/memories")%string with true. cbv iota.
    replace (keyPrefix this +:+ ":/memories/") with (root +:+ "/")
      by (unfold root; by rewrite app_assoc_str).
    unfold mbind at 1. unfold M_bind at 1. unfold Redis.keys at 1.
    destruct (order _) as [|k ks]; [by eexists|].
    destruct (collect_children_spec this root "/memories" s
                (pathToKey_root_child this) (k :: ks) [])
      as (children & Hrun & _).
    unfold mbind, M_bind. rewrite Hrun. by eexists. }
  exists out. split; [done|]. intros Hfree Horder.
  assert (glob_free root = true) as Hroot
    by (unfold root; by rewrite glob_free_app, Hfree).
  revert Hout. unfold Tool.view.
  change ("/memories" =? "/memories")%string with true. cbv iota.
  replace (keyPrefix this +:+ ":/memories/*") with (root +:+ "/*")
    by (unfold root; by rewrite app_assoc_str).
  replace (keyPrefix this +:+ ":/memories/") with (root +:+ "/")
    by (unfold root; by rewrite app_assoc_str).
  unfold mbind at 1. unfold M_bind at 1. rewrite keys_run by done.
  destruct (order (descendants root s)) as [|k ks] eqn:Hkeys.
  - intros [= <-]. split; [done|].
    intros Hne. destruct Hne. apply Permutation_nil_r.
    by rewrite <-(Horder (descendants root s)), Hkeys.
  - destruct (collect_children_spec this root "/memories" s
                (pathToKey_root_child this) (k :: ks) [])
      as (children & Hrun & Hnd & Hin).
    unfold mbind, M_bind. rewrite Hrun. intros [= <-].
    split.
    { intros Hnil. rewrite Hnil in Hkeys.
      specialize (Horder []). rewrite Hkeys in Horder.
      by apply Permutation_nil_r in Horder. }
    intros _.
    exists (sort_strings children), ((λ item, "- " +:+ item) <$> sort_strings children).
    split; [done|]. split; [by rewrite length_fmap|].
    split; [by intros i item Hi; rewrite list_lookup_fmap, Hi|].
    split; [apply Sorted_merge_sort, _|].
    split.
    { unfold sort_strings. rewrite merge_sort_Permutation. apply Hnd, NoDup_nil_2. }
    intros item. unfold sort_strings. rewrite merge_sort_Permutation, Hin.
    rewrite <-Hkeys, (contributes_listed order) by done.
    split; [intros [Hnil|?]; [by apply not_elem_of_nil in Hnil|done]|by right].
Qed.

Lemma view_root_witness :
  (∃ out,
     Tool.view stored_order default_tool "/memories" None sample_tree =
       (inr out, sample_tree) ∧
     ∃ items rendered,
       out = "Directory: /memories" +:+ LF +:+ Js.join rendered LF ∧
       length rendered = length items ∧
       (∀ i item, items !! i = Some item →
                  rendered !! i = Some ("- " +:+ item)) ∧
       Sorted String.le items ∧ NoDup items ∧
       ∀ item, item ∈ items ↔ listed_child "memory:/memories" sample_tree item) ∧
  Tool.view stored_order default_tool "/memories" None sample_tree =
    (inr ("Directory: /memories" +:+ LF +:+ "- a" +:+ LF +:+ "- b/" +:+ LF
          +:+ "- notes.txt"), sample_tree).
Proof.
  split; [|vm_compute; reflexivity].
  destruct (view_root stored_order default_tool sample_tree) as (out & Hrun & Hlist).
  exists out. split; [exact Hrun|].
  destruct (Hlist eq_refl stored_order_perm) as [_ Hitems].
  apply Hitems. vm_compute. discriminate.
Defined.

(** C8. The pattern of the root scan is the key prefix, unescaped, followed
    by [:/memories/*], and [KEYS] reads it as a glob.  With the agent
    context [user[1]] the class [[1]] stands for the one code unit [1], so
    the keys of the tool itself do not match: after [create] of
    [/memories/a] the root is reported empty.  With the key prefix [m*] the
    keys of the default tool match: on a namespace of its own without
    entries the tool returns the bare header, not the line [(empty)]. *)
Theorem view_root_glob_prefix :
  keyPrefix bracket_tool = "memory:user[1]" ∧
  bracket_file !! "memory:user[1]:/memories/a" = Some (Entry "1" None) ∧
  Tool.view stored_order bracket_tool "/memories" None bracket_file =
    (inr ("Directory: /memories" +:+ LF +:+ "(empty)"), bracket_file) ∧
  keyPrefix star_tool = "m*" ∧
  descendants "m*:/memories" one_file_store = [] ∧
  Tool.view stored_order star_tool "/memories" None one_file_store =
    (inr ("Directory: /memories" +:+ LF), one_file_store).
Proof.
  split; [reflexivity|]. split; [vm_compute; reflexivity|].
  split; [vm_compute; reflexivity|]. split; [reflexivity|].
  split; vm_compute; reflexivity.
Qed.

Example view_root_empty :
  Tool.view stored_order default_tool "/memories" None ∅ =
    (inr ("Directory: /memories" +:+ LF +:+ "(empty)"), ∅).
Proof. reflexivity. Qed.

(** ** [rename] *)

Section rename_loops.
Variable this : RedisMemoryTool.
Variables oldKey newKey newPath : string.

Local Abbreviation relativePath key := (Js.slice_from (String.length oldKey) key).
Local Abbreviation destKey key := (newKey +:+ relativePath key).

(** The pre-flight loop only reads: it passes when no destination exists. *)
Lemma preflight_pass (keys : list string) (s : store) :
  (∀ k, k ∈ keys → s !! destKey k = None) →
  for_of keys (λ key,
    exists_ ← Redis.exists_ (newKey +:+ Js.slice_from (String.length oldKey) key);
    if negb (exists_ =? 0)
    then throw (DestinationExists
                  (newPath +:+ Js.slice_from (String.length oldKey) key))
    else mret ()) s = (inr (), s).
Proof.
  induction keys as [|key keys IH]; intros Hfree; [done|].
  simpl. unfold mbind, M_bind, Redis.exists_.
  rewrite (Hfree key) by left. simpl.
  apply IH. intros k Hk. apply Hfree. by right.
Qed.

(** It throws at the first destination that exists, with the store as it
    was. *)
Lemma preflight_fail (keys : list string) (s : store) :
  (∃ k, k ∈ keys ∧ is_Some (s !! destKey k)) →
  ∃ k, k ∈ keys ∧ is_Some (s !! destKey k) ∧
    for_of keys (λ key,
      exists_ ← Redis.exists_ (newKey +:+ Js.slice_from (String.length oldKey) key);
      if negb (exists_ =? 0)
      then throw (DestinationExists
                    (newPath +:+ Js.slice_from (String.length oldKey) key))
      else mret ()) s
    = (inl (DestinationExists (newPath +:+ relativePath k)), s).
Proof.
  induction keys as [|key keys IH]; intros (k & Hk & Hsome).
  { by apply not_elem_of_nil in Hk. }
  simpl. unfold mbind, M_bind, Redis.exists_.
  destruct (s !! destKey key) as [e|] eqn:Hdest; simpl.
  - exists key. split; [left|]. split; [by rewrite Hdest|done].
  - apply elem_of_cons in Hk as [->|Hk].
    { rewrite Hdest in Hsome. by destruct Hsome. }
    destruct IH as (k' & Hk' & Hsome' & Hrun); [eauto|].
    exists k'. split; [by right|]. done.
Qed.

(** The move loop: every key goes to its destination, under the TTL in
    force, and nothing else changes. *)
Lemma move_loop_spec (keys : list string) (s : store) :
  NoDup keys →
  (∀ k, k ∈ keys → is_Some (s !! k)) →
  (∀ k, k ∈ keys → s !! destKey k = None) →
  (∀ k1 k2, k1 ∈ keys → k2 ∈ keys → destKey k1 = destKey k2 → k1 = k2) →
  ∃ s',
    for_of keys (λ key,
      fileContent ← Redis.get key;
      match fileContent with
      | Some fileContent =>
          Tool.setWithTtl this
            (newKey +:+ Js.slice_from (String.length oldKey) key) fileContent;;
          Redis.del [key];;
          mret ()
      | None => mret ()
      end) s = (inr (), s') ∧
    (∀ k, k ∈ keys →
       s' !! k = None ∧
       s' !! destKey k = (λ e, Entry (value e) (ttl_in_force this)) <$> s !! k) ∧
    (∀ j, j ∉ keys → (∀ k, k ∈ keys → j ≠ destKey k) → s' !! j = s !! j).
Proof.
  revert s. induction keys as [|key keys IH]; intros s Hnd Hin Hfree Hinj.
  { exists s. split; [done|]. split; [|done]. intros k Hk.
    by apply not_elem_of_nil in Hk. }
  apply NoDup_cons in Hnd as [Hkey Hnd].
  destruct (Hin key) as [e He]; [left|].
  assert (s !! destKey key = None) as Hdest by (apply Hfree; left).
  assert (destKey key ≠ key) as Hne by (intros Heq; congruence).
  set (s1 := delete key (<[destKey key := Entry (value e) (ttl_in_force this)]> s)).
  assert (∀ k, k ∈ keys → k ≠ key ∧ k ≠ destKey key ∧ destKey k ≠ destKey key
                          ∧ destKey k ≠ key) as Hsep.
  { intros k Hk. destruct (Hin k) as [e' He']; [by right|].
    assert (s !! destKey k = None) by (apply Hfree; by right).
    repeat split; try congruence.
    intros Heq. apply Hinj in Heq; [congruence|by right|left]. }
  destruct (IH s1) as (s' & Hrun & Hmoved & Hother); [done| | | |].
  { intros k Hk. destruct (Hsep k Hk) as (? & ? & _).
    unfold s1. rewrite lookup_delete_ne, lookup_insert_ne by done.
    apply Hin. by right. }
  { intros k Hk. destruct (Hsep k Hk) as (_ & _ & ? & ?).
    unfold s1. rewrite lookup_delete_ne, lookup_insert_ne by done.
    apply Hfree. by right. }
  { intros k1 k2 ? ?. apply Hinj; by right. }
  exists s'. split.
  { simpl. unfold mbind at 1. unfold M_bind at 1.
    unfold mbind at 1. unfold M_bind at 1. unfold Redis.get at 1.
    rewrite He. simpl. unfold mbind at 1. unfold M_bind at 1.
    unfold mbind at 1. unfold M_bind at 1.
    rewrite setWithTtl_run. unfold mbind at 1. unfold M_bind at 1.
    unfold Redis.del at 1. simpl foldr. exact Hrun. }
  assert (s' !! key = None ∧ s' !! destKey key =
            Some (Entry (value e) (ttl_in_force this))) as [Hk1 Hk2].
  { split.
    - rewrite Hother; [unfold s1; by rewrite lookup_delete_eq|done|].
      intros k Hk. by destruct (Hsep k Hk) as (_ & _ & _ & ?).
    - rewrite Hother.
      + unfold s1. by rewrite lookup_delete_ne, lookup_insert_eq.
      + intros Hk. destruct (Hin (destKey key)) as [? ?]; [by right|congruence].
      + intros k Hk. by destruct (Hsep k Hk) as (_ & _ & ? & _). }
  split.
  - intros k [->|Hk]%elem_of_cons; [by rewrite He|].
    destruct (Hsep k Hk) as (? & ? & _). destruct (Hmoved k Hk) as [-> ->].
    split; [done|]. unfold s1. by rewrite lookup_delete_ne, lookup_insert_ne.
  - intros j Hj Hdj. apply not_elem_of_cons in Hj as [Hjk Hj].
    rewrite Hother; [|done|by intros k Hk; apply Hdj; right].
    unfold s1. rewrite lookup_delete_ne by done.
    apply lookup_insert_ne. intros Heq. by apply (Hdj key); [left|].
Qed.

End rename_loops.

Lemma rename_directory_run order this (oldPath newPath oldKey newKey : string)
    (s : store) :
  Tool.pathToKey this oldPath = inr oldKey →
  Tool.pathToKey this newPath = inr newKey →
  s !! oldKey = None →
  Tool.rename order this oldPath newPath s =
    match order (Redis.matching (oldKey +:+ "/*") s) with
    | [] => (inl (SourceNotFound oldPath), s)
    | keys =>
        (for_of keys (λ key,
           exists_ ← Redis.exists_ (newKey +:+ Js.slice_from (String.length oldKey) key);
           if negb (exists_ =? 0)
           then throw (DestinationExists
                         (newPath +:+ Js.slice_from (String.length oldKey) key))
           else mret ());;
         for_of keys (λ key,
           fileContent ← Redis.get key;
           match fileContent with
           | Some fileContent =>
               Tool.setWithTtl this
                 (newKey +:+ Js.slice_from (String.length oldKey) key) fileContent;;
               Redis.del [key];;
               mret ()
           | None => mret ()
           end);;
         mret ("Renamed " +:+ oldPath +:+ " to " +:+ newPath)) s
    end.
Proof.
  intros Hold Hnew Hnone. unfold Tool.rename.
  unfold mbind at 1. unfold M_bind at 1. unfold lift at 1. rewrite Hold.
  unfold mbind at 1. unfold M_bind at 1. unfold lift at 1. rewrite Hnew.
  unfold mbind at 1. unfold M_bind at 1. unfold Redis.get at 1. rewrite Hnone.
  change (value <$> None) with (@None string). cbv iota.
  unfold mbind at 1. unfold M_bind at 1. unfold Redis.keys at 1.
  by destruct (order (Redis.matching (oldKey +:+ "/*") s)).
Qed.

Lemma slice_descendant (oldKey r : string) :
  Js.slice_from (String.length oldKey) (oldKey +:+ "/" +:+ r) = "/" +:+ r.
Proof. apply slice_from_app. Qed.

(** X18. Renaming a directory (descendant entries, no entry at its own
    key) whose key holds no wildcard: if the destination of any descendant
    exists, the operation fails with the conflict error and the store is as
    it was; if none exists, every descendant [oldKey/r] is gone afterwards,
    its text is at [newKey/r] under the TTL in force, and every other key
    is as it was. *)
Theorem rename_directory order this (oldPath newPath oldKey newKey : string)
    (s : store) :
  (∀ l, order l ≡ₚ l) →
  Tool.pathToKey this oldPath = inr oldKey →
  glob_free oldKey = true →
  Tool.pathToKey this newPath = inr newKey →
  classify this oldPath s = inr Directory →
  ((∃ r, is_Some (s !! (oldKey +:+ "/" +:+ r)) ∧
         is_Some (s !! (newKey +:+ "/" +:+ r))) →
     ∃ r, is_Some (s !! (oldKey +:+ "/" +:+ r)) ∧
          is_Some (s !! (newKey +:+ "/" +:+ r)) ∧
          Tool.rename order this oldPath newPath s =
            (inl (DestinationExists (newPath +:+ "/" +:+ r)), s)) ∧
  ((∀ r, is_Some (s !! (oldKey +:+ "/" +:+ r)) →
         s !! (newKey +:+ "/" +:+ r) = None) →
     ∃ s',
       Tool.rename order this oldPath newPath s =
         (inr ("Renamed " +:+ oldPath +:+ " to " +:+ newPath), s') ∧
       (∀ r e, s !! (oldKey +:+ "/" +:+ r) = Some e →
          s' !! (oldKey +:+ "/" +:+ r) = None ∧
          s' !! (newKey +:+ "/" +:+ r) = Some (Entry (value e) (ttl_in_force this))) ∧
       (∀ j, (∀ r, is_Some (s !! (oldKey +:+ "/" +:+ r)) →
                   j ≠ oldKey +:+ "/" +:+ r ∧ j ≠ newKey +:+ "/" +:+ r) →
          s' !! j = s !! j)).
Proof.
  intros Horder Hold Hglob Hnew Hdir.
  apply (classify_Directory _ _ _ _ Hold) in Hdir as [Hnone Hdesc].
  rewrite (rename_directory_run _ _ _ _ _ _ _ Hold Hnew Hnone).
  rewrite matching_descendants by done.
  assert (∀ k, k ∈ order (descendants oldKey s) ↔
               is_Some (s !! k) ∧ ∃ r, k = oldKey +:+ "/" +:+ r) as Hkeys.
  { intros k. by rewrite Horder, elem_of_descendants. }
  destruct (order (descendants oldKey s)) as [|k0 ks] eqn:Hord.
  { destruct Hdesc. apply Permutation_nil_r. by rewrite <-(Horder _), Hord. }
  assert (NoDup (k0 :: ks)) as Hnd.
  { rewrite <-Hord, Horder. apply NoDup_descendants. }
  revert Hkeys Hnd. generalize (k0 :: ks). clear Hord k0 ks.
  intros keys Hkeys Hnd. split.
  - intros (r & Hsrc & Hdst).
    destruct (preflight_fail oldKey newKey newPath keys s) as (k & Hk & Hsome & Hrun).
    { exists (oldKey +:+ "/" +:+ r). split; [apply Hkeys; eauto|].
      by rewrite slice_descendant. }
    apply Hkeys in Hk as [Hsrc' [r' ->]]. rewrite slice_descendant in Hsome, Hrun.
    exists r'. split; [done|]. split; [done|].
    unfold mbind at 1. unfold M_bind at 1. by rewrite Hrun.
  - intros Hfree.
    assert (∀ k, k ∈ keys →
              s !! (newKey +:+ Js.slice_from (String.length oldKey) k) = None)
      as Hfree'.
    { intros k [Hsrc [r ->]]%Hkeys. rewrite slice_descendant. by apply Hfree. }
    destruct (move_loop_spec this oldKey newKey keys s) as (s' & Hrun & Hmoved & Hother);
      [done|by intros k [? _]%Hkeys|done| |].
    { intros k1 k2 [_ [r1 ->]]%Hkeys [_ [r2 ->]]%Hkeys.
      rewrite !slice_descendant. by intros ->%(inj (String.app _)). }
    exists s'. split.
    { unfold mbind at 1. unfold M_bind at 1.
      rewrite (preflight_pass oldKey newKey newPath keys s Hfree').
      unfold mbind at 1. unfold M_bind at 1. by rewrite Hrun. }
    split.
    + intros r e He.
      destruct (Hmoved (oldKey +:+ "/" +:+ r)) as [Hgone Hdest].
      { apply Hkeys. eauto. }
      rewrite slice_descendant, He in Hdest. done.
    + intros j Hj. apply Hother.
      * intros [Hsrc [r ->]]%Hkeys. by destruct (Hj r Hsrc).
      * intros k [Hsrc [r ->]]%Hkeys. rewrite slice_descendant.
        by destruct (Hj r Hsrc).
Qed.

Lemma lookup_none_by_list (s : store) (k : string) :
  (∀ k' e, (k', e) ∈ map_to_list s → k ≠ k') → s !! k = None.
Proof.
  intros Hall. destruct (s !! k) as [e|] eqn:Hk; [|done].
  apply elem_of_map_to_list in Hk. by destruct (Hall k e Hk).
Qed.

Lemma rename_directory_witness :
  (∃ r, is_Some (conflict_tree !! ("memory:/memories/src" +:+ "/" +:+ r)) ∧
        is_Some (conflict_tree !! ("memory:/memories/dst" +:+ "/" +:+ r)) ∧
        Tool.rename stored_order default_tool "/memories/src" "/memories/dst"
          conflict_tree =
          (inl (DestinationExists ("/memories/dst" +:+ "/" +:+ r)), conflict_tree)) ∧
  (∃ s',
     Tool.rename stored_order default_tool "/memories/src" "/memories/dst"
       source_tree = (inr "Renamed /memories/src to /memories/dst", s') ∧
     s' !! "memory:/memories/src/a" = None ∧
     s' !! "memory:/memories/dst/a" = Some (Entry "1" None) ∧
     s' !! "memory:/memories/src/b/c" = None ∧
     s' !! "memory:/memories/dst/b/c" = Some (Entry "2" None)).
Proof.
  split.
  - destruct (rename_directory stored_order default_tool "/memories/src"
                "/memories/dst" "memory:/memories/src" "memory:/memories/dst"
                conflict_tree stored_order_perm eq_refl eq_refl eq_refl)
      as [Hconflict _];
      [vm_compute; reflexivity|].
    apply Hconflict. exists "b/c". split; vm_compute; eauto.
  - destruct (rename_directory stored_order default_tool "/memories/src"
                "/memories/dst" "memory:/memories/src" "memory:/memories/dst"
                source_tree stored_order_perm eq_refl eq_refl eq_refl)
      as [_ Hmove];
      [vm_compute; reflexivity|].
    destruct Hmove as (s' & Hrun & Hmoved & _).
    { intros r _. apply lookup_none_by_list. intros k' e Hin.
      assert (map_to_list source_tree =
                [("memory:/memories/src/a", Entry "1" None);
                 ("memory:/memories/src/b/c", Entry "2" None)]) as Hlist
        by (vm_compute; reflexivity).
      rewrite Hlist in Hin.
      apply elem_of_cons in Hin as [[= -> _]|Hin]; [discriminate|].
      apply list_elem_of_singleton in Hin as [= -> _]. discriminate. }
    exists s'. split; [exact Hrun|].
    destruct (Hmoved "a" (Entry "1" None)) as [Ha Ha']; [vm_compute; reflexivity|].
    destruct (Hmoved "b/c" (Entry "2" None)) as [Hc Hc']; [vm_compute; reflexivity|].
    split; [exact Ha|]. split; [exact Ha'|]. split; [exact Hc|exact Hc'].
Defined.

(** The scenario of the specification: children [a] and [b/c], and the
    destination of [b/c] exists. *)
Example rename_conflict_untouched :
  Tool.rename stored_order default_tool "/memories/src" "/memories/dst" conflict_tree
    = (inl (DestinationExists "/memories/dst/b/c"), conflict_tree).
Proof. vm_compute. reflexivity. Qed.

(** C1. The pattern of the subtree scan is the key of the old path,
    unescaped, followed by [/*], and [KEYS] reads it as a glob.  The
    directory [/memories/[ab]] has the descendant [x] and no destination
    exists, yet the scan asks for the keys below [/memories/a] and
    [/memories/b], finds none, and [rename] fails with the
    source-not-found error.  With the file [/memories/a/y] in the
    namespace the scan finds that one: its text is moved to the key of the
    new path itself, and the descendant of the directory stays where it
    was. *)
Theorem rename_directory_glob_path :
  classify default_tool "/memories/[ab]" bracket_tree = inr Directory ∧
  descendants "memory:/memories/[ab]" bracket_tree = ["memory:/memories/[ab]/x"] ∧
  bracket_tree !! "memory:/memories/c/x" = None ∧
  Tool.rename stored_order default_tool "/memories/[ab]" "/memories/c" bracket_tree =
    (inl (SourceNotFound "/memories/[ab]"), bracket_tree) ∧
  bracket_siblings !! "memory:/memories/a/y" = Some (Entry "2" None) ∧
  Tool.rename stored_order default_tool "/memories/[ab]" "/memories/c"
    bracket_siblings =
    (inr "Renamed /memories/[ab] to /memories/c",
     <["memory:/memories/c" := Entry "2" None]> bracket_tree).
Proof.
  split; [vm_compute; reflexivity|]. split; [vm_compute; reflexivity|].
  split; [vm_compute; reflexivity|]. split; [vm_compute; reflexivity|].
  split; vm_compute; reflexivity.
Qed.


(** ** Expirations *)

Lemma ttl_in_force_Some this t :
  ttl_in_force this = Some t ↔ ttl this = Some t ∧ t ≠ 0%N.
Proof.
  unfold ttl_in_force. destruct (ttl this) as [t'|]; [|by split; [|intros [? _]]].
  destruct (N.eqb_spec t' 0) as [->|Hne]; split; try done.
  - by intros [[= <-] ?].
  - by intros [= <-].
  - by intros [[= <-] _].
Qed.

Lemma ttl_in_force_None this :
  ttl_in_force this = None ↔ ttl this = None ∨ ttl this = Some 0%N.
Proof.
  unfold ttl_in_force. destruct (ttl this) as [t'|]; [|by split; [left|]].
  destruct (N.eqb_spec t' 0) as [->|Hne]; split; try done.
  - by right.
  - by intros [?|[= ?]].
Qed.

(** The commands that only read. *)

Lemma isFile_store this (memoryPath : string) (s : store) :
  store_after (Tool.isFile this memoryPath) s = s.
Proof.
  unfold store_after, Tool.isFile, mbind, M_bind, lift.
  by destruct (Tool.pathToKey this memoryPath).
Qed.

Lemma collect_children_store this (dirPrefix parentPath : string)
    (keys children : list string) (s : store) :
  store_after (Tool.collect_children this dirPrefix parentPath keys children) s = s.
Proof.
  revert children. induction keys as [|key keys IH]; intros children; [done|].
  unfold store_after in *. rewrite collect_children_cons. cbv zeta.
  destruct (Js.startsWith key dirPrefix); [|apply IH].
  destruct (hd "" _) as [|c seg] eqn:Hseg; [apply IH|].
  unfold mbind, M_bind.
  pose proof (isFile_store this (parentPath +:+ "/" +:+ String c seg) s) as Hfile.
  unfold store_after in Hfile.
  destruct (Tool.isFile this _ s) as [[e|b] s1]; simpl in Hfile; subst s1; [done|].
  apply IH.
Qed.

Lemma view_listing_store order this (memoryPath : string) view_range (s : store) :
  (memoryPath = "/memories" ∨
   ∃ key, Tool.pathToKey this memoryPath = inr key ∧ s !! key = None) →
  store_after (Tool.view order this memoryPath view_range) s = s.
Proof.
  intros Hcase. unfold store_after, Tool.view.
  destruct (String.eqb_spec memoryPath "/memories") as [->|Hroot].
  - unfold mbind at 1. unfold M_bind at 1. unfold Redis.keys at 1.
    destruct (order _) as [|k ks]; [done|].
    unfold mbind, M_bind.
    pose proof (collect_children_store this (keyPrefix this +:+ ":/memories/")
                  "/memories" (k :: ks) [] s) as Hstore.
    unfold store_after in Hstore.
    by destruct (Tool.collect_children _ _ _ _ _ s) as [[e|children] s1];
      simpl in Hstore; subst s1.
  - destruct Hcase as [?|(key & Hkey & Hnone)]; [done|].
    unfold mbind at 1. unfold M_bind at 1. unfold lift at 1. rewrite Hkey.
    unfold mbind at 1. unfold M_bind at 1. unfold Redis.get at 1. rewrite Hnone.
    change (value <$> None) with (@None string). cbv iota.
    unfold mbind at 1. unfold M_bind at 1. unfold Redis.keys at 1.
    destruct (order _) as [|k ks]; [done|].
    unfold mbind, M_bind.
    pose proof (collect_children_store this (key +:+ "/") memoryPath (k :: ks) [] s)
      as Hstore.
    unfold store_after in Hstore.
    by destruct (Tool.collect_children _ _ _ _ _ s) as [[e|children] s1];
      simpl in Hstore; subst s1.
Qed.

Lemma view_file_store order this (memoryPath key : string) view_range e (s : store) :
  memoryPath ≠ "/memories" →
  Tool.pathToKey this memoryPath = inr key →
  s !! key = Some e →
  ∃ out,
    Tool.view order this memoryPath view_range s =
      (inr out, match ttl_in_force this with
                | Some t => <[key := Entry (value e) (Some t)]> s
                | None => s
                end).
Proof.
  intros Hroot Hkey Hget. unfold Tool.view.
  destruct (String.eqb_spec memoryPath "/memories") as [|_]; [done|].
  unfold mbind at 1. unfold M_bind at 1. unfold lift at 1. rewrite Hkey.
  unfold mbind at 1. unfold M_bind at 1. unfold Redis.get at 1. rewrite Hget.
  simpl. unfold mbind, M_bind. rewrite refreshTtl_run.
  assert (∀ t, alter (λ e0, Entry (value e0) (Some t)) key s
               = <[key := Entry (value e) (Some t)]> s) as Halter.
  { intros t. apply map_eq. intros k. destruct (decide (k = key)) as [->|Hne].
    - by rewrite lookup_alter_eq, lookup_insert_eq, Hget.
    - by rewrite lookup_alter_ne, lookup_insert_ne. }
  destruct (ttl_in_force this) as [t|]; rewrite ?Halter;
    by destruct view_range as [[|a [|b [|c l]]]|]; eexists.
Qed.

(** The commands that write: the key a successful command has written. *)

Lemma create_success this (memoryPath file_text : string) (s s' : store) out :
  Tool.create this memoryPath file_text s = (inr out, s') →
  ∃ key,
    Tool.pathToKey this memoryPath = inr key ∧
    s' = <[key := Entry file_text (ttl_in_force this)]> s.
Proof.
  destruct (Tool.pathToKey this memoryPath) as [e|key] eqn:Hkey.
  - by rewrite (create_invalid_path _ _ _ _ _ Hkey).
  - rewrite (create_run _ _ _ _ _ Hkey). destruct (s !! key); [done|].
    intros [= _ <-]. eauto.
Qed.

Lemma str_replace_success this (memoryPath old_str new_str : string)
    (s s' : store) out :
  Tool.str_replace this memoryPath old_str new_str s = (inr out, s') →
  ∃ key content,
    Tool.pathToKey this memoryPath = inr key ∧
    s' = <[key := Entry content (ttl_in_force this)]> s.
Proof.
  destruct (Tool.pathToKey this memoryPath) as [e|key] eqn:Hkey.
  { unfold Tool.str_replace, mbind, M_bind, lift. by rewrite Hkey. }
  destruct (value <$> s !! key) as [content|] eqn:Hget.
  - rewrite (str_replace_run _ _ _ _ _ _ _ Hkey Hget). cbv zeta.
    destruct (_ =? 0); [done|]. destruct (_ >? 1); [done|].
    intros [= _ <-]. eauto.
  - unfold Tool.str_replace, mbind, M_bind, lift, Redis.get. by rewrite Hkey, Hget.
Qed.

Lemma insert_success this (memoryPath : string) insert_line (insert_text : string)
    (s s' : store) out :
  Tool.insert this memoryPath insert_line insert_text s = (inr out, s') →
  ∃ key content,
    Tool.pathToKey this memoryPath = inr key ∧
    s' = <[key := Entry content (ttl_in_force this)]> s.
Proof.
  destruct (Tool.pathToKey this memoryPath) as [e|key] eqn:Hkey.
  { unfold Tool.insert, mbind, M_bind, lift. by rewrite Hkey. }
  destruct (value <$> s !! key) as [content|] eqn:Hget.
  - rewrite (insert_run _ _ _ _ _ _ _ Hkey Hget). cbv zeta.
    destruct (_ || _); [done|]. intros [= _ <-]. eauto.
  - unfold Tool.insert, mbind, M_bind, lift, Redis.get. by rewrite Hkey, Hget.
Qed.

Lemma rename_file_run order this (oldPath newPath oldKey newKey : string) e
    (s : store) :
  Tool.pathToKey this oldPath = inr oldKey →
  Tool.pathToKey this newPath = inr newKey →
  s !! oldKey = Some e →
  Tool.rename order this oldPath newPath s =
    match s !! newKey with
    | Some _ => (inl (DestinationExists newPath), s)
    | None =>
        (inr ("Renamed " +:+ oldPath +:+ " to " +:+ newPath),
         delete oldKey (<[newKey := Entry (value e) (ttl_in_force this)]> s))
    end.
Proof.
  intros Hold Hnew Hget. unfold Tool.rename.
  unfold mbind at 1. unfold M_bind at 1. unfold lift at 1. rewrite Hold.
  unfold mbind at 1. unfold M_bind at 1. unfold lift at 1. rewrite Hnew.
  unfold mbind at 1. unfold M_bind at 1. unfold Redis.get at 1. rewrite Hget.
  simpl. unfold mbind, M_bind, Redis.exists_.
  destruct (s !! newKey); simpl; [done|]. by rewrite setWithTtl_run.
Qed.

Lemma rename_invalid_path order this (oldPath newPath : string) (s : store) :
  (∃ e, Tool.pathToKey this oldPath = inl e) ∨
  (∃ e, Tool.pathToKey this newPath = inl e) →
  ∃ e, Tool.rename order this oldPath newPath s = (inl e, s).
Proof.
  unfold Tool.rename, mbind, M_bind, lift.
  intros [[e He]|[e He]]; rewrite He; [by eexists|].
  destruct (Tool.pathToKey this oldPath); by eexists.
Qed.

(** The keys a successful directory [rename] has written. *)
Lemma rename_directory_written order this (oldPath newPath oldKey newKey : string)
    (s s' : store) out :
  (∀ l, order l ≡ₚ l) →
  Tool.pathToKey this oldPath = inr oldKey →
  Tool.pathToKey this newPath = inr newKey →
  glob_free oldKey = true →
  s !! oldKey = None →
  Tool.rename order this oldPath newPath s = (inr out, s') →
  ∀ r e, s !! (oldKey +:+ "/" +:+ r) = Some e →
    s' !! (newKey +:+ "/" +:+ r) = Some (Entry (value e) (ttl_in_force this)).
Proof.
  intros Horder Hold Hnew Hglob Hnone.
  rewrite (rename_directory_run _ _ _ _ _ _ _ Hold Hnew Hnone).
  rewrite matching_descendants by done.
  assert (∀ k, k ∈ order (descendants oldKey s) ↔
               is_Some (s !! k) ∧ ∃ r, k = oldKey +:+ "/" +:+ r) as Hkeys.
  { intros k. by rewrite Horder, elem_of_descendants. }
  assert (NoDup (order (descendants oldKey s))) as Hnd.
  { rewrite Horder. apply NoDup_descendants. }
  destruct (order (descendants oldKey s)) as [|k0 ks]; [done|].
  revert Hkeys Hnd. generalize (k0 :: ks). intros keys Hkeys Hnd.
  destruct (decide (Exists (λ k, is_Some
              (s !! (newKey +:+ Js.slice_from (String.length oldKey) k))) keys))
    as [Hconflict|Hfree].
  - apply Exists_exists in Hconflict.
    destruct (preflight_fail oldKey newKey newPath keys s Hconflict)
      as (k & _ & _ & Hrun).
    unfold mbind at 1. unfold M_bind at 1. by rewrite Hrun.
  - apply Forall_Exists_neg in Hfree. rewrite Forall_forall in Hfree.
    assert (∀ k, k ∈ keys →
              s !! (newKey +:+ Js.slice_from (String.length oldKey) k) = None)
      as Hfree'.
    { intros k Hk. apply eq_None_not_Some. by apply Hfree. }
    destruct (move_loop_spec this oldKey newKey keys s) as (s1 & Hrun & Hmoved & _);
      [done|by intros k [? _]%Hkeys|done| |].
    { intros k1 k2 [_ [r1 ->]]%Hkeys [_ [r2 ->]]%Hkeys.
      rewrite !slice_descendant. by intros ->%(inj (String.app _)). }
    unfold mbind at 1. unfold M_bind at 1.
    rewrite (preflight_pass oldKey newKey newPath keys s Hfree').
    unfold mbind at 1. unfold M_bind at 1. rewrite Hrun.
    intros [= _ <-] r e He.
    destruct (Hmoved (oldKey +:+ "/" +:+ r)) as [_ Hdest]; [apply Hkeys; eauto|].
    by rewrite slice_descendant, He in Hdest.
Qed.

(** Every command writes under the TTL in force only. *)

Lemma writes_under_refl x (s : store) : writes_under x s s.
Proof. intros k e He. by right. Qed.

Lemma writes_under_trans x (s1 s2 s3 : store) :
  writes_under x s1 s2 → writes_under x s2 s3 → writes_under x s1 s3.
Proof.
  intros H12 H23 k e He. destruct (H23 k e He) as [?|He2]; [by left|].
  by apply H12.
Qed.

Lemma writes_under_insert x (s : store) (key val : string) :
  writes_under x s (<[key := Entry val x]> s).
Proof.
  intros k e. destruct (decide (k = key)) as [->|Hne].
  - rewrite lookup_insert_eq. intros [= <-]. by left.
  - rewrite lookup_insert_ne by done. by right.
Qed.

Lemma writes_under_delete x (s : store) (key : string) :
  writes_under x s (delete key s).
Proof. intros k e [_ He]%lookup_delete_Some. by right. Qed.

Lemma writes_under_foldr_delete x (s : store) (keys : list string) :
  writes_under x s (foldr delete s keys).
Proof.
  induction keys as [|key keys IH]; simpl; [apply writes_under_refl|].
  eapply writes_under_trans; [exact IH|apply writes_under_delete].
Qed.

Lemma bind_writes_under {A B} x (m : M A) (f : A → M B) (s : store) :
  writes_under x s (store_after m s) →
  (∀ y s1, writes_under x s1 (store_after (f y) s1)) →
  writes_under x s (store_after (m ≫= f) s).
Proof.
  unfold store_after, mbind, M_bind. intros Hm Hf.
  destruct (m s) as [[e|y] s1]; simpl in *; [done|].
  eapply writes_under_trans; [exact Hm|apply Hf].
Qed.

Lemma for_of_writes_under {A} x (l : list A) (body : A → M unit) (s : store) :
  (∀ y s1, writes_under x s1 (store_after (body y) s1)) →
  writes_under x s (store_after (for_of l body) s).
Proof.
  intros Hbody. revert s. induction l as [|y l IH]; intros s.
  { apply writes_under_refl. }
  simpl. apply bind_writes_under; [apply Hbody|]. intros _ s1. apply IH.
Qed.

Section expirations.
Variable order : list string → list string.
Variable this : RedisMemoryTool.

Local Abbreviation x := (ttl_in_force this).

Lemma setWithTtl_writes_under (key val : string) (s : store) :
  writes_under x s (store_after (Tool.setWithTtl this key val) s).
Proof.
  unfold store_after. rewrite setWithTtl_run. apply writes_under_insert.
Qed.

Lemma create_writes_under (memoryPath file_text : string) (s : store) :
  writes_under x s (store_after (Tool.create this memoryPath file_text) s).
Proof.
  unfold store_after.
  destruct (Tool.create this memoryPath file_text s) as [[e|out] s'] eqn:Hrun.
  - destruct (Tool.pathToKey this memoryPath) as [e'|key] eqn:Hkey.
    + rewrite (create_invalid_path _ _ _ _ _ Hkey) in Hrun.
      injection Hrun as _ <-. apply writes_under_refl.
    + rewrite (create_run _ _ _ _ _ Hkey) in Hrun.
      destruct (s !! key); [|done]. injection Hrun as _ <-.
      apply writes_under_refl.
  - apply create_success in Hrun as (key & _ & ->).
    apply writes_under_insert.
Qed.

Lemma str_replace_writes_under (memoryPath old_str new_str : string) (s : store) :
  writes_under x s (store_after (Tool.str_replace this memoryPath old_str new_str) s).
Proof.
  unfold store_after.
  destruct (Tool.str_replace this memoryPath old_str new_str s) as [[e|out] s']
    eqn:Hrun.
  - simpl. revert Hrun. unfold Tool.str_replace, mbind, M_bind, lift, Redis.get.
    destruct (Tool.pathToKey this memoryPath) as [e'|key].
    { intros [= _ <-]. apply writes_under_refl. }
    destruct (value <$> s !! key) as [content|].
    + destruct (_ =? 0); [intros [= _ <-]; apply writes_under_refl|].
      destruct (_ >? 1); [intros [= _ <-]; apply writes_under_refl|].
      rewrite setWithTtl_run. done.
    + intros [= _ <-]. apply writes_under_refl.
  - apply str_replace_success in Hrun as (key & content & _ & ->).
    apply writes_under_insert.
Qed.

Lemma insert_writes_under (memoryPath : string) insert_line (insert_text : string)
    (s : store) :
  writes_under x s
    (store_after (Tool.insert this memoryPath insert_line insert_text) s).
Proof.
  unfold store_after.
  destruct (Tool.insert this memoryPath insert_line insert_text s) as [[e|out] s']
    eqn:Hrun.
  - simpl. revert Hrun. unfold Tool.insert, mbind, M_bind, lift, Redis.get.
    destruct (Tool.pathToKey this memoryPath) as [e'|key].
    { intros [= _ <-]. apply writes_under_refl. }
    destruct (value <$> s !! key) as [content|].
    + destruct (_ || _); [intros [= _ <-]; apply writes_under_refl|].
      rewrite setWithTtl_run. done.
    + intros [= _ <-]. apply writes_under_refl.
  - apply insert_success in Hrun as (key & content & _ & ->).
    apply writes_under_insert.
Qed.

Lemma delete_writes_under (memoryPath : string) (s : store) :
  writes_under x s (store_after (Tool.delete order this memoryPath) s).
Proof.
  unfold store_after.
  destruct (decide (memoryPath = "/memories")) as [->|Hroot].
  { rewrite delete_root. apply writes_under_refl. }
  destruct (Tool.pathToKey this memoryPath) as [e|key] eqn:Hkey.
  { unfold Tool.delete. destruct (String.eqb_spec memoryPath "/memories"); [done|].
    unfold mbind, M_bind, lift. rewrite Hkey. apply writes_under_refl. }
  rewrite (delete_run _ _ _ _ _ Hroot Hkey).
  destruct (s !! key); [apply writes_under_delete|].
  destruct (order _) as [|k ks]; [apply writes_under_refl|].
  apply writes_under_foldr_delete.
Qed.

Lemma view_writes_under (memoryPath : string) view_range (s : store) :
  writes_under x s (store_after (Tool.view order this memoryPath view_range) s).
Proof.
  destruct (decide (memoryPath = "/memories")) as [->|Hroot].
  { rewrite view_listing_store by (by left). apply writes_under_refl. }
  destruct (Tool.pathToKey this memoryPath) as [e|key] eqn:Hkey.
  { unfold store_after, Tool.view.
    destruct (String.eqb_spec memoryPath "/memories"); [done|].
    unfold mbind, M_bind, lift. rewrite Hkey. apply writes_under_refl. }
  destruct (s !! key) as [e|] eqn:Hget.
  - destruct (view_file_store order this _ _ view_range _ _ Hroot Hkey Hget)
      as [out Hrun].
    unfold store_after. rewrite Hrun. simpl.
    destruct (ttl_in_force this) as [t|];
      [apply (writes_under_insert (Some t))|apply writes_under_refl].
  - rewrite view_listing_store by (right; eauto). apply writes_under_refl.
Qed.

Lemma rename_writes_under (oldPath newPath : string) (s : store) :
  writes_under x s (store_after (Tool.rename order this oldPath newPath) s).
Proof.
  destruct (Tool.pathToKey this oldPath) as [e|oldKey] eqn:Hold.
  { destruct (rename_invalid_path order this oldPath newPath s) as [e' Hrun];
      [left; eauto|].
    unfold store_after. rewrite Hrun. apply writes_under_refl. }
  destruct (Tool.pathToKey this newPath) as [e|newKey] eqn:Hnew.
  { destruct (rename_invalid_path order this oldPath newPath s) as [e' Hrun];
      [right; eauto|].
    unfold store_after. rewrite Hrun. apply writes_under_refl. }
  destruct (s !! oldKey) as [e|] eqn:Hget.
  - unfold store_after. rewrite (rename_file_run _ _ _ _ _ _ _ _ Hold Hnew Hget).
    destruct (s !! newKey); [apply writes_under_refl|]. simpl.
    eapply writes_under_trans;
      [apply writes_under_insert|apply writes_under_delete].
  - unfold store_after. rewrite (rename_directory_run _ _ _ _ _ _ _ Hold Hnew Hget).
    destruct (order _) as [|k ks]; [apply writes_under_refl|].
    apply bind_writes_under.
    { apply for_of_writes_under. intros key s1.
      unfold store_after, mbind, M_bind, Redis.exists_.
      destruct (s1 !! _); apply writes_under_refl. }
    intros _ s1. apply bind_writes_under; [|intros; apply writes_under_refl].
    apply for_of_writes_under. intros key s2.
    apply bind_writes_under; [apply writes_under_refl|].
    intros [fileContent|] s3; [|apply writes_under_refl].
    apply bind_writes_under; [apply setWithTtl_writes_under|].
    intros _ s4. apply bind_writes_under; [apply writes_under_delete|].
    intros; apply writes_under_refl.
Qed.

End expirations.

(** C9. With a TTL configured (set and not 0), a successful [create],
    [str_replace] or [insert] leaves the written key with that TTL; after a
    successful [rename] the destination has it, every entry the command
    has written has it (whatever the scan of the subtree reported), and so
    has the destination of every descendant when the old key holds no
    wildcard; a [view] that returns the content of a file sets it on the
    key of the file.  A [view] that lists (the root, or a path without an
    entry of its own) and the existence check [isFile] leave the store,
    expirations included, as it is.  With no TTL in force (none set, or 0),
    no command sets an expiration. *)
Theorem ttl_policy order this :
  (∀ t, ttl this = Some t → t ≠ 0%N →
     (∀ memoryPath file_text s out s',
        Tool.create this memoryPath file_text s = (inr out, s') →
        ∃ key, Tool.pathToKey this memoryPath = inr key ∧
               s' !! key = Some (Entry file_text (Some t))) ∧
     (∀ memoryPath old_str new_str s out s',
        Tool.str_replace this memoryPath old_str new_str s = (inr out, s') →
        ∃ key content, Tool.pathToKey this memoryPath = inr key ∧
                       s' !! key = Some (Entry content (Some t))) ∧
     (∀ memoryPath insert_line insert_text s out s',
        Tool.insert this memoryPath insert_line insert_text s = (inr out, s') →
        ∃ key content, Tool.pathToKey this memoryPath = inr key ∧
                       s' !! key = Some (Entry content (Some t))) ∧
     (∀ oldPath newPath s out s',
        Tool.rename order this oldPath newPath s = (inr out, s') →
        ∃ oldKey newKey,
          Tool.pathToKey this oldPath = inr oldKey ∧
          Tool.pathToKey this newPath = inr newKey ∧
          (∀ e, s !! oldKey = Some e →
                s' !! newKey = Some (Entry (value e) (Some t))) ∧
          writes_under (Some t) s s' ∧
          (s !! oldKey = None → glob_free oldKey = true → (∀ l, order l ≡ₚ l) →
           ∀ r e, s !! (oldKey +:+ "/" +:+ r) = Some e →
                  s' !! (newKey +:+ "/" +:+ r) = Some (Entry (value e) (Some t)))) ∧
     (∀ memoryPath view_range s key e,
        memoryPath ≠ "/memories" →
        Tool.pathToKey this memoryPath = inr key →
        s !! key = Some e →
        ∃ out, Tool.view order this memoryPath view_range s =
                 (inr out, <[key := Entry (value e) (Some t)]> s))) ∧
  (∀ memoryPath view_range s,
     memoryPath = "/memories" ∨
     (∃ key, Tool.pathToKey this memoryPath = inr key ∧ s !! key = None) →
     store_after (Tool.view order this memoryPath view_range) s = s) ∧
  (∀ memoryPath s, store_after (Tool.isFile this memoryPath) s = s) ∧
  (ttl this = None ∨ ttl this = Some 0%N →
     ∀ s,
       (∀ memoryPath file_text,
          sets_no_expiry s (store_after (Tool.create this memoryPath file_text) s)) ∧
       (∀ memoryPath old_str new_str,
          sets_no_expiry s
            (store_after (Tool.str_replace this memoryPath old_str new_str) s)) ∧
       (∀ memoryPath insert_line insert_text,
          sets_no_expiry s
            (store_after (Tool.insert this memoryPath insert_line insert_text) s)) ∧
       (∀ oldPath newPath,
          sets_no_expiry s (store_after (Tool.rename order this oldPath newPath) s)) ∧
       (∀ memoryPath view_range,
          sets_no_expiry s
            (store_after (Tool.view order this memoryPath view_range) s)) ∧
       (∀ memoryPath,
          sets_no_expiry s (store_after (Tool.delete order this memoryPath) s))).
Proof.
  split; [|split; [|split]].
  - intros t Httl Hpos.
    assert (ttl_in_force this = Some t) as Hforce by (by apply ttl_in_force_Some).
    split; [|split; [|split; [|split]]].
    + intros p text s out s' (key & Hkey & ->)%create_success.
      exists key. by rewrite lookup_insert_eq, Hforce.
    + intros p old new s out s' (key & content & Hkey & ->)%str_replace_success.
      exists key, content. by rewrite lookup_insert_eq, Hforce.
    + intros p i text s out s' (key & content & Hkey & ->)%insert_success.
      exists key, content. by rewrite lookup_insert_eq, Hforce.
    + intros oldPath newPath s out s' Hrun.
      destruct (Tool.pathToKey this oldPath) as [e|oldKey] eqn:Hold.
      { destruct (rename_invalid_path order this oldPath newPath s) as [e' He'];
          [left; eauto|congruence]. }
      destruct (Tool.pathToKey this newPath) as [e|newKey] eqn:Hnew.
      { destruct (rename_invalid_path order this oldPath newPath s) as [e' He'];
          [right; eauto|congruence]. }
      exists oldKey, newKey. split; [done|]. split; [done|]. split; [|split].
      * intros e He. rewrite (rename_file_run _ _ _ _ _ _ _ _ Hold Hnew He) in Hrun.
        destruct (s !! newKey) eqn:Hdest; [done|]. injection Hrun as _ <-.
        rewrite lookup_delete_ne by congruence.
        by rewrite lookup_insert_eq, Hforce.
      * pose proof (rename_writes_under order this oldPath newPath s) as Hw.
        unfold store_after in Hw. by rewrite Hrun, Hforce in Hw.
      * intros Hnone Hglob Horder r e He. rewrite <-Hforce.
        exact (rename_directory_written order this oldPath newPath oldKey newKey
                 s s' out Horder Hold Hnew Hglob Hnone Hrun r e He).
    + intros p range s key e Hroot Hkey He.
      destruct (view_file_store order this p key range e s Hroot Hkey He)
        as [out Hrun].
      exists out. by rewrite Hrun, Hforce.
  - intros p range s. apply view_listing_store.
  - apply isFile_store.
  - intros Hnone s.
    assert (ttl_in_force this = None) as Hforce by (by apply ttl_in_force_None).
    unfold sets_no_expiry. rewrite <-Hforce.
    split; [by intros; apply create_writes_under|].
    split; [by intros; apply str_replace_writes_under|].
    split; [by intros; apply insert_writes_under|].
    split; [by intros; apply rename_writes_under|].
    split; [by intros; apply view_writes_under|].
    by intros; apply delete_writes_under.
Qed.

(** With [ttl: 3600], on entries stored without expiration: the key
    written by [create], by [str_replace], by [insert] and by [rename] (of a
    file, of a directory) expires in 3600 seconds, and so does the file
    [view] has shown. *)
Lemma ttl_policy_witness :
  ttl ttl_tool = Some 3600%N ∧
  store_after (Tool.create ttl_tool "/memories/g" "a") legacy_file
    !! "memory:agent-1:/memories/g" = Some (Entry "a" (Some 3600%N)) ∧
  (∃ content,
     store_after (Tool.str_replace ttl_tool "/memories/f" "a" "b") legacy_file
       !! "memory:agent-1:/memories/f" = Some (Entry content (Some 3600%N))) ∧
  (∃ content,
     store_after (Tool.insert ttl_tool "/memories/f" 0 "x") legacy_file
       !! "memory:agent-1:/memories/f" = Some (Entry content (Some 3600%N))) ∧
  store_after (Tool.rename stored_order ttl_tool "/memories/f" "/memories/g")
    legacy_file !! "memory:agent-1:/memories/g" = Some (Entry "a" (Some 3600%N)) ∧
  store_after (Tool.rename stored_order ttl_tool "/memories/d" "/memories/e")
    legacy_tree !! ("memory:agent-1:/memories/e" +:+ "/" +:+ "x")
    = Some (Entry "1" (Some 3600%N)) ∧
  (∃ out,
     Tool.view stored_order ttl_tool "/memories/f" None legacy_file =
       (inr out, <["memory:agent-1:/memories/f" := Entry "a" (Some 3600%N)]>
                   legacy_file)).
Proof.
  split; [reflexivity|].
  destruct (ttl_policy stored_order ttl_tool) as [Hset _].
  destruct (Hset 3600%N eq_refl) as (Hcreate & Hreplace & Hinsert & Hrename & Hview);
    [discriminate|].
  split.
  { destruct (Hcreate "/memories/g" "a" legacy_file
                "File created successfully at /memories/g"
                (store_after (Tool.create ttl_tool "/memories/g" "a") legacy_file))
      as (key & [= <-] & Hentry); [vm_compute; reflexivity|exact Hentry]. }
  split.
  { destruct (Hreplace "/memories/f" "a" "b" legacy_file
                "File /memories/f has been edited"
                (store_after (Tool.str_replace ttl_tool "/memories/f" "a" "b")
                   legacy_file))
      as (key & content & [= <-] & Hentry); [vm_compute; reflexivity|].
    exists content. exact Hentry. }
  split.
  { destruct (Hinsert "/memories/f" 0 "x" legacy_file
                "Text inserted at line 0 in /memories/f"
                (store_after (Tool.insert ttl_tool "/memories/f" 0 "x") legacy_file))
      as (key & content & [= <-] & Hentry); [vm_compute; reflexivity|].
    exists content. exact Hentry. }
  split.
  { destruct (Hrename "/memories/f" "/memories/g" legacy_file
                "Renamed /memories/f to /memories/g"
                (store_after
                   (Tool.rename stored_order ttl_tool "/memories/f" "/memories/g")
                   legacy_file))
      as (oldKey & newKey & [= <-] & [= <-] & Hfile & _); [vm_compute; reflexivity|].
    apply (Hfile (Entry "a" None)). vm_compute. reflexivity. }
  split.
  { destruct (Hrename "/memories/d" "/memories/e" legacy_tree
                "Renamed /memories/d to /memories/e"
                (store_after
                   (Tool.rename stored_order ttl_tool "/memories/d" "/memories/e")
                   legacy_tree))
      as (oldKey & newKey & [= <-] & [= <-] & _ & _ & Hdir);
      [vm_compute; reflexivity|].
    apply (Hdir eq_refl eq_refl stored_order_perm "x" (Entry "1" None)).
    vm_compute. reflexivity. }
  apply (Hview "/memories/f" None legacy_file "memory:agent-1:/memories/f"
           (Entry "a" None)); [discriminate|reflexivity|vm_compute; reflexivity].
Defined.

(** * Further properties of the commands *)

(** ** The path codec: round trip and equivalent spellings *)

Lemma squeezed_squeeze b (s : string) : squeezed b (Js.squeeze_runs "/" b s) = true.
Proof.
  revert b. induction s as [|a s IH]; intros b; [done|]. simpl.
  destruct (Ascii.eqb_spec a "/") as [->|Hne].
  - destruct b; [apply IH|]. simpl. rewrite ?Ascii.eqb_refl. simpl. apply IH.
  - simpl. destruct (Ascii.eqb_spec a "/"); [done|]. apply IH.
Qed.

Lemma squeeze_squeezed b (s : string) :
  squeezed b s = true → Js.squeeze_runs "/" b s = s.
Proof.
  revert b. induction s as [|a s IH]; intros b; [done|]. simpl.
  destruct (Ascii.eqb_spec a "/") as [->|Hne].
  - destruct b; [done|]. simpl. intros Hs. by rewrite IH.
  - intros Hs. by rewrite IH.
Qed.

Lemma squeezed_strip_last b (s : string) :
  squeezed b s = true → squeezed b (Js.strip_last "/" s) = true.
Proof.
  revert b. induction s as [|a s IH]; intros b; [done|].
  destruct s as [|a' s].
  - simpl. destruct (Ascii.eqb_spec a "/"); [done|]. simpl.
    by destruct (Ascii.eqb_spec a "/").
  - change (Js.strip_last "/" (String a (String a' s)))
      with (String a (Js.strip_last "/" (String a' s))).
    change (squeezed b (String a (String a' s)))
      with (if Ascii.eqb a "/" then negb b && squeezed true (String a' s)
            else squeezed false (String a' s)).
    change (squeezed b (String a (Js.strip_last "/" (String a' s))))
      with (if Ascii.eqb a "/"
            then negb b && squeezed true (Js.strip_last "/" (String a' s))
            else squeezed false (Js.strip_last "/" (String a' s))).
    destruct (Ascii.eqb a "/"); [|apply IH].
    intros [-> Hs]%andb_true_iff. simpl. by apply IH.
Qed.

Lemma strip_last_idempotent b (s : string) :
  squeezed b s = true →
  Js.strip_last "/" (Js.strip_last "/" s) = Js.strip_last "/" s.
Proof.
  revert b. induction s as [|a s IH]; intros b; [done|].
  destruct s as [|a' s].
  - simpl. destruct (Ascii.eqb_spec a "/") as [->|Hne]; [done|]. simpl.
    by destruct (Ascii.eqb_spec a "/").
  - change (Js.strip_last "/" (String a (String a' s)))
      with (String a (Js.strip_last "/" (String a' s))).
    change (squeezed b (String a (String a' s)))
      with (if Ascii.eqb a "/" then negb b && squeezed true (String a' s)
            else squeezed false (String a' s)).
    intros Hs.
    destruct (Js.strip_last "/" (String a' s)) as [|c t] eqn:Ht.
    + assert (a' = "/"%char ∧ s = "") as [-> ->].
      { destruct s as [|a'' s]; simpl in Ht.
        - by destruct (Ascii.eqb_spec a' "/").
        - by destruct s. }
      simpl. destruct (Ascii.eqb_spec a "/") as [->|Hne]; [|done].
      simpl in Hs. by destruct b.
    + change (Js.strip_last "/" (String a (String c t)))
        with (String a (Js.strip_last "/" (String c t))).
      f_equal.
      destruct (Ascii.eqb a "/"); [|by eapply IH].
      apply andb_true_iff in Hs as [_ Hs]. by eapply IH.
Qed.

Lemma strip_last_app (pre x : string) c :
  x ≠ "" → Js.strip_last c (pre +:+ x) = pre +:+ Js.strip_last c x.
Proof.
  intros Hx. induction pre as [|a pre IH]; [done|].
  rewrite !app_cons. simpl. rewrite IH.
  destruct (pre +:+ x) eqn:Heq; [|done]. by destruct pre, x.
Qed.

(** The normalized form of a valid path begins with [/memories]. *)
Lemma normalized_startsWith (path : string) :
  Js.startsWith path "/memories" = true →
  Js.startsWith (Js.strip_last "/" (Js.squeeze_runs "/" false path)) "/memories"
    = true.
Proof.
  intros [r ->]%startsWith_spec.
  replace (Js.squeeze_runs "/" false ("/memories" +:+ r))
    with ("/memories" +:+ Js.squeeze_runs "/" false r) by done.
  destruct (Js.squeeze_runs "/" false r) as [|c x] eqn:Hx; [done|].
  rewrite strip_last_app by done. apply startsWith_app.
Qed.

Lemma keyToPath_key this (n : string) :
  Tool.keyToPath this (keyPrefix this +:+ ":" +:+ n) = n.
Proof.
  unfold Tool.keyToPath.
  replace (String.length (keyPrefix this) + 1)%nat
    with (String.length (keyPrefix this +:+ ":"))
    by (rewrite length_app_str; done).
  rewrite <-app_assoc_str. apply slice_from_app.
Qed.

(** X1. The path of a key that [pathToKey] produced is the normalized
    path, and it encodes to the same key again. *)
Theorem pathToKey_keyToPath this (path key : string) :
  Tool.pathToKey this path = inr key →
  Tool.keyToPath this key = Js.strip_last "/" (Js.squeeze_runs "/" false path) ∧
  Tool.pathToKey this (Tool.keyToPath this key) = inr key.
Proof.
  unfold Tool.pathToKey at 1.
  destruct (Js.startsWith path "/memories") eqn:Hstart; [|done]. simpl.
  intros [= <-]. rewrite keyToPath_key. split; [done|].
  unfold Tool.pathToKey. rewrite normalized_startsWith by done. simpl.
  pose proof (squeezed_squeeze false path) as Hsq.
  rewrite squeeze_squeezed by (by apply squeezed_strip_last).
  by rewrite (strip_last_idempotent false).
Qed.

Lemma pathToKey_keyToPath_witness :
  Tool.keyToPath ttl_tool "memory:agent-1:/memories/a/b" = "/memories/a/b" ∧
  Tool.pathToKey ttl_tool (Tool.keyToPath ttl_tool "memory:agent-1:/memories/a/b")
    = inr "memory:agent-1:/memories/a/b".
Proof.
  destruct (pathToKey_keyToPath ttl_tool "/memories//a/b/"
              "memory:agent-1:/memories/a/b" eq_refl) as [H1 H2].
  split; [exact H1|exact H2].
Defined.

Lemma squeeze_app b (x y : string) :
  Js.squeeze_runs "/" b (x +:+ y) =
    Js.squeeze_runs "/" b x +:+ Js.squeeze_runs "/" (ends_in_run b x) y.
Proof.
  revert b. induction x as [|a x IH]; intros b; [done|].
  rewrite app_cons. simpl. destruct (Ascii.eqb a "/").
  - destruct b; rewrite ?app_cons; by rewrite IH.
  - by rewrite app_cons, IH.
Qed.

Lemma squeeze_empty_run (s : string) :
  Js.squeeze_runs "/" true s = "" → ends_in_run true s = true.
Proof.
  induction s as [|a s IH]; [done|]. simpl.
  destruct (Ascii.eqb a "/"); [exact IH|done].
Qed.

Lemma squeeze_no_trailing b (s : string) :
  ends_in_run b s = false → ∀ q, Js.squeeze_runs "/" b s ≠ q +:+ "/".
Proof.
  revert b. induction s as [|a s IH]; intros b; simpl.
  { intros -> [|? ?]; discriminate. }
  destruct (Ascii.eqb_spec a "/") as [->|Hne]; intros Hend q.
  - destruct b; [by apply IH|].
    destruct q as [|c q]; rewrite ?app_empty_l, ?app_cons.
    + intros [= Hempty]. apply squeeze_empty_run in Hempty. congruence.
    + intros [= _ Heq]. by apply (IH true Hend q).
  - destruct q as [|c q]; rewrite ?app_empty_l, ?app_cons.
    + intros [= ? _]. done.
    + intros [= _ Heq]. by apply (IH false Hend q).
Qed.

Lemma startsWith_app_l (a x pre : string) :
  Js.startsWith a pre = true → Js.startsWith (a +:+ x) pre = true.
Proof.
  intros [r ->]%startsWith_spec. rewrite app_assoc_str. apply startsWith_app.
Qed.

(** X2. After the root, a doubled separator and a trailing separator do not
    change the key: the spellings of a path all name the same entry. *)
Theorem pathToKey_spellings this (a b : string) :
  Js.startsWith a "/memories" = true →
  Tool.pathToKey this (a +:+ "//" +:+ b) = Tool.pathToKey this (a +:+ "/" +:+ b) ∧
  Tool.pathToKey this (a +:+ "/") = Tool.pathToKey this a.
Proof.
  intros Hstart. unfold Tool.pathToKey.
  rewrite !startsWith_app_l, Hstart by done. simpl negb. cbv iota. split.
  - do 3 f_equal. rewrite !squeeze_app.
    by destruct (ends_in_run false a).
  - do 3 f_equal. rewrite squeeze_app.
    destruct (ends_in_run false a) eqn:Hend; simpl.
    + by rewrite app_empty_r.
    + rewrite strip_last_snoc. symmetry. apply strip_last_other.
      by apply squeeze_no_trailing.
Qed.

Lemma pathToKey_spellings_witness :
  Tool.pathToKey default_tool ("/memories/a" +:+ "//" +:+ "b") = inr "memory:/memories/a/b" ∧
  Tool.pathToKey default_tool ("/memories/a" +:+ "/") = inr "memory:/memories/a".
Proof.
  destruct (pathToKey_spellings default_tool "/memories/a" "b" eq_refl) as [H1 H2].
  split; [rewrite H1|rewrite H2]; reflexivity.
Defined.

(** A separator doubled before the root is not collapsed by the test of
    [pathToKey]: the path is rejected. *)
Example pathToKey_leading_double :
  Tool.pathToKey default_tool "//memories/a" = inl (InvalidPath "//memories/a").
Proof. reflexivity. Qed.

(** ** [rename] of a file *)

(** X3. Renaming a path that has an entry of its own moves that entry only:
    it fails with the conflict error, the store as it was, when the new key
    exists (so also when both paths have the same key); otherwise the text
    is at the new key under the TTL in force, the old key is gone, and
    every other key, the entries below the old path included, is as it
    was. *)
Theorem rename_file order this (oldPath newPath oldKey newKey : string) e
    (s : store) :
  Tool.pathToKey this oldPath = inr oldKey →
  Tool.pathToKey this newPath = inr newKey →
  s !! oldKey = Some e →
  (is_Some (s !! newKey) →
     Tool.rename order this oldPath newPath s =
       (inl (DestinationExists newPath), s)) ∧
  (oldKey = newKey →
     Tool.rename order this oldPath newPath s =
       (inl (DestinationExists newPath), s)) ∧
  (s !! newKey = None →
     ∃ s',
       Tool.rename order this oldPath newPath s =
         (inr ("Renamed " +:+ oldPath +:+ " to " +:+ newPath), s') ∧
       s' !! oldKey = None ∧
       s' !! newKey = Some (Entry (value e) (ttl_in_force this)) ∧
       (∀ k, k ≠ oldKey → k ≠ newKey → s' !! k = s !! k) ∧
       (∀ r, is_Some (s !! (oldKey +:+ "/" +:+ r)) →
             s' !! (oldKey +:+ "/" +:+ r) = s !! (oldKey +:+ "/" +:+ r))).
Proof.
  intros Hold Hnew He.
  rewrite (rename_file_run _ _ _ _ _ _ _ _ Hold Hnew He).
  split; [by intros [e' ->]|]. split; [intros <-; by rewrite He|].
  intros Hnone. rewrite Hnone. eexists. split; [done|].
  assert (oldKey ≠ newKey) as Hne by congruence.
  split; [by rewrite lookup_delete_eq|].
  split; [by rewrite lookup_delete_ne, lookup_insert_eq|].
  split.
  - intros k Hk1 Hk2. by rewrite lookup_delete_ne, lookup_insert_ne.
  - intros r [e' He'].
    rewrite lookup_delete_ne by apply key_not_descendant.
    rewrite lookup_insert_ne; [done|]. congruence.
Qed.

Lemma rename_file_witness :
  ∃ s',
    Tool.rename stored_order ttl_tool "/memories/f" "/memories/g" legacy_file =
      (inr "Renamed /memories/f to /memories/g", s') ∧
    s' !! "memory:agent-1:/memories/f" = None ∧
    s' !! "memory:agent-1:/memories/g" = Some (Entry "a" (Some 3600%N)).
Proof.
  destruct (rename_file stored_order ttl_tool "/memories/f" "/memories/g"
              "memory:agent-1:/memories/f" "memory:agent-1:/memories/g"
              (Entry "a" None) legacy_file eq_refl eq_refl)
    as (_ & _ & Hmove); [vm_compute; reflexivity|].
  destruct Hmove as (s' & Hrun & Hold & Hnew & _); [vm_compute; reflexivity|].
  exists s'. split; [exact Hrun|]. split; [exact Hold|exact Hnew].
Defined.

(** ** [delete] by classification *)

(** X4. [delete] of a path other than the literal root whose key holds no
    wildcard, by what the path is.  A file: its own key is removed and
    nothing else, so entries below it stay.  A directory: every key below
    it is removed, every other key is as it was, and the path is absent
    afterwards.  Absent: the not-found error, the store as it was. *)
Theorem delete_spec order this (memoryPath key : string) (s : store) :
  (∀ l, order l ≡ₚ l) →
  memoryPath ≠ "/memories" →
  Tool.pathToKey this memoryPath = inr key →
  glob_free key = true →
  match classify_key key s with
  | File =>
      Tool.delete order this memoryPath s =
        (inr ("File deleted: " +:+ memoryPath), delete key s)
  | Directory =>
      ∃ s',
        Tool.delete order this memoryPath s =
          (inr ("Directory deleted: " +:+ memoryPath), s') ∧
        (∀ r, s' !! (key +:+ "/" +:+ r) = None) ∧
        (∀ k, (∀ r, k ≠ key +:+ "/" +:+ r) → s' !! k = s !! k) ∧
        classify_key key s' = Absent
  | Absent =>
      Tool.delete order this memoryPath s = (inl (PathNotFound memoryPath), s)
  end.
Proof.
  intros Horder Hroot Hkey Hglob. rewrite (delete_run _ _ _ _ _ Hroot Hkey).
  unfold classify_key. destruct (s !! key) eqn:Hget; [done|].
  rewrite matching_descendants by done.
  assert (∀ k, k ∈ order (descendants key s) ↔ k ∈ descendants key s) as Hin
    by (intros k; by rewrite Horder).
  destruct (descendants key s) as [|k0 ks] eqn:Hdesc.
  { assert (order [] = []) as -> by (by apply Permutation_nil_r). done. }
  destruct (order (k0 :: ks)) as [|k1 ks1] eqn:Hord.
  { specialize (Horder (k0 :: ks)). rewrite Hord in Horder.
    by apply Permutation_nil_l in Horder. }
  rewrite <-Hord, <-Hdesc in *. clear Hord k1 ks1.
  eexists. split; [done|].
  assert (∀ r, foldr delete s (order (descendants key s)) !! (key +:+ "/" +:+ r)
               = None) as Hgone.
  { intros r. destruct (s !! (key +:+ "/" +:+ r)) eqn:Hr.
    - apply lookup_foldr_delete, Hin, elem_of_descendants. eauto.
    - rewrite lookup_foldr_delete_not_elem_of; [done|].
      intros [[? ?] _]%Hin%elem_of_descendants. congruence. }
  split; [done|]. split.
  - intros k Hk. apply lookup_foldr_delete_not_elem_of.
    intros [_ [r ->]]%Hin%elem_of_descendants. by apply (Hk r).
  - rewrite lookup_foldr_delete_not_elem_of.
    + rewrite Hget. by apply descendants_nil in Hgone as ->.
    + intros [_ [r Hr]]%Hin%elem_of_descendants. by apply key_not_descendant in Hr.
Qed.

Lemma delete_spec_witness :
  ∃ s',
    Tool.delete stored_order default_tool "/memories/src" source_tree =
      (inr "Directory deleted: /memories/src", s') ∧
    (∀ r, s' !! ("memory:/memories/src" +:+ "/" +:+ r) = None) ∧
    (∀ k, (∀ r, k ≠ "memory:/memories/src" +:+ "/" +:+ r) →
          s' !! k = source_tree !! k) ∧
    classify_key "memory:/memories/src" s' = Absent.
Proof.
  pose proof (delete_spec stored_order default_tool "/memories/src"
                "memory:/memories/src" source_tree stored_order_perm) as H.
  assert (classify_key "memory:/memories/src" source_tree = Directory) as Hc
    by (vm_compute; reflexivity).
  rewrite Hc in H. apply H; [discriminate|reflexivity|reflexivity].
Defined.

(** On a key with a wildcard the scan is not that of the subtree: [delete]
    of [/memories/[ab]] removes [/memories/a/y] and keeps
    [/memories/[ab]/x]. *)
Example delete_glob_path :
  Tool.delete stored_order default_tool "/memories/[ab]" bracket_siblings =
    (inr "Directory deleted: /memories/[ab]", bracket_tree).
Proof. vm_compute. reflexivity. Qed.

(** ** Failures *)

Lemma preflight_store (oldKey newKey newPath : string) (keys : list string)
    (s : store) :
  store_after
    (for_of keys (λ key,
       exists_ ← Redis.exists_ (newKey +:+ Js.slice_from (String.length oldKey) key);
       if negb (exists_ =? 0)
       then throw (DestinationExists
                     (newPath +:+ Js.slice_from (String.length oldKey) key))
       else mret ())) s = s.
Proof.
  unfold store_after. induction keys as [|key keys IH]; [done|].
  simpl. unfold mbind, M_bind, Redis.exists_.
  destruct (s !! _); simpl; [done|exact IH].
Qed.

Lemma move_loop_total this (oldKey newKey : string) (keys : list string)
    (s : store) :
  ∃ s',
    for_of keys (λ key,
      fileContent ← Redis.get key;
      match fileContent with
      | Some fileContent =>
          Tool.setWithTtl this
            (newKey +:+ Js.slice_from (String.length oldKey) key) fileContent;;
          Redis.del [key];;
          mret ()
      | None => mret ()
      end) s = (inr (), s').
Proof.
  revert s. induction keys as [|key keys IH]; intros s; [by eexists|].
  simpl. unfold mbind at 1. unfold M_bind at 1.
  unfold mbind at 1. unfold M_bind at 1. unfold Redis.get at 1.
  destruct (s !! key) as [e|]; simpl.
  - unfold mbind at 1. unfold M_bind at 1. rewrite setWithTtl_run.
    unfold mbind at 1. unfold M_bind at 1. unfold Redis.del at 1. simpl.
    apply IH.
  - apply IH.
Qed.

Ltac thrown := unfold throw, mret, M_ret; cbn beta; congruence.

(** X5. Every command that throws leaves the store as it was: no command
    writes before its last check. *)
Theorem failure_leaves_store order this (s s' : store) (e : error) :
  (∀ memoryPath file_text,
     Tool.create this memoryPath file_text s = (inl e, s') → s' = s) ∧
  (∀ memoryPath old_str new_str,
     Tool.str_replace this memoryPath old_str new_str s = (inl e, s') → s' = s) ∧
  (∀ memoryPath insert_line insert_text,
     Tool.insert this memoryPath insert_line insert_text s = (inl e, s') → s' = s) ∧
  (∀ memoryPath view_range,
     Tool.view order this memoryPath view_range s = (inl e, s') → s' = s) ∧
  (∀ memoryPath,
     Tool.delete order this memoryPath s = (inl e, s') → s' = s) ∧
  (∀ oldPath newPath,
     Tool.rename order this oldPath newPath s = (inl e, s') → s' = s).
Proof.
  split; [|split; [|split; [|split; [|split]]]].
  - intros p text. destruct (Tool.pathToKey this p) as [e'|key] eqn:Hkey.
    + rewrite (create_invalid_path _ _ _ _ _ Hkey). thrown.
    + rewrite (create_run _ _ _ _ _ Hkey). destruct (s !! key); thrown.
  - intros p old new. unfold Tool.str_replace, mbind, M_bind, lift, Redis.get.
    destruct (Tool.pathToKey this p) as [e'|key]; [thrown|].
    destruct (value <$> s !! key) as [content|]; [|thrown].
    destruct (_ =? 0); [thrown|]. destruct (_ >? 1); [thrown|].
    by rewrite setWithTtl_run.
  - intros p i text. unfold Tool.insert, mbind, M_bind, lift, Redis.get.
    destruct (Tool.pathToKey this p) as [e'|key]; [thrown|].
    destruct (value <$> s !! key) as [content|]; [|thrown].
    destruct (_ || _); [thrown|]. by rewrite setWithTtl_run.
  - intros p range Hrun.
    destruct (decide (p = "/memories")) as [->|Hroot].
    { pose proof (view_listing_store order this "/memories" range s) as Hs.
      unfold store_after in Hs. rewrite Hrun in Hs. apply Hs. by left. }
    destruct (Tool.pathToKey this p) as [e'|key] eqn:Hkey.
    { revert Hrun. unfold Tool.view.
      destruct (String.eqb_spec p "/memories"); [done|].
      unfold mbind, M_bind, lift. rewrite Hkey. thrown. }
    destruct (s !! key) as [en|] eqn:Hget.
    + destruct (view_file_store order this p key range en s Hroot Hkey Hget)
        as [out Hout]. thrown.
    + pose proof (view_listing_store order this p range s) as Hs.
      unfold store_after in Hs. rewrite Hrun in Hs. apply Hs. right. eauto.
  - intros p. destruct (decide (p = "/memories")) as [->|Hroot].
    { rewrite delete_root. thrown. }
    destruct (Tool.pathToKey this p) as [e'|key] eqn:Hkey.
    { unfold Tool.delete. destruct (String.eqb_spec p "/memories"); [done|].
      unfold mbind, M_bind, lift. rewrite Hkey. thrown. }
    rewrite (delete_run _ _ _ _ _ Hroot Hkey).
    destruct (s !! key); [thrown|]. destruct (order _); thrown.
  - intros oldPath newPath.
    destruct (Tool.pathToKey this oldPath) as [e'|oldKey] eqn:Hold.
    { destruct (rename_invalid_path order this oldPath newPath s) as [e'' ->];
        [left; eauto|thrown]. }
    destruct (Tool.pathToKey this newPath) as [e'|newKey] eqn:Hnew.
    { destruct (rename_invalid_path order this oldPath newPath s) as [e'' ->];
        [right; eauto|thrown]. }
    destruct (s !! oldKey) as [en|] eqn:Hget.
    + rewrite (rename_file_run _ _ _ _ _ _ _ _ Hold Hnew Hget).
      destruct (s !! newKey); thrown.
    + rewrite (rename_directory_run _ _ _ _ _ _ _ Hold Hnew Hget).
      destruct (order _) as [|k ks]; [thrown|].
      unfold mbind at 1. unfold M_bind at 1.
      pose proof (preflight_store oldKey newKey newPath (k :: ks) s) as Hpre.
      unfold store_after in Hpre.
      destruct (for_of (k :: ks) _ s) as [[e'|[]] s1]; simpl in Hpre; subst s1;
        [thrown|].
      unfold mbind at 1. unfold M_bind at 1.
      destruct (move_loop_total this oldKey newKey (k :: ks) s) as [s2 ->].
      done.
Qed.

Lemma failure_leaves_store_witness :
  store_after (Tool.create default_tool "/memories/f" "b") one_line_file
    = one_line_file.
Proof.
  destruct (failure_leaves_store stored_order default_tool one_line_file
              (store_after (Tool.create default_tool "/memories/f" "b") one_line_file)
              (FileAlreadyExists "/memories/f")) as [Hcreate _].
  apply (Hcreate "/memories/f" "b"). vm_compute. reflexivity.
Defined.

(** X6. A path that does not begin with [/memories] is rejected by every
    command with the invalid-path error, before the store is read; in
    [rename] the old path is checked first. *)
Theorem invalid_path_rejected order this (path : string) (s : store) :
  Js.startsWith path "/memories" = false →
  (∀ file_text,
     Tool.create this path file_text s = (inl (InvalidPath path), s)) ∧
  (∀ old_str new_str,
     Tool.str_replace this path old_str new_str s = (inl (InvalidPath path), s)) ∧
  (∀ insert_line insert_text,
     Tool.insert this path insert_line insert_text s = (inl (InvalidPath path), s)) ∧
  (∀ view_range,
     Tool.view order this path view_range s = (inl (InvalidPath path), s)) ∧
  Tool.delete order this path s = (inl (InvalidPath path), s) ∧
  (∀ newPath,
     Tool.rename order this path newPath s = (inl (InvalidPath path), s)) ∧
  (∀ oldPath,
     Js.startsWith oldPath "/memories" = true →
     Tool.rename order this oldPath path s = (inl (InvalidPath path), s)).
Proof.
  intros Hstart.
  assert (Tool.pathToKey this path = inl (InvalidPath path)) as Hkey
    by (unfold Tool.pathToKey; by rewrite Hstart).
  assert (path ≠ "/memories") as Hroot by (by intros ->).
  split; [by intros; apply create_invalid_path|].
  split; [intros; unfold Tool.str_replace, mbind, M_bind, lift; by rewrite Hkey|].
  split; [intros; unfold Tool.insert, mbind, M_bind, lift; by rewrite Hkey|].
  split.
  { intros. unfold Tool.view. destruct (String.eqb_spec path "/memories"); [done|].
    unfold mbind, M_bind, lift. by rewrite Hkey. }
  split.
  { unfold Tool.delete. destruct (String.eqb_spec path "/memories"); [done|].
    unfold mbind, M_bind, lift. by rewrite Hkey. }
  split.
  { intros. unfold Tool.rename, mbind, M_bind, lift. by rewrite Hkey. }
  intros oldPath Hold. unfold Tool.rename, mbind, M_bind, lift. rewrite Hkey.
  unfold Tool.pathToKey. by rewrite Hold.
Qed.

Lemma invalid_path_rejected_witness :
  Tool.delete stored_order default_tool "/etc/passwd" one_file_store =
    (inl (InvalidPath "/etc/passwd"), one_file_store).
Proof.
  destruct (invalid_path_rejected stored_order default_tool "/etc/passwd"
              one_file_store eq_refl) as (_ & _ & _ & _ & Hdelete & _).
  exact Hdelete.
Defined.

Lemma create_local this (memoryPath key file_text : string) (s : store) k :
  Tool.pathToKey this memoryPath = inr key → k ≠ key →
  store_after (Tool.create this memoryPath file_text) s !! k = s !! k.
Proof.
  intros Hkey Hk. unfold store_after. rewrite (create_run _ _ _ _ _ Hkey).
  destruct (s !! key); [done|]. simpl. by rewrite lookup_insert_ne.
Qed.

Lemma str_replace_local this (memoryPath key old_str new_str : string)
    (s : store) k :
  Tool.pathToKey this memoryPath = inr key → k ≠ key →
  store_after (Tool.str_replace this memoryPath old_str new_str) s !! k = s !! k.
Proof.
  intros Hkey Hk. unfold store_after.
  destruct (value <$> s !! key) as [content|] eqn:Hget.
  - rewrite (str_replace_run _ _ _ _ _ _ _ Hkey Hget). cbv zeta.
    destruct (_ =? 0); [done|]. destruct (_ >? 1); [done|].
    simpl. by rewrite lookup_insert_ne.
  - unfold Tool.str_replace, mbind, M_bind, lift, Redis.get.
    by rewrite Hkey, Hget.
Qed.

Lemma insert_local this (memoryPath key : string) insert_line
    (insert_text : string) (s : store) k :
  Tool.pathToKey this memoryPath = inr key → k ≠ key →
  store_after (Tool.insert this memoryPath insert_line insert_text) s !! k
    = s !! k.
Proof.
  intros Hkey Hk. unfold store_after.
  destruct (value <$> s !! key) as [content|] eqn:Hget.
  - rewrite (insert_run _ _ _ _ _ _ _ Hkey Hget). cbv zeta.
    destruct (_ || _); [done|]. simpl. by rewrite lookup_insert_ne.
  - unfold Tool.insert, mbind, M_bind, lift, Redis.get. by rewrite Hkey, Hget.
Qed.

Lemma view_local order this (memoryPath key : string) view_range (s : store) k :
  Tool.pathToKey this memoryPath = inr key → k ≠ key →
  store_after (Tool.view order this memoryPath view_range) s !! k = s !! k.
Proof.
  intros Hkey Hk.
  destruct (decide (memoryPath = "/memories")) as [->|Hroot].
  { by rewrite view_listing_store by (by left). }
  destruct (s !! key) as [e|] eqn:Hget.
  - destruct (view_file_store order this _ _ view_range _ _ Hroot Hkey Hget)
      as [out Hrun].
    unfold store_after. rewrite Hrun. simpl.
    destruct (ttl_in_force this); [|done]. by rewrite lookup_insert_ne.
  - by rewrite view_listing_store by (right; eauto).
Qed.

(** X7. [create], [str_replace], [insert] and [view] touch at most the
    entry of the path they are given: every other key is as it was,
    whatever the outcome.  [str_replace] and [insert] never create that
    entry: without one, a directory included, both fail with the
    file-not-found error and the store is as it was. *)
Theorem edits_are_local order this (memoryPath key : string) (s : store) :
  Tool.pathToKey this memoryPath = inr key →
  (∀ k, k ≠ key →
     (∀ file_text,
        store_after (Tool.create this memoryPath file_text) s !! k = s !! k) ∧
     (∀ old_str new_str,
        store_after (Tool.str_replace this memoryPath old_str new_str) s !! k
          = s !! k) ∧
     (∀ insert_line insert_text,
        store_after (Tool.insert this memoryPath insert_line insert_text) s !! k
          = s !! k) ∧
     (∀ view_range,
        store_after (Tool.view order this memoryPath view_range) s !! k = s !! k)) ∧
  (s !! key = None →
     (∀ old_str new_str,
        Tool.str_replace this memoryPath old_str new_str s =
          (inl (FileNotFound memoryPath), s)) ∧
     (∀ insert_line insert_text,
        Tool.insert this memoryPath insert_line insert_text s =
          (inl (FileNotFound memoryPath), s))).
Proof.
  intros Hkey. split.
  - intros k Hk. split; [by intros; apply (create_local this _ key)|].
    split; [by intros; apply (str_replace_local this _ key)|].
    split; [by intros; apply (insert_local this _ key)|].
    by intros; apply (view_local order this _ key).
  - intros Hnone. split; intros.
    + unfold Tool.str_replace, mbind, M_bind, lift, Redis.get.
      by rewrite Hkey, Hnone.
    + unfold Tool.insert, mbind, M_bind, lift, Redis.get. by rewrite Hkey, Hnone.
Qed.

Lemma edits_are_local_witness :
  Tool.insert default_tool "/memories/d" 0 "x" one_file_store =
    (inl (FileNotFound "/memories/d"), one_file_store) ∧
  store_after (Tool.create default_tool "/memories/d" "x") one_file_store
    !! "memory:/memories/d/x" = one_file_store !! "memory:/memories/d/x".
Proof.
  destruct (edits_are_local stored_order default_tool "/memories/d"
              "memory:/memories/d" one_file_store eq_refl) as [Hlocal Hmissing].
  split.
  - destruct Hmissing as [_ Hinsert]; [vm_compute; reflexivity|]. apply Hinsert.
  - destruct (Hlocal "memory:/memories/d/x") as [Hcreate _]; [discriminate|].
    apply Hcreate.
Defined.

(** ** The namespace of a tool *)

Lemma pathToKey_in_namespace this (path key : string) :
  Tool.pathToKey this path = inr key → in_namespace this key = true.
Proof.
  unfold Tool.pathToKey, in_namespace.
  destruct (Js.startsWith path "/memories") eqn:Hstart; [|done]. simpl.
  intros [= <-]. apply normalized_startsWith in Hstart.
  apply startsWith_spec in Hstart as [r ->].
  change (":/memories") with (":" +:+ "/memories").
  rewrite <-!app_assoc_str. apply startsWith_app.
Qed.

Lemma in_namespace_app this (key x : string) :
  in_namespace this key = true → in_namespace this (key +:+ x) = true.
Proof. apply startsWith_app_l. Qed.

Lemma same_outside_refl this (s : store) : same_outside this s s.
Proof. by intros k Hk. Qed.

Lemma same_outside_trans this (s1 s2 s3 : store) :
  same_outside this s1 s2 → same_outside this s2 s3 → same_outside this s1 s3.
Proof. intros H12 H23 k Hk. by rewrite H23, H12. Qed.

Lemma same_outside_insert this (s : store) (key : string) e :
  in_namespace this key = true → same_outside this s (<[key := e]> s).
Proof. intros Hkey k Hk. apply lookup_insert_ne. congruence. Qed.

Lemma same_outside_delete this (s : store) (key : string) :
  in_namespace this key = true → same_outside this s (delete key s).
Proof. intros Hkey k Hk. apply lookup_delete_ne. congruence. Qed.

Lemma same_outside_foldr_delete this (s : store) (keys : list string) :
  (∀ k, k ∈ keys → in_namespace this k = true) →
  same_outside this s (foldr delete s keys).
Proof.
  intros Hkeys k Hk. apply lookup_foldr_delete_not_elem_of.
  intros Hin. apply Hkeys in Hin. congruence.
Qed.

Lemma bind_same_outside {A B} this (m : M A) (f : A → M B) (s : store) :
  same_outside this s (store_after m s) →
  (∀ x s1, same_outside this s1 (store_after (f x) s1)) →
  same_outside this s (store_after (m ≫= f) s).
Proof.
  unfold store_after, mbind, M_bind. intros Hm Hf.
  destruct (m s) as [[e|x] s1]; simpl in *; [done|].
  eapply same_outside_trans; [exact Hm|apply Hf].
Qed.

Lemma for_of_same_outside {A} this (l : list A) (body : A → M unit) (s : store) :
  (∀ x, x ∈ l → ∀ s1, same_outside this s1 (store_after (body x) s1)) →
  same_outside this s (store_after (for_of l body) s).
Proof.
  revert s. induction l as [|x l IH]; intros s Hbody.
  { apply same_outside_refl. }
  simpl. apply bind_same_outside; [apply Hbody; left|].
  intros _ s1. apply IH. intros y Hy. apply Hbody. by right.
Qed.

Lemma local_same_outside this (key : string) (s s' : store) :
  in_namespace this key = true →
  (∀ k, k ≠ key → s' !! k = s !! k) → same_outside this s s'.
Proof. intros Hkey Hlocal k Hk. apply Hlocal. congruence. Qed.

(** X8. No command of a tool whose key prefix holds no wildcard reads its
    way out of its namespace to write: a key that does not begin with the
    key prefix followed by [:/memories] is as it was after every command,
    whatever the path (wildcards in it included) and whatever the
    outcome. *)
Theorem namespace_frame order this (s : store) :
  glob_free (keyPrefix this) = true →
  (∀ l, order l ≡ₚ l) →
  (∀ memoryPath file_text,
     same_outside this s (store_after (Tool.create this memoryPath file_text) s)) ∧
  (∀ memoryPath old_str new_str,
     same_outside this s
       (store_after (Tool.str_replace this memoryPath old_str new_str) s)) ∧
  (∀ memoryPath insert_line insert_text,
     same_outside this s
       (store_after (Tool.insert this memoryPath insert_line insert_text) s)) ∧
  (∀ memoryPath view_range,
     same_outside this s
       (store_after (Tool.view order this memoryPath view_range) s)) ∧
  (∀ memoryPath,
     same_outside this s (store_after (Tool.delete order this memoryPath) s)) ∧
  (∀ oldPath newPath,
     same_outside this s
       (store_after (Tool.rename order this oldPath newPath) s)) ∧
  same_outside this s (store_after (Tool.clearAll order this) s).
Proof.
  intros Hglob Horder.
  assert (∀ key s1 k, in_namespace this key = true →
            k ∈ order (Redis.matching (key +:+ "/*") s1) →
            in_namespace this k = true)
    as Hscan.
  { intros key s1 k [x ->]%startsWith_spec.
    rewrite Horder, (app_assoc_str (keyPrefix this +:+ ":/memories") x "/*").
    apply matching_head. by rewrite glob_free_app, Hglob. }
  split; [|split; [|split; [|split; [|split; [|split]]]]].
  - intros p text. destruct (Tool.pathToKey this p) as [e|key] eqn:Hkey.
    + unfold store_after. rewrite (create_invalid_path _ _ _ _ _ Hkey).
      apply same_outside_refl.
    + apply (local_same_outside this key);
        [by eapply pathToKey_in_namespace|].
      intros k Hk. by apply (create_local this p key).
  - intros p old new. destruct (Tool.pathToKey this p) as [e|key] eqn:Hkey.
    + unfold store_after, Tool.str_replace, mbind, M_bind, lift. rewrite Hkey.
      apply same_outside_refl.
    + apply (local_same_outside this key);
        [by eapply pathToKey_in_namespace|].
      intros k Hk. by apply (str_replace_local this p key).
  - intros p i text. destruct (Tool.pathToKey this p) as [e|key] eqn:Hkey.
    + unfold store_after, Tool.insert, mbind, M_bind, lift. rewrite Hkey.
      apply same_outside_refl.
    + apply (local_same_outside this key);
        [by eapply pathToKey_in_namespace|].
      intros k Hk. by apply (insert_local this p key).
  - intros p range. destruct (Tool.pathToKey this p) as [e|key] eqn:Hkey.
    + assert (p ≠ "/memories") as Hroot by (by intros ->).
      unfold store_after, Tool.view.
      destruct (String.eqb_spec p "/memories"); [done|].
      unfold mbind, M_bind, lift. rewrite Hkey. apply same_outside_refl.
    + apply (local_same_outside this key);
        [by eapply pathToKey_in_namespace|].
      intros k Hk. by apply (view_local order this p key).
  - intros p. unfold store_after.
    destruct (decide (p = "/memories")) as [->|Hroot].
    { rewrite delete_root. apply same_outside_refl. }
    destruct (Tool.pathToKey this p) as [e|key] eqn:Hkey.
    { unfold Tool.delete. destruct (String.eqb_spec p "/memories"); [done|].
      unfold mbind, M_bind, lift. rewrite Hkey. apply same_outside_refl. }
    pose proof (pathToKey_in_namespace _ _ _ Hkey) as Hns.
    rewrite (delete_run _ _ _ _ _ Hroot Hkey).
    destruct (s !! key); [by apply same_outside_delete|].
    destruct (order (Redis.matching (key +:+ "/*") s)) as [|k ks] eqn:Hord;
      [apply same_outside_refl|].
    apply same_outside_foldr_delete. intros k' Hk'. apply (Hscan key s); [done|].
    by rewrite Hord.
  - intros oldPath newPath.
    destruct (Tool.pathToKey this oldPath) as [e|oldKey] eqn:Hold.
    { destruct (rename_invalid_path order this oldPath newPath s) as [e' Hrun];
        [left; eauto|].
      unfold store_after. rewrite Hrun. apply same_outside_refl. }
    destruct (Tool.pathToKey this newPath) as [e|newKey] eqn:Hnew.
    { destruct (rename_invalid_path order this oldPath newPath s) as [e' Hrun];
        [right; eauto|].
      unfold store_after. rewrite Hrun. apply same_outside_refl. }
    pose proof (pathToKey_in_namespace _ _ _ Hold) as Hnsold.
    pose proof (pathToKey_in_namespace _ _ _ Hnew) as Hnsnew.
    destruct (s !! oldKey) as [e|] eqn:Hget.
    + unfold store_after. rewrite (rename_file_run _ _ _ _ _ _ _ _ Hold Hnew Hget).
      destruct (s !! newKey); [apply same_outside_refl|]. simpl.
      eapply same_outside_trans;
        [by apply same_outside_insert|by apply same_outside_delete].
    + unfold store_after. rewrite (rename_directory_run _ _ _ _ _ _ _ Hold Hnew Hget).
      destruct (order (Redis.matching (oldKey +:+ "/*") s)) as [|k ks] eqn:Hord;
        [apply same_outside_refl|].
      apply bind_same_outside.
      { rewrite preflight_store. apply same_outside_refl. }
      intros _ s1. apply bind_same_outside; [|intros; apply same_outside_refl].
      apply for_of_same_outside. intros key Hkey s2.
      assert (in_namespace this key = true) as Hnskey.
      { apply (Hscan oldKey s); [done|]. by rewrite Hord. }
      apply bind_same_outside; [apply same_outside_refl|].
      intros [fileContent|] s3; [|apply same_outside_refl].
      apply bind_same_outside.
      { unfold store_after. rewrite setWithTtl_run.
        by apply same_outside_insert, in_namespace_app. }
      intros _ s4. apply bind_same_outside; [by apply same_outside_delete|].
      intros; apply same_outside_refl.
  - unfold store_after, Tool.clearAll.
    replace (keyPrefix this +:+ ":/memories/*")
      with ((keyPrefix this +:+ ":/memories") +:+ "/*")
      by (by rewrite app_assoc_str).
    unfold mbind at 1. unfold M_bind at 1. unfold Redis.keys at 1.
    destruct (order _) as [|k ks] eqn:Hord; [apply same_outside_refl|].
    apply bind_same_outside; [|intros; apply same_outside_refl].
    apply same_outside_foldr_delete. intros k' Hk'.
    apply (Hscan (keyPrefix this +:+ ":/memories") s); [|by rewrite Hord].
    unfold in_namespace. apply startsWith_spec. exists "".
    by rewrite app_empty_r.
Qed.

Lemma namespace_frame_witness :
  store_after (Tool.clearAll stored_order default_tool) two_tenants
    !! "other:/memories/x" = Some (Entry "theirs" None).
Proof.
  destruct (namespace_frame stored_order default_tool two_tenants eq_refl
              stored_order_perm)
    as (_ & _ & _ & _ & _ & _ & Hclear).
  rewrite (Hclear "other:/memories/x"); reflexivity.
Defined.

(** With the key prefix [m*] the scan of [clearAll] reports the keys of the
    default tool, and they are deleted. *)
Example clearAll_glob_prefix :
  in_namespace star_tool "memory:/memories/d/x" = false ∧
  one_file_store !! "memory:/memories/d/x" = Some (Entry "1" None) ∧
  Tool.clearAll stored_order star_tool one_file_store = (inr (), ∅).
Proof. repeat split; vm_compute; reflexivity. Qed.

Lemma app_prefix_cases (a x b y : string) :
  a +:+ x = b +:+ y →
  (∃ c, b = a +:+ c ∧ x = c +:+ y) ∨ (∃ c, a = b +:+ c ∧ y = c +:+ x).
Proof.
  revert b. induction a as [|a0 a IH]; intros b.
  { rewrite app_empty_l. intros ->. left. by exists b. }
  destruct b as [|b0 b].
  { rewrite app_empty_l. intros <-. right. by exists (String a0 a). }
  rewrite !app_cons. intros [= -> Heq].
  destruct (IH b Heq) as [(c & -> & ->)|(c & -> & ->)]; [left|right]; by exists c.
Qed.

(** A key prefix is never cut inside [:/memories]: if [:/memories] and what
    follows it begins with a non-empty [c] followed by [:/memories], then
    [c] itself begins with [:/memories]. *)
Lemma root_marker_overlap (c x y : string) :
  c ≠ "" → ":/memories" +:+ x = c +:+ ":/memories" +:+ y →
  ∃ d, c = ":/memories" +:+ d.
Proof.
  intros Hc Heq.
  change (":/memories" +:+ x)
    with (String ":" (String "/" (String "m" (String "e" (String "m" (String "o"
           (String "r" (String "i" (String "e" (String "s" x)))))))))) in Heq.
  change (":/memories" +:+ y)
    with (String ":" (String "/" (String "m" (String "e" (String "m" (String "o"
           (String "r" (String "i" (String "e" (String "s" y)))))))))) in Heq.
  destruct c as [|c0 c]; [done|]. rewrite app_cons in Heq. injection Heq as <- Heq.
  do 9 (destruct c as [|? c];
        [rewrite app_empty_l in Heq; discriminate|
         rewrite app_cons in Heq; injection Heq as <- Heq]).
  by exists c.
Qed.

(** X9. Two tools whose key prefixes differ and do not themselves hold
    [:/memories] have disjoint namespaces: no key belongs to both, so no
    path of one tool has the key of a path of the other. *)
Theorem namespaces_disjoint (t1 t2 : RedisMemoryTool) :
  keyPrefix t1 ≠ keyPrefix t2 →
  free_of ":/memories" (keyPrefix t1) →
  free_of ":/memories" (keyPrefix t2) →
  (∀ k, in_namespace t1 k = true → in_namespace t2 k = false) ∧
  (∀ p q k1 k2,
     Tool.pathToKey t1 p = inr k1 → Tool.pathToKey t2 q = inr k2 → k1 ≠ k2).
Proof.
  intros Hne Hfree1 Hfree2.
  assert (∀ k, in_namespace t1 k = true → in_namespace t2 k = false) as Hdisj.
  { intros k [x Hx]%startsWith_spec.
    destruct (in_namespace t2 k) eqn:H2; [|done].
    apply startsWith_spec in H2 as [y Hy]. rewrite Hx in Hy.
    rewrite !app_assoc_str in Hy.
    destruct (app_prefix_cases _ _ _ _ Hy) as [(c & Hc & Heq)|(c & Hc & Heq)].
    - destruct (root_marker_overlap c x y) as [d ->]; [|done|].
      { intros ->. rewrite app_empty_r in Hc. congruence. }
      destruct Hfree2. exists (keyPrefix t1), d. by rewrite Hc.
    - destruct (root_marker_overlap c y x) as [d ->]; [|done|].
      { intros ->. rewrite app_empty_r in Hc. congruence. }
      destruct Hfree1. exists (keyPrefix t2), d. by rewrite Hc. }
  split; [done|].
  intros p q k1 k2 H1%pathToKey_in_namespace H2%pathToKey_in_namespace <-.
  apply Hdisj in H1. congruence.
Qed.

Lemma namespaces_disjoint_witness :
  in_namespace default_tool "memory:/memories/a" = true ∧
  in_namespace ttl_tool "memory:/memories/a" = false.
Proof.
  split; [reflexivity|].
  destruct (namespaces_disjoint default_tool ttl_tool) as [Hdisj _];
    [discriminate|by apply indexOf_None_free..|].
  by apply Hdisj.
Defined.

(** The premise on the prefixes is needed: an agent context that holds
    [:/memories] shares keys with the tool of the shorter prefix. *)
Example namespaces_collide :
  Tool.pathToKey
    (constructor {| config_keyPrefix := None; config_ttl := None;
                    config_agentContext := Some "a:/memories/b" |})
    "/memories/c"
  = Tool.pathToKey
      (constructor {| config_keyPrefix := None; config_ttl := None;
                      config_agentContext := Some "a" |})
      "/memories/b:/memories/c".
Proof. reflexivity. Qed.

(** ** [clearAll] and [getAllPaths] *)

Lemma root_scan order this (s : store) :
  glob_free (keyPrefix this) = true →
  Redis.keys order (keyPrefix this +:+ ":/memories/*") s =
    (inr (order (descendants (keyPrefix this +:+ ":/memories") s)), s).
Proof.
  intros Hglob.
  replace (keyPrefix this +:+ ":/memories/*")
    with ((keyPrefix this +:+ ":/memories") +:+ "/*")
    by (by rewrite app_assoc_str).
  apply keys_run. by rewrite glob_free_app, Hglob.
Qed.

(** X10. [clearAll] of a tool whose key prefix holds no wildcard never
    fails; afterwards no key lies below the root of the tool, every other
    key is as it was (an entry at the key of the root itself included), and
    [view] of the root reports the empty directory. *)
Theorem clearAll_spec order this (s : store) :
  glob_free (keyPrefix this) = true →
  (∀ l, order l ≡ₚ l) →
  let root := keyPrefix this +:+ ":/memories" in
  ∃ s',
    Tool.clearAll order this s = (inr (), s') ∧
    (∀ r, s' !! (root +:+ "/" +:+ r) = None) ∧
    (∀ k, (∀ r, k ≠ root +:+ "/" +:+ r) → s' !! k = s !! k) ∧
    s' !! root = s !! root ∧
    Tool.view order this "/memories" None s' =
      (inr ("Directory: /memories" +:+ LF +:+ "(empty)"), s').
Proof.
  intros Hglob Horder root.
  assert (∀ k, k ∈ order (descendants root s) ↔ k ∈ descendants root s) as Hin
    by (intros k; by rewrite Horder).
  exists (foldr delete s (order (descendants root s))).
  assert (∀ r, foldr delete s (order (descendants root s)) !! (root +:+ "/" +:+ r)
               = None) as Hgone.
  { intros r. destruct (s !! (root +:+ "/" +:+ r)) eqn:Hr.
    - apply lookup_foldr_delete, Hin, elem_of_descendants. eauto.
    - rewrite lookup_foldr_delete_not_elem_of; [done|].
      intros [[? ?] _]%Hin%elem_of_descendants. congruence. }
  assert (∀ k, (∀ r, k ≠ root +:+ "/" +:+ r) →
               foldr delete s (order (descendants root s)) !! k = s !! k) as Hkeep.
  { intros k Hk. apply lookup_foldr_delete_not_elem_of.
    intros [_ [r ->]]%Hin%elem_of_descendants. by apply (Hk r). }
  split.
  { unfold Tool.clearAll. unfold mbind at 1. unfold M_bind at 1.
    rewrite root_scan by done. fold root.
    by destruct (order (descendants root s)). }
  split; [done|]. split; [done|].
  split; [apply Hkeep; intros r; apply key_not_descendant|].
  unfold Tool.view. change ("/memories" =? "/memories")%string with true.
  cbv iota. unfold mbind at 1. unfold M_bind at 1. rewrite root_scan by done.
  fold root. apply descendants_nil in Hgone. rewrite Hgone.
  by assert (order [] = []) as -> by (by apply Permutation_nil_r).
Qed.

Lemma clearAll_spec_witness :
  ∃ s',
    Tool.clearAll stored_order default_tool hidden_files = (inr (), s') ∧
    s' !! "memory:/memories/a" = None ∧
    s' !! "memory:/memories" = Some (Entry "root" None) ∧
    s' !! "memory:/memories-old/b" = Some (Entry "old" None).
Proof.
  destruct (clearAll_spec stored_order default_tool hidden_files eq_refl
              stored_order_perm)
    as (s' & Hrun & Hgone & Hkeep & Hroot & _).
  exists s'. split; [exact Hrun|]. split; [exact (Hgone "a")|].
  split; [etrans; [exact Hroot|vm_compute; reflexivity]|].
  etrans; [apply Hkeep|vm_compute; reflexivity].
  intros r. discriminate.
Defined.

Lemma keyToPath_inj_on_scan this (s : store) (k1 k2 : string) :
  k1 ∈ descendants (keyPrefix this +:+ ":/memories") s →
  k2 ∈ descendants (keyPrefix this +:+ ":/memories") s →
  Tool.keyToPath this k1 = Tool.keyToPath this k2 → k1 = k2.
Proof.
  intros [_ [r1 ->]]%elem_of_descendants [_ [r2 ->]]%elem_of_descendants.
  replace ((keyPrefix this +:+ ":/memories") +:+ "/" +:+ r1)
    with (keyPrefix this +:+ ":" +:+ "/memories/" +:+ r1)
    by (by rewrite !app_assoc_str).
  replace ((keyPrefix this +:+ ":/memories") +:+ "/" +:+ r2)
    with (keyPrefix this +:+ ":" +:+ "/memories/" +:+ r2)
    by (by rewrite !app_assoc_str).
  rewrite !keyToPath_key. by intros ->.
Qed.

(** X11. [getAllPaths] of a tool whose key prefix holds no wildcard never
    fails and leaves the store as it is; it returns, sorted and without
    duplicates, the paths [/memories/r] whose key (the key prefix, a colon,
    the path) has an entry.  Entries at the key of the root itself, or at a
    key such as that of [/memories-old/b], are not reported. *)
Theorem getAllPaths_spec order this (s : store) :
  glob_free (keyPrefix this) = true →
  (∀ l, order l ≡ₚ l) →
  ∃ paths,
    Tool.getAllPaths order this s = (inr paths, s) ∧
    Sorted String.le paths ∧ NoDup paths ∧
    ∀ p, p ∈ paths ↔
         is_Some (s !! (keyPrefix this +:+ ":" +:+ p)) ∧
         ∃ r, p = "/memories/" +:+ r.
Proof.
  intros Hglob Horder. set (root := keyPrefix this +:+ ":/memories").
  exists (sort_strings (Tool.keyToPath this <$> order (descendants root s))).
  split.
  { unfold Tool.getAllPaths. unfold mbind at 1. unfold M_bind at 1.
    by rewrite root_scan. }
  split; [apply Sorted_merge_sort, _|].
  assert (∀ r, root +:+ "/" +:+ r = keyPrefix this +:+ ":" +:+ "/memories/" +:+ r)
    as Hkey by (intros r; unfold root; by rewrite !app_assoc_str).
  split.
  - unfold sort_strings. rewrite merge_sort_Permutation, Horder.
    apply NoDup_fmap_2_strong; [|apply NoDup_descendants].
    intros k1 k2 ? ?. by apply (keyToPath_inj_on_scan this s).
  - intros p. unfold sort_strings.
    rewrite merge_sort_Permutation, Horder, list_elem_of_fmap. split.
    + intros (k & -> & [Hsome [r ->]]%elem_of_descendants).
      rewrite Hkey, keyToPath_key. rewrite Hkey in Hsome. eauto.
    + intros [Hsome [r ->]]. exists (root +:+ "/" +:+ r).
      split; [by rewrite Hkey, keyToPath_key|].
      apply elem_of_descendants. rewrite Hkey. eauto.
Qed.

Lemma getAllPaths_spec_witness :
  ∃ paths,
    Tool.getAllPaths stored_order default_tool hidden_files
      = (inr paths, hidden_files) ∧
    "/memories/a" ∈ paths ∧ ("/memories" ∉ paths) ∧ ("/memories-old/b" ∉ paths).
Proof.
  destruct (getAllPaths_spec stored_order default_tool hidden_files eq_refl
              stored_order_perm)
    as (paths & Hrun & _ & _ & Hin).
  exists paths. split; [exact Hrun|]. split; [|split].
  - apply Hin. split; [vm_compute; eauto|by exists "a"].
  - intros [_ [r Hr]]%Hin. discriminate.
  - intros [_ [r Hr]]%Hin. discriminate.
Defined.

(** With the key prefix [m*] the scan reports the keys of the default tool,
    and the slice by the length of the prefix is not a path. *)
Example getAllPaths_glob_prefix :
  Tool.getAllPaths stored_order star_tool one_file_store =
    (inr ["ory:/memories/d/x"], one_file_store).
Proof. vm_compute. reflexivity. Qed.

(** ** [view] of a directory *)

Lemma squeeze_trailing b (s : string) :
  ends_in_run b s = true →
  (b = true ∧ Js.squeeze_runs "/" b s = "") ∨
  ∃ q, Js.squeeze_runs "/" b s = q +:+ "/".
Proof.
  revert b. induction s as [|a s IH]; intros b; simpl.
  { intros ->. by left. }
  destruct (Ascii.eqb_spec a "/") as [->|Hne]; intros Hend.
  - destruct (IH true Hend) as [[_ Hempty]|[q Hq]].
    + destruct b; [by left|]. right. exists "". by rewrite Hempty.
    + destruct b; [right; by exists q|].
      right. exists (String "/" q). by rewrite Hq.
  - destruct (IH false Hend) as [[? _]|[q Hq]]; [done|].
    right. exists (String a q). by rewrite Hq.
Qed.

(** The key of a direct child of a directory. *)
Lemma pathToKey_child this (memoryPath key seg : string) :
  Tool.pathToKey this memoryPath = inr key →
  seg ≠ "" → free_of "/" seg →
  Tool.pathToKey this (memoryPath +:+ "/" +:+ seg) = inr (key +:+ "/" +:+ seg).
Proof.
  unfold Tool.pathToKey.
  destruct (Js.startsWith memoryPath "/memories") eqn:Hstart; [|done].
  rewrite startsWith_app_l by done. cbn [negb].
  intros [= <-] Hne Hfree.
  rewrite !app_assoc_str. do 3 f_equal.
  rewrite squeeze_app.
  change ("/" +:+ seg) with (String "/" seg). simpl.
  rewrite (squeeze_free true seg) by done.
  destruct (ends_in_run false memoryPath) eqn:Hend.
  - destruct (squeeze_trailing false memoryPath Hend) as [[? _]|[q ->]]; [done|].
    rewrite strip_last_snoc.
    by rewrite strip_last_segment, app_assoc_str.
  - rewrite (strip_last_other "/" (Js.squeeze_runs "/" false memoryPath))
      by (by apply squeeze_no_trailing).
    replace (Js.squeeze_runs "/" false memoryPath +:+ String "/" seg)
      with ((Js.squeeze_runs "/" false memoryPath +:+ "/") +:+ seg)
      by (by rewrite app_assoc_str).
    by rewrite strip_last_segment, app_assoc_str.
Qed.

Lemma view_no_entry_run order this (memoryPath key : string) view_range
    (s : store) :
  memoryPath ≠ "/memories" →
  Tool.pathToKey this memoryPath = inr key →
  glob_free key = true →
  s !! key = None →
  Tool.view order this memoryPath view_range s =
    match order (descendants key s) with
    | [] => (inl (PathNotFound memoryPath), s)
    | keys =>
        (children ← Tool.collect_children this (key +:+ "/") memoryPath keys [];
         mret ("Directory: " +:+ memoryPath +:+ LF
               +:+ bullet_list (sort_strings children))) s
    end.
Proof.
  intros Hroot Hkey Hglob Hnone. unfold Tool.view.
  destruct (String.eqb_spec memoryPath "/memories") as [|_]; [done|].
  unfold mbind at 1. unfold M_bind at 1. unfold lift at 1. rewrite Hkey.
  unfold mbind at 1. unfold M_bind at 1. unfold Redis.get at 1. rewrite Hnone.
  change (value <$> None) with (@None string). cbv iota.
  unfold mbind at 1. unfold M_bind at 1. rewrite keys_run by done.
  by destruct (order (descendants key s)).
Qed.

(** X12. [view] of a path other than the literal root that has no entry of
    its own and whose key holds no wildcard: without entries below it, the
    not-found error; otherwise, under a header that repeats the path as it
    was given, one line per child, a dash, a space and the item, the items
    sorted and without duplicates, a child with an entry of its own listed
    by its name and any other followed by the separator.  The store is as
    it was. *)
Theorem view_directory order this (memoryPath key : string) view_range
    (s : store) :
  (∀ l, order l ≡ₚ l) →
  memoryPath ≠ "/memories" →
  Tool.pathToKey this memoryPath = inr key →
  glob_free key = true →
  s !! key = None →
  match descendants key s with
  | [] =>
      Tool.view order this memoryPath view_range s =
        (inl (PathNotFound memoryPath), s)
  | _ =>
      ∃ items rendered,
        Tool.view order this memoryPath view_range s =
          (inr ("Directory: " +:+ memoryPath +:+ LF +:+ Js.join rendered LF), s) ∧
        length rendered = length items ∧
        (∀ i item, items !! i = Some item →
                   rendered !! i = Some ("- " +:+ item)) ∧
        Sorted String.le items ∧ NoDup items ∧
        ∀ item, item ∈ items ↔ listed_child key s item
  end.
Proof.
  intros Horder Hroot Hkey Hglob Hnone.
  rewrite (view_no_entry_run _ _ _ _ _ _ Hroot Hkey Hglob Hnone).
  destruct (descendants key s) as [|k0 ks] eqn:Hdesc.
  { by assert (order [] = []) as -> by (by apply Permutation_nil_r). }
  destruct (order (k0 :: ks)) as [|k1 ks1] eqn:Hord.
  { specialize (Horder (k0 :: ks)). rewrite Hord in Horder.
    by apply Permutation_nil_l in Horder. }
  destruct (collect_children_spec this key memoryPath s
              (λ seg, pathToKey_child this memoryPath key seg Hkey) (k1 :: ks1) [])
    as (children & Hrun & Hnd & Hin).
  unfold mbind, M_bind. rewrite Hrun.
  exists (sort_strings children), ((λ item, "- " +:+ item) <$> sort_strings children).
  split; [done|]. split; [by rewrite length_fmap|].
  split; [by intros i item Hi; rewrite list_lookup_fmap, Hi|].
  split; [apply Sorted_merge_sort, _|]. split.
  { unfold sort_strings. rewrite merge_sort_Permutation. apply Hnd, NoDup_nil_2. }
  intros item. unfold sort_strings. rewrite merge_sort_Permutation, Hin.
  rewrite <-Hord, <-Hdesc, (contributes_listed order) by done.
  split; [intros [Hnil|?]; [by apply not_elem_of_nil in Hnil|done]|by right].
Qed.

Lemma view_directory_witness :
  (∃ items rendered,
     Tool.view stored_order default_tool "/memories//src/" None source_tree =
       (inr ("Directory: " +:+ "/memories//src/" +:+ LF +:+ Js.join rendered LF),
        source_tree) ∧
     length rendered = length items ∧
     (∀ i item, items !! i = Some item → rendered !! i = Some ("- " +:+ item)) ∧
     Sorted String.le items ∧ NoDup items ∧
     ∀ item, item ∈ items ↔ listed_child "memory:/memories/src" source_tree item) ∧
  Tool.view stored_order default_tool "/memories//src/" None source_tree =
    (inr ("Directory: /memories//src/" +:+ LF +:+ "- a" +:+ LF +:+ "- b/"),
     source_tree).
Proof.
  split; [|vm_compute; reflexivity].
  pose proof (view_directory stored_order default_tool "/memories//src/"
                "memory:/memories/src" None source_tree stored_order_perm) as H.
  assert (descendants "memory:/memories/src" source_tree =
            ["memory:/memories/src/a"; "memory:/memories/src/b/c"]) as Hd
    by (vm_compute; reflexivity).
  rewrite Hd in H.
  apply H; [discriminate|reflexivity|reflexivity|vm_compute; reflexivity].
Defined.

(** On a key with a wildcard the scan is not that of the subtree: [view] of
    [/memories/s*], a path without entries, finds the keys below
    [/memories/src] and returns a header without children. *)
Example view_glob_path :
  descendants "memory:/memories/s*" source_tree = [] ∧
  Tool.view stored_order default_tool "/memories/s*" None source_tree =
    (inr ("Directory: /memories/s*" +:+ LF), source_tree).
Proof. split; vm_compute; reflexivity. Qed.

(** ** [view] with a range *)

Lemma view_file_range_run order this (memoryPath key : string) e
    (rangeStart rangeEnd : Z) (s : store) :
  memoryPath ≠ "/memories" →
  Tool.pathToKey this memoryPath = inr key →
  s !! key = Some e →
  Tool.view order this memoryPath (Some [rangeStart; rangeEnd]) s =
    (let lines := Js.split (value e) LF in
     let startLine := Z.max 1 rangeStart - 1 in
     let endLine := if rangeEnd =? -1 then Z.of_nat (length lines) else rangeEnd in
     inr (Js.join (number_lines (Js.array_slice lines startLine endLine)
                     (startLine + 1)) LF),
     match ttl_in_force this with
     | Some t => alter (λ e0, Entry (value e0) (Some t)) key s
     | None => s
     end).
Proof.
  intros Hroot Hkey Hget. unfold Tool.view.
  destruct (String.eqb_spec memoryPath "/memories") as [|_]; [done|].
  unfold mbind at 1. unfold M_bind at 1. unfold lift at 1. rewrite Hkey.
  unfold mbind at 1. unfold M_bind at 1. unfold Redis.get at 1. rewrite Hget.
  simpl. unfold mbind, M_bind. by rewrite refreshTtl_run.
Qed.

Lemma array_slice_lookup {A} (l : list A) (a b : Z) (i : nat) (x : A) :
  0 ≤ a →
  Js.array_slice l a b !! i = Some x ↔
  l !! (Z.to_nat a + i)%nat = Some x ∧
  a + Z.of_nat i < (if b <? 0 then Z.of_nat (length l) + b else b).
Proof.
  intros Ha. unfold Js.array_slice, Js.clamp_index.
  destruct (Z.ltb_spec a 0) as [|_]; [lia|].
  rewrite lookup_take_Some, lookup_drop. split.
  - intros [Hx Hi]. pose proof (lookup_lt_Some _ _ _ Hx) as Hlen.
    replace (Z.to_nat a `min` length l + i)%nat with (Z.to_nat a + i)%nat in Hx
      by lia.
    split; [done|]. destruct (Z.ltb_spec b 0); lia.
  - intros [Hx Hi]. pose proof (lookup_lt_Some _ _ _ Hx) as Hlen.
    replace (Z.to_nat a `min` length l + i)%nat with (Z.to_nat a + i)%nat by lia.
    split; [done|]. destruct (Z.ltb_spec b 0); lia.
Qed.

(** X13. [view] of a file with the range [[rangeStart, rangeEnd]] shows the
    lines from number [max(1, rangeStart)] up to number [rangeEnd], each
    under its own line number; [rangeEnd = -1] stands for the last line,
    any other negative [rangeEnd] counts back from the end, and a range
    beyond the file shows nothing. *)
Theorem view_range_spec order this (memoryPath key : string) e
    (rangeStart rangeEnd : Z) (s : store) :
  memoryPath ≠ "/memories" →
  Tool.pathToKey this memoryPath = inr key →
  s !! key = Some e →
  let lines := Js.split (value e) LF in
  let n := Z.of_nat (length lines) in
  let startLine := Z.max 1 rangeStart - 1 in
  let limit :=
    if rangeEnd =? -1 then n else if rangeEnd <? 0 then n + rangeEnd else rangeEnd in
  ∃ rendered s',
    Tool.view order this memoryPath (Some [rangeStart; rangeEnd]) s =
      (inr (Js.join rendered LF), s') ∧
    ∀ i out,
      rendered !! i = Some out ↔
      ∃ line,
        lines !! (Z.to_nat startLine + i)%nat = Some line ∧
        startLine + Z.of_nat i < limit ∧
        out = Js.padStart (Js.String_of (startLine + Z.of_nat i + 1)) 4 " "
              +:+ ": " +:+ line.
Proof.
  intros Hroot Hkey Hget lines n startLine limit.
  rewrite (view_file_range_run _ _ _ _ _ _ _ _ Hroot Hkey Hget). cbv zeta.
  fold lines. fold n. fold startLine.
  eexists _, _. split; [done|]. intros i out.
  unfold number_lines. rewrite map_indexed_lookup.
  assert (0 ≤ startLine) as Hstart by (unfold startLine; lia).
  replace (Z.of_nat (0 + i) + (startLine + 1)) with (startLine + Z.of_nat i + 1)
    by lia.
  destruct (Js.array_slice lines startLine _ !! i) as [line|] eqn:Hline; simpl.
  - apply array_slice_lookup in Hline as [Hline Hlim]; [|done].
    split.
    + intros [= <-]. exists line. split; [done|]. split; [|done].
      unfold limit. fold n in Hlim.
      destruct (Z.eqb_spec rangeEnd (-1)) as [->|Hne].
      * destruct (Z.ltb_spec n 0); lia.
      * done.
    + intros (line' & Hline' & _ & ->). congruence.
  - split; [done|]. intros (line & Hline' & Hlim & _).
    assert (Js.array_slice lines startLine
              (if rangeEnd =? -1 then n else rangeEnd) !! i = Some line) as Hsome.
    { apply array_slice_lookup; [done|]. split; [done|]. fold n.
      unfold limit in Hlim.
      destruct (Z.eqb_spec rangeEnd (-1)) as [->|Hne]; [|done].
      destruct (Z.ltb_spec n 0); lia. }
    congruence.
Qed.

Lemma view_range_spec_witness :
  ∃ rendered s',
    Tool.view stored_order default_tool "/memories/f" (Some [2; 3]) five_lines =
      (inr (Js.join rendered LF), s') ∧
    rendered !! 0%nat = Some "   2: b" ∧
    rendered !! 1%nat = Some "   3: c" ∧
    rendered !! 2%nat = None.
Proof.
  destruct (view_range_spec stored_order default_tool "/memories/f"
              "memory:/memories/f"
              (Entry ("a" +:+ LF +:+ "b" +:+ LF +:+ "c" +:+ LF +:+ "d" +:+ LF +:+ "e")
                     None)
              2 3 five_lines) as (rendered & s' & Hrun & Hlines);
    [discriminate|reflexivity|vm_compute; reflexivity|].
  exists rendered, s'. split; [exact Hrun|]. split; [|split].
  - apply Hlines. exists "b". split; [reflexivity|]. split; [simpl; lia|reflexivity].
  - apply Hlines. exists "c". split; [reflexivity|]. split; [simpl; lia|reflexivity].
  - destruct (rendered !! 2%nat) as [out|] eqn:Hout; [|done].
    apply Hlines in Hout as (line & _ & Hlim & _). simpl in Hlim. lia.
Defined.

Example view_range_to_end :
  outcome (Tool.view stored_order default_tool "/memories/f" (Some [4; -1])) five_lines
    = inr ("   4: d" +:+ LF +:+ "   5: e").
Proof. vm_compute. reflexivity. Qed.

Example view_range_start_below_one :
  outcome (Tool.view stored_order default_tool "/memories/f" (Some [-7; 1])) five_lines
    = inr "   1: a".
Proof. vm_compute. reflexivity. Qed.

(** ** [insert] followed by [view] *)

(** X14. [insert] followed by [view]: when the inserted text, one trailing
    newline stripped, holds no newline, the file shown has one line more,
    the new line at position [insert_line] (number [insert_line + 1]) and
    the former lines around it in their order. *)
Theorem insert_then_view order this (memoryPath key : string) e
    (insert_line : Z) (insert_text : string) (s : store) :
  memoryPath ≠ "/memories" →
  Tool.pathToKey this memoryPath = inr key →
  s !! key = Some e →
  let lines := Js.split (value e) LF in
  let i := Z.to_nat insert_line in
  let new_line := Js.strip_last "010" insert_text in
  0 ≤ insert_line ≤ Z.of_nat (length lines) →
  free_of LF new_line →
  ∃ s1,
    Tool.insert this memoryPath insert_line insert_text s =
      (inr ("Text inserted at line " +:+ Js.String_of insert_line +:+ " in "
            +:+ memoryPath), s1) ∧
    Tool.view order this memoryPath None s1 =
      (inr (Js.join (number_lines (take i lines ++ new_line :: drop i lines) 1) LF),
       s1) ∧
    length (take i lines ++ new_line :: drop i lines) = S (length lines).
Proof.
  intros Hroot Hkey Hget lines i new_line Hrange Hfree.
  assert (value <$> s !! key = Some (value e)) as Hval by (by rewrite Hget).
  rewrite (insert_run _ _ _ _ _ _ _ Hkey Hval). cbv zeta. fold lines.
  destruct (Z.ltb_spec insert_line 0); [lia|].
  destruct (Z.gtb_spec insert_line (Z.of_nat (length lines))); [lia|]. simpl.
  unfold Js.array_splice_insert. rewrite clamp_index_in_range by lia.
  fold i. fold new_line.
  eexists. split; [done|]. split.
  - rewrite (view_file_run _ _ _ key (Js.join (take i lines ++ new_line :: drop i lines) LF))
      by (by rewrite ?lookup_insert_eq).
    rewrite split_join.
    + f_equal. destruct (ttl_in_force this); [|done].
      by rewrite alter_insert_eq.
    + by destruct (take i lines).
    + destruct (split_lines_of (value e)) as (_ & _ & Hlines). fold lines in Hlines.
      apply Forall_app. split; [by apply Forall_take|].
      constructor; [done|by apply Forall_drop].
  - rewrite length_app, length_take. simpl. rewrite length_drop. lia.
Qed.

Lemma insert_then_view_witness :
  ∃ s1,
    Tool.insert default_tool "/memories/f" 1 ("X" +:+ LF) five_lines =
      (inr ("Text inserted at line " +:+ Js.String_of 1 +:+ " in " +:+ "/memories/f"),
       s1) ∧
    Tool.view stored_order default_tool "/memories/f" None s1 =
      (inr (Js.join
              (number_lines
                 (take 1 (Js.split ("a" +:+ LF +:+ "b" +:+ LF +:+ "c" +:+ LF +:+ "d"
                                    +:+ LF +:+ "e") LF)
                  ++ "X" :: drop 1 (Js.split ("a" +:+ LF +:+ "b" +:+ LF +:+ "c" +:+ LF
                                              +:+ "d" +:+ LF +:+ "e") LF)) 1) LF), s1) ∧
    length (take 1 (Js.split ("a" +:+ LF +:+ "b" +:+ LF +:+ "c" +:+ LF +:+ "d"
                              +:+ LF +:+ "e") LF)
            ++ "X" :: drop 1 (Js.split ("a" +:+ LF +:+ "b" +:+ LF +:+ "c" +:+ LF
                                        +:+ "d" +:+ LF +:+ "e") LF)) = 6%nat.
Proof.
  apply (insert_then_view stored_order default_tool "/memories/f"
           "memory:/memories/f"
           (Entry ("a" +:+ LF +:+ "b" +:+ LF +:+ "c" +:+ LF +:+ "d" +:+ LF +:+ "e")
                  None)
           1 ("X" +:+ LF) five_lines);
    [discriminate|reflexivity|vm_compute; reflexivity|simpl; lia|].
  by apply indexOf_None_free.
Defined.

Example insert_then_view_lines :
  outcome (Tool.view stored_order default_tool "/memories/f" None)
    (store_after (Tool.insert default_tool "/memories/f" 1 ("X" +:+ LF)) five_lines)
  = inr ("   1: a" +:+ LF +:+ "   2: X" +:+ LF +:+ "   3: b" +:+ LF +:+ "   4: c"
         +:+ LF +:+ "   5: d" +:+ LF +:+ "   6: e").
Proof. vm_compute. reflexivity. Qed.

(** ** [str_replace]: the three outcomes *)

Lemma split_loop_no_separator fuel (s sep : string) :
  Js.indexOf s sep = None → Js.split_loop fuel s sep = [s].
Proof. destruct fuel; [done|]. simpl. by intros ->. Qed.

Lemma indexOf_cons c (s pat : string) :
  Js.indexOf (String c s) pat =
    if Js.startsWith (String c s) pat then Some O else S <$> Js.indexOf s pat.
Proof. reflexivity. Qed.

(** [indexOf] returns the least position of an occurrence. *)
Lemma indexOf_least (a pat b : string) j :
  Js.indexOf (a +:+ pat +:+ b) pat = Some j → (j ≤ String.length a)%nat.
Proof.
  revert j. induction a as [|c a IH]; intros j.
  - rewrite app_empty_l. destruct (pat +:+ b) as [|d r] eqn:Heq.
    + destruct pat; [|done]. simpl. by intros [= <-].
    + rewrite indexOf_cons, <-Heq, startsWith_app. by intros [= <-].
  - rewrite app_cons, indexOf_cons.
    destruct (Js.startsWith _ pat); [intros [= <-]; simpl; lia|].
    destruct (Js.indexOf (a +:+ pat +:+ b) pat) as [j'|] eqn:Hidx; [|done].
    intros [= <-]. simpl. specialize (IH j' eq_refl). lia.
Qed.

Lemma indexOf_length (s pat : string) j :
  Js.indexOf s pat = Some j → String.length (Js.slice_to j s) = j.
Proof.
  revert j. induction s as [|c s IH]; intros j.
  - simpl. destruct (Js.startsWith "" pat); [|done]. by intros [= <-].
  - rewrite indexOf_cons. destruct (Js.startsWith _ pat); [by intros [= <-]|].
    destruct (Js.indexOf s pat) as [j'|]; [|done]. intros [= <-]. simpl.
    by rewrite IH.
Qed.

Lemma indexOf_first_occurrence (s pat : string) j :
  Js.indexOf s pat = Some j →
  first_occurrence pat s (Js.slice_to j s)
    (Js.slice_from (j + String.length pat) s).
Proof.
  intros Hidx. split; [by apply indexOf_Some|].
  rewrite (indexOf_length _ _ _ Hidx).
  intros i Hi (a & b & Hs & Ha). rewrite Hs in Hidx.
  apply indexOf_least in Hidx. lia.
Qed.

Lemma first_occurrence_indexOf (pat s before after : string) :
  first_occurrence pat s before after →
  Js.indexOf s pat = Some (String.length before).
Proof.
  intros [Hs Hfirst].
  destruct (Js.indexOf s pat) as [j|] eqn:Hidx.
  - f_equal. pose proof Hidx as Hle. rewrite Hs in Hle.
    apply indexOf_least in Hle.
    destruct (decide (j = String.length before)) as [|Hne]; [done|].
    destruct (Hfirst j); [lia|].
    exists (Js.slice_to j s), (Js.slice_from (j + String.length pat) s).
    split; [exact (indexOf_Some _ _ _ Hidx)|exact (indexOf_length _ _ _ Hidx)].
  - apply indexOf_None_free in Hidx. destruct Hidx. eauto.
Qed.

Lemma first_occurrence_slices (pat s before after : string) :
  first_occurrence pat s before after →
  Js.slice_to (String.length before) s = before ∧
  Js.slice_from (String.length before + String.length pat) s = after.
Proof.
  intros [-> _]. split; [apply slice_to_app|].
  rewrite <-length_app_str, <-app_assoc_str. apply slice_from_app.
Qed.

(** [split] cuts at the occurrences counted from left to right. *)
Lemma split_loop_occurrences (pat s : string) n fuel :
  pat ≠ "" → occurrences pat s n → (String.length s ≤ fuel)%nat →
  length (Js.split_loop fuel s pat) = S n.
Proof.
  intros Hpat Hocc. revert fuel.
  induction Hocc as [s Hfree|s before after n Hfirst Hocc IH]; intros fuel Hlen.
  - rewrite split_loop_no_separator; [done|]. by apply free_indexOf_None.
  - pose proof (first_occurrence_indexOf _ _ _ _ Hfirst) as Hidx.
    destruct (first_occurrence_slices _ _ _ _ Hfirst) as [Hb Ha].
    destruct Hfirst as [Hs _].
    apply (f_equal String.length) in Hs. rewrite !length_app_str in Hs.
    assert (0 < String.length pat)%nat by (destruct pat; [done|simpl; lia]).
    destruct fuel as [|fuel]; [lia|].
    simpl. rewrite Hidx, Ha. simpl. rewrite IH; [done|lia].
Qed.

Lemma split_occurrences (pat s : string) n :
  pat ≠ "" → occurrences pat s n → length (Js.split s pat) = S n.
Proof.
  intros Hpat Hocc. destruct pat as [|a pat]; [done|].
  by apply split_loop_occurrences.
Qed.

(** Every text has its count. *)
Lemma occurrences_total (pat s : string) :
  pat ≠ "" → ∃ n, occurrences pat s n.
Proof.
  intros Hpat.
  assert (∀ fuel s, (String.length s ≤ fuel)%nat → ∃ n, occurrences pat s n)
    as Hall; [|by apply (Hall (String.length s))].
  clear s. induction fuel as [|fuel IH]; intros s Hlen.
  - destruct s; [|simpl in Hlen; lia].
    exists O. constructor. apply indexOf_None_free. by destruct pat.
  - destruct (Js.indexOf s pat) as [j|] eqn:Hidx.
    + pose proof (indexOf_first_occurrence _ _ _ Hidx) as Hfirst.
      destruct (IH (Js.slice_from (j + String.length pat) s)) as [n Hn].
      { destruct Hfirst as [Hs _].
        apply (f_equal String.length) in Hs. rewrite !length_app_str in Hs.
        assert (0 < String.length pat)%nat by (destruct pat; [done|simpl; lia]).
        lia. }
      exists (S n). by econstructor.
    + exists O. constructor. by apply indexOf_None_free.
Qed.

(** X15. [str_replace] on a file, with a non-empty [old_str] and a
    [new_str] without dollar sign, by the number of occurrences of
    [old_str] counted from left to right, each one sought after the end of
    the one before it (every text has such a count).  None: the
    text-not-found error.  One: the text before the first occurrence and
    the text after it stay, and [new_str] stands between them.  More: the
    error that reports the count.  Both failures leave the store as it
    was. *)
Theorem str_replace_spec this (memoryPath key old_str new_str : string) e
    (s : store) :
  Tool.pathToKey this memoryPath = inr key →
  s !! key = Some e →
  old_str ≠ "" →
  free_of "$" new_str →
  (∃ n, occurrences old_str (value e) n) ∧
  ∀ n, occurrences old_str (value e) n →
    match n with
    | O =>
        Tool.str_replace this memoryPath old_str new_str s =
          (inl (TextNotFound memoryPath), s)
    | 1%nat =>
        ∀ before after, first_occurrence old_str (value e) before after →
          Tool.str_replace this memoryPath old_str new_str s =
            (inr ("File " +:+ memoryPath +:+ " has been edited"),
             <[key := Entry (before +:+ new_str +:+ after) (ttl_in_force this)]> s)
    | _ =>
        Tool.str_replace this memoryPath old_str new_str s =
          (inl (TextNotUnique (Z.of_nat n) memoryPath), s)
    end.
Proof.
  intros Hkey Hget Hold Hplain. split; [by apply occurrences_total|].
  intros n Hocc.
  assert (value <$> s !! key = Some (value e)) as Hval by (by rewrite Hget).
  rewrite (str_replace_run _ _ _ _ _ _ _ Hkey Hval). cbv zeta.
  rewrite (split_occurrences _ _ _ Hold Hocc).
  destruct n as [|[|n]].
  - done.
  - intros before after Hfirst.
    change (Z.of_nat 2 - 1 =? 0) with false. change (Z.of_nat 2 - 1 >? 1) with false.
    cbv iota. unfold Js.replace.
    rewrite (first_occurrence_indexOf _ _ _ _ Hfirst).
    destruct (first_occurrence_slices _ _ _ _ Hfirst) as [-> ->].
    by rewrite getSubstitution_plain.
  - destruct (Z.eqb_spec (Z.of_nat (S (S (S n))) - 1) 0); [lia|].
    destruct (Z.gtb_spec (Z.of_nat (S (S (S n))) - 1) 1); [|lia].
    do 2 f_equal. f_equal. lia.
Qed.

(** In [aaa] the one occurrence of [aa] is the first two code units; in
    [abababa] the occurrences of [aba] counted this way are two. *)
Lemma str_replace_spec_witness :
  Tool.str_replace default_tool "/memories/f" "aa" "b" aaa_file =
    (inr "File /memories/f has been edited",
     <["memory:/memories/f" := Entry "ba" None]> aaa_file) ∧
  Tool.str_replace default_tool "/memories/f" "aba" "X" abababa_file =
    (inl (TextNotUnique 2 "/memories/f"), abababa_file).
Proof.
  split.
  - destruct (str_replace_spec default_tool "/memories/f" "memory:/memories/f"
                "aa" "b" (Entry "aaa" None) aaa_file) as [_ H];
      [reflexivity|vm_compute; reflexivity|discriminate|
       by apply indexOf_None_free|].
    assert (first_occurrence "aa" "aaa" "" "a") as Hfirst.
    { split; [reflexivity|]. intros j Hj. simpl in Hj. lia. }
    assert (occurrences "aa" "aaa" 1) as Hocc.
    { econstructor; [exact Hfirst|]. constructor. by apply indexOf_None_free. }
    exact (H 1%nat Hocc "" "a" Hfirst).
  - destruct (str_replace_spec default_tool "/memories/f" "memory:/memories/f"
                "aba" "X" (Entry "abababa" None) abababa_file) as [_ H];
      [reflexivity|vm_compute; reflexivity|discriminate|
       by apply indexOf_None_free|].
    assert (occurrences "aba" "abababa" 2) as Hocc.
    { apply (occurrences_next "aba" "abababa" "" "baba").
      { split; [reflexivity|]. intros j Hj. simpl in Hj. lia. }
      apply (occurrences_next "aba" "baba" "b" "").
      { split; [reflexivity|]. intros j Hj (a & b & Hs & Ha).
        simpl in Hj. assert (j = O) as -> by lia.
        destruct a; [|done]. rewrite app_empty_l in Hs. discriminate. }
      constructor. by apply indexOf_None_free. }
    exact (H 2%nat Hocc).
Defined.

(** ** [view] reads *)

(** X16. [view] writes no text: whatever the path, the range and the
    outcome, every key holds afterwards the text it held before, and no
    key appears or disappears. *)
Theorem view_keeps_texts order this (memoryPath : string) view_range (s : store) k :
  value <$> store_after (Tool.view order this memoryPath view_range) s !! k
  = value <$> s !! k.
Proof.
  destruct (decide (memoryPath = "/memories")) as [->|Hroot].
  { by rewrite view_listing_store by (by left). }
  destruct (Tool.pathToKey this memoryPath) as [err|key] eqn:Hkey.
  { unfold store_after, Tool.view.
    destruct (String.eqb_spec memoryPath "/memories") as [|_]; [done|].
    unfold mbind, M_bind, lift. by rewrite Hkey. }
  destruct (s !! key) as [e|] eqn:Hget.
  - destruct (view_file_store order this _ _ view_range _ _ Hroot Hkey Hget)
      as [out Hrun].
    unfold store_after. rewrite Hrun. simpl.
    destruct (ttl_in_force this); [|done].
    destruct (decide (k = key)) as [->|Hne].
    + by rewrite lookup_insert_eq, Hget.
    + by rewrite lookup_insert_ne.
  - by rewrite view_listing_store by (right; eauto).
Qed.
